(** * The 2048 game core of script.js

    A shallow embedding of the game logic of [script.js]: the line
    transform [slideCombineRow], the four directional moves, the random
    spawn, the move handler, undo, and the terminal-state check, with the
    module-level variables of the script gathered in one [State] record
    that every function threads explicitly.

    Cell values are JavaScript numbers that only ever hold small integers,
    so they are modelled as [Z] and [===] on them as [Z.eqb].  The two calls
    to [Math.random()] of a spawn are two rationals in [[0,1)]. *)

From Stdlib Require Import String Ascii ZArith Bool Lia QArith Qround Qabs Lqa.
From Stdlib Require Import DecimalString DecimalZ List.
From Equations Require Import Equations.
Import ListNotations.
Open Scope Z_scope.

(** ** Arrays *)

(** [const SIZE = 4] *)
Definition SIZE : nat := 4.

(** [l[i] = v] for an index inside the array (the only use in the script). *)
Definition assign {A} (i : nat) (v : A) (l : list A) : list A :=
  if (i <? length l)%nat then firstn i l ++ v :: skipn (S i) l else l.

(** [l.splice(start, count)], read for its effect on [l]. *)
Definition splice {A} (start count : nat) (l : list A) : list A :=
  firstn start l ++ skipn (start + count) l.

Definition Grid : Type := list (list Z).

(** [grid[r][c]] *)
Definition cell (g : Grid) (r c : nat) : Z := nth c (nth r g []) 0.

(** [grid[r][c] = v] *)
Definition setCell (r c : nat) (v : Z) (g : Grid) : Grid :=
  assign r (assign c v (nth r g [])) g.

(** [src.map(row => [...row])] *)
Definition copyGrid (src : Grid) : Grid := map (fun row => row ++ []) src.

(** A board as [initGame] builds it: [SIZE] rows of [SIZE] cells. *)
Definition grid_ok (g : Grid) : bool :=
  (length g =? SIZE)%nat && forallb (fun row => (length row =? SIZE)%nat) g.

Definition sumList (l : list Z) : Z := fold_right Z.add 0 l.

(** The sum of all cell values of the board. *)
Definition gridSum (g : Grid) : Z := sumList (concat g).

(** Some cell of the board is empty. *)
Definition hasEmpty (g : Grid) : Prop := In 0 (concat g).

(** ** The line transform *)

(** The [for] loop of [slideCombineRow]: [i] is the loop index, [arr] the
    array being spliced in place.  The guard [i < arr.length - 1] is
    re-evaluated on every iteration; [arr.length - i] decreases. *)
Equations? combineLoop (i : nat) (arr : list Z) (gained : Z)
    (mergedIndices : list nat) : list Z * list nat * Z
    by wf (length arr - i)%nat lt :=
  combineLoop i arr gained mergedIndices
    with le_lt_dec (length arr - 1) i => {
    | left _ := (arr, mergedIndices, gained);
    | right _ with Z.eqb (nth i arr 0) (nth (i + 1) arr 0) => {
      | true :=
          let arr' := assign i (nth i arr 0 * 2) arr in
          combineLoop (S i) (splice (i + 1) 1 arr')
                      (gained + nth i arr' 0) (mergedIndices ++ [i]);
      | false := combineLoop (S i) arr gained mergedIndices } }.
Proof.
  - subst arr'. unfold splice, assign.
    destruct (Nat.ltb_spec i (length arr)); [|lia].
    repeat (rewrite ?length_app, ?length_firstn, ?length_skipn; cbn [length]).
    lia.
  - lia.
Qed.

(** [while (arr.length < SIZE) arr.push(0)] *)
Definition padZeros (arr : list Z) : list Z :=
  arr ++ repeat 0 (SIZE - length arr).

(** [slideCombineRow(row)], returning [(newRow, mergedIndices, gained)]. *)
Definition slideCombineRow (row : list Z) : list Z * list nat * Z :=
  let arr := filter (fun v => negb (v =? 0)) row in
  let '(arr1, mergedIndices, gained) := combineLoop 0 arr 0 [] in
  (padZeros arr1, mergedIndices, gained).

(** ** The line transform as the specification words it

    Step 1 removes the zeros, step 2 scans the compacted line once from
    the left, step 3 pads.  [mergeScan idx l] is the scan of the rest [l]
    of the line whose first entry lands at output index [idx]: an equal
    adjacent pair becomes one doubled entry, and the scan resumes after
    the pair, so the doubled entry is never compared again. *)
Definition compact (line : list Z) : list Z :=
  filter (fun v => negb (v =? 0)) line.

Fixpoint mergeScan (idx : nat) (l : list Z) : list Z * list nat * Z :=
  match l with
  | [] => ([], [], 0)
  | a :: tl =>
      match tl with
      | [] => ([a], [], 0)
      | b :: tl' =>
          if a =? b then
            let '(res, ms, g) := mergeScan (S idx) tl' in
            (a * 2 :: res, idx :: ms, a * 2 + g)
          else
            let '(res, ms, g) := mergeScan (S idx) tl in
            (a :: res, ms, g)
      end
  end.

Definition compactAndMerge (line : list Z) : list Z * list nat * Z :=
  let '(res, ms, g) := mergeScan 0 (compact line) in
  (res ++ repeat 0 (SIZE - length res), ms, g).

(** No two neighbouring entries of the line are equal and non-zero. *)
Fixpoint noAdjacentEqual (l : list Z) : bool :=
  match l with
  | a :: tl =>
      match tl with
      | b :: _ => negb ((a =? b) && negb (a =? 0)) && noAdjacentEqual tl
      | [] => true
      end
  | [] => true
  end.

(** ** Program state *)

(** [{ r, c }] *)
Record Pos : Type := mkPos { pos_r : nat; pos_c : nat }.

(** [messageEl.textContent] *)
Inductive Message : Type := MsgEmpty | MsgWin | MsgGameOver.

(** The module-level variables of the script. *)
Record State : Type := mkState {
  grid : Grid;
  score : Z;
  lastGrid : option Grid;
  lastScore : Z;
  lastAddedPos : option Pos;
  mergedMap : list (nat * nat);
  gameOver : bool;
  gameWon : bool;
  bestScore : Z;
  message : Message
}.

Definition set_grid (g : Grid) (s : State) : State :=
  mkState g (score s) (lastGrid s) (lastScore s) (lastAddedPos s)
          (mergedMap s) (gameOver s) (gameWon s) (bestScore s) (message s).

Definition set_score (v : Z) (s : State) : State :=
  mkState (grid s) v (lastGrid s) (lastScore s) (lastAddedPos s)
          (mergedMap s) (gameOver s) (gameWon s) (bestScore s) (message s).

Definition set_undo (g : option Grid) (v : Z) (s : State) : State :=
  mkState (grid s) (score s) g v (lastAddedPos s)
          (mergedMap s) (gameOver s) (gameWon s) (bestScore s) (message s).

Definition set_lastAddedPos (p : option Pos) (s : State) : State :=
  mkState (grid s) (score s) (lastGrid s) (lastScore s) p
          (mergedMap s) (gameOver s) (gameWon s) (bestScore s) (message s).

Definition set_mergedMap (m : list (nat * nat)) (s : State) : State :=
  mkState (grid s) (score s) (lastGrid s) (lastScore s) (lastAddedPos s)
          m (gameOver s) (gameWon s) (bestScore s) (message s).

Definition set_gameOver (b : bool) (s : State) : State :=
  mkState (grid s) (score s) (lastGrid s) (lastScore s) (lastAddedPos s)
          (mergedMap s) b (gameWon s) (bestScore s) (message s).

Definition set_gameWon (b : bool) (s : State) : State :=
  mkState (grid s) (score s) (lastGrid s) (lastScore s) (lastAddedPos s)
          (mergedMap s) (gameOver s) b (bestScore s) (message s).

Definition set_bestScore (v : Z) (s : State) : State :=
  mkState (grid s) (score s) (lastGrid s) (lastScore s) (lastAddedPos s)
          (mergedMap s) (gameOver s) (gameWon s) v (message s).

Definition set_message (m : Message) (s : State) : State :=
  mkState (grid s) (score s) (lastGrid s) (lastScore s) (lastAddedPos s)
          (mergedMap s) (gameOver s) (gameWon s) (bestScore s) m.

(** The variables as the script declares them; [best] is what
    [parseInt(localStorage.getItem('bestScore')) || 0] evaluates to. *)
Definition initialState (best : Z) : State :=
  mkState [] 0 None 0 None [] false false best MsgEmpty.

(** ** Score display *)

(** [updateScoreDisplay()]: the text of the score element is not kept;
    the best score is. *)
Definition updateScoreDisplay (s : State) : State :=
  if bestScore s <? score s then set_bestScore (score s) s else s.

(** [bumpScore(additional)] *)
Definition bumpScore (additional : Z) (s : State) : State :=
  updateScoreDisplay (set_score (score s + additional) s).

(** [render()] draws from the state and refreshes the score display; the
    timer it arms is [renderTimeout] below. *)
Definition render (s : State) : State := updateScoreDisplay s.

(** The callback [render] hands to [setTimeout]. *)
Definition renderTimeout (s : State) : State :=
  set_lastAddedPos None (set_mergedMap [] s).

(** ** Comparing rows

    [moveLeftCore] and [moveRightCore] compare two rows through
    [JSON.stringify]: an array of integers prints as its decimal entries
    between brackets, separated by commas. *)
Definition numberToString (v : Z) : string :=
  NilEmpty.string_of_int (Z.to_int v).

Fixpoint joinComma (l : list string) : string :=
  match l with
  | [] => EmptyString
  | x :: tl =>
      match tl with
      | [] => x
      | _ :: _ => (x ++ String "," (joinComma tl))%string
      end
  end.

Definition JSON_stringify (a : list Z) : string :=
  String "[" (joinComma (map numberToString a) ++ String "]" EmptyString)%string.

(** The characters that end an entry of a printed array. *)
Definition isDelim (ch : ascii) : bool := Ascii.eqb ch "," || Ascii.eqb ch "]".

Fixpoint delimFree (s : string) : bool :=
  match s with
  | EmptyString => true
  | String ch tl => negb (isDelim ch) && delimFree tl
  end.

(** ** Spawning a tile *)

(** The two [Math.random()] results one call of [addRandomTile] consumes. *)
Record Rand : Type := mkRand { rand_cell : Q; rand_value : Q }.

Definition unitInterval (u : Q) : Prop := (0 <= u)%Q /\ (u < 1)%Q.

Definition valid_rand (rnd : Rand) : Prop :=
  unitInterval (rand_cell rnd) /\ unitInterval (rand_value rnd).

(** The array [empty] that the two nested loops collect, row by row. *)
Definition emptyCells (g : Grid) : list Pos :=
  flat_map (fun r =>
    flat_map (fun c => if cell g r c =? 0 then [mkPos r c] else [])
             (seq 0 SIZE))
    (seq 0 SIZE).

(** [Math.floor(Math.random() * empty.length)] *)
Definition randomIndex (u : Q) (n : nat) : nat :=
  Z.to_nat (Qfloor (u * inject_Z (Z.of_nat n))).

(** [Math.random() < 0.9 ? 2 : 4] *)
Definition randomValue (u : Q) : Z :=
  if Qlt_le_dec u (9 # 10) then 2 else 4.

(** [addRandomTile()], with its return value.  For a draw in [[0,1)] the
    index is inside [empty], so the last case is never taken. *)
Definition addRandomTile (rnd : Rand) (s : State) : option Pos * State :=
  let empty := emptyCells (grid s) in
  match empty with
  | [] => (None, set_lastAddedPos None s)
  | _ :: _ =>
      match nth_error empty (randomIndex (rand_cell rnd) (length empty)) with
      | Some pos =>
          (Some pos,
           set_lastAddedPos (Some pos)
             (set_grid (setCell (pos_r pos) (pos_c pos)
                                (randomValue (rand_value rnd)) (grid s)) s))
      | None => (None, s)
      end
  end.

(** ** The four moves *)

(** [mergedMap[key] = true] on the object used as a set of "r,c" keys. *)
Definition markMerged (m : list (nat * nat)) (k : nat * nat) : list (nat * nat) :=
  if existsb (fun k' => (fst k' =? fst k)%nat && (snd k' =? snd k)%nat) m
  then m else m ++ [k].

(** What one pass of a move loop carries: the grid, [mergedMap], [moved]
    and [totalGained]. *)
Definition Acc : Type := Grid * list (nat * nat) * bool * Z.

Definition rowsDiffer (a b : list Z) : bool :=
  negb (String.eqb (JSON_stringify a) (JSON_stringify b)).

(** Body of the loop of [moveLeftCore] for row [r]. *)
Definition leftStep (acc : Acc) (r : nat) : Acc :=
  let '(g, mm, moved, totalGained) := acc in
  let original := nth r g [] in
  let '(newRow, mergedIndices, gained) := slideCombineRow original in
  (assign r newRow g,
   fold_left (fun m ci => markMerged m (r, ci)) mergedIndices mm,
   if rowsDiffer original newRow then true else moved,
   totalGained + gained).

(** Body of the loop of [moveRightCore] for row [r]. *)
Definition rightStep (acc : Acc) (r : nat) : Acc :=
  let '(g, mm, moved, totalGained) := acc in
  let original := nth r g [] in
  let reversed := rev original in
  let '(newRow, mergedIndices, gained) := slideCombineRow reversed in
  let finalRow := rev newRow in
  (assign r finalRow g,
   fold_left (fun m idx => markMerged m (r, (SIZE - 1 - idx)%nat)) mergedIndices mm,
   if rowsDiffer original finalRow then true else moved,
   totalGained + gained).

(** [for (r...) col.push(grid[r][c])] *)
Definition column (g : Grid) (c : nat) : list Z :=
  map (fun r => cell g r c) (seq 0 SIZE).

(** The inner loop writing a line back into column [c], raising [moved]
    at each cell that changes. *)
Definition writeColumn (c : nat) (line : list Z) (gm : Grid * bool) : Grid * bool :=
  fold_left (fun (a : Grid * bool) r =>
               let '(g, moved) := a in
               (setCell r c (nth r line 0) g,
                if cell g r c =? nth r line 0 then moved else true))
            (seq 0 SIZE) gm.

(** Body of the loop of [moveUpCore] for column [c]. *)
Definition upStep (acc : Acc) (c : nat) : Acc :=
  let '(g, mm, moved, totalGained) := acc in
  let col := column g c in
  let '(newRow, mergedIndices, gained) := slideCombineRow col in
  let '(g', moved') := writeColumn c newRow (g, moved) in
  (g',
   fold_left (fun m ridx => markMerged m (ridx, c)) mergedIndices mm,
   moved',
   totalGained + gained).

(** Body of the loop of [moveDownCore] for column [c]. *)
Definition downStep (acc : Acc) (c : nat) : Acc :=
  let '(g, mm, moved, totalGained) := acc in
  let col := column g c in
  let reversed := rev col in
  let '(newRow, mergedIndices, gained) := slideCombineRow reversed in
  let finalCol := rev newRow in
  let '(g', moved') := writeColumn c finalCol (g, moved) in
  (g',
   fold_left (fun m idx => markMerged m ((SIZE - 1 - idx)%nat, c)) mergedIndices mm,
   moved',
   totalGained + gained).

(** The common frame of the four [move*Core] functions: reset
    [mergedMap], run the loop over [0 .. SIZE-1], bump the score when
    something was gained, return [moved]. *)
Definition moveCore (step : Acc -> nat -> Acc) (s : State) : bool * State :=
  let '(g, mm, moved, totalGained) :=
    fold_left step (seq 0 SIZE) (grid s, [], false, 0) in
  let s1 := set_mergedMap mm (set_grid g s) in
  (moved, if 0 <? totalGained then bumpScore totalGained s1 else s1).

Definition moveLeftCore : State -> bool * State := moveCore leftStep.
Definition moveRightCore : State -> bool * State := moveCore rightStep.
Definition moveUpCore : State -> bool * State := moveCore upStep.
Definition moveDownCore : State -> bool * State := moveCore downStep.

(** ** Terminal state *)

(** [hasMoves()]: the first cell, in row order, that is empty or equals
    its right or lower neighbour makes the loops return [true]. *)
Definition hasMoves (g : Grid) : bool :=
  existsb (fun r =>
    existsb (fun c =>
      (cell g r c =? 0)
      || ((c <? SIZE - 1)%nat && (cell g r c =? cell g r (c + 1)))
      || ((r <? SIZE - 1)%nat && (cell g r c =? cell g (r + 1) c)))
      (seq 0 SIZE))
    (seq 0 SIZE).

(** [grid.some(row => row.includes(2048))] *)
Definition has2048 (g : Grid) : bool :=
  existsb (fun row => existsb (fun v => v =? 2048) row) g.

(** [checkGameState()] *)
Definition checkGameState (s : State) : State :=
  if has2048 (grid s) && negb (gameWon s) then
    set_message MsgWin (set_gameWon true s)
  else if negb (hasMoves (grid s)) then
    set_message MsgGameOver (set_gameOver true s)
  else
    set_message MsgEmpty s.

(** ** Moves, undo, restart *)

(** The four [if (direction === ...)] statements of [handleMove], run in
    order on the local [moved] and the state. *)
Definition dispatch (direction : string) (s : State) : bool * State :=
  let ms := (false, s) in
  let ms := if String.eqb direction "left" then moveLeftCore (snd ms) else ms in
  let ms := if String.eqb direction "right" then moveRightCore (snd ms) else ms in
  let ms := if String.eqb direction "up" then moveUpCore (snd ms) else ms in
  let ms := if String.eqb direction "down" then moveDownCore (snd ms) else ms in
  ms.

(** [handleMove(direction)] *)
Definition handleMove (direction : string) (rnd : Rand) (s : State) : State :=
  if gameOver s || gameWon s then s
  else
    let prevGrid := copyGrid (grid s) in
    let prevScore := score s in
    let '(moved, s1) := dispatch direction s in
    if moved then
      let s2 := set_undo (Some prevGrid) prevScore s1 in
      let s3 := snd (addRandomTile rnd s2) in
      checkGameState (render s3)
    else
      set_lastAddedPos None (set_mergedMap [] s1).

(** The local [moved] of [handleMove] when it ends: the move changed the
    board.  A call that returns at the first line changed nothing. *)
Definition changed (direction : string) (s : State) : bool :=
  if gameOver s || gameWon s then false else fst (dispatch direction s).

(** The value of the tile the last call placed, read at [lastAddedPos];
    nothing placed counts as [0]. *)
Definition spawnedValue (s : State) : Z :=
  match lastAddedPos s with
  | Some pos => cell (grid s) (pos_r pos) (pos_c pos)
  | None => 0
  end.

(** [undoMove()] *)
Definition undoMove (s : State) : State :=
  match lastGrid s with
  | None => s
  | Some lg =>
      updateScoreDisplay
        (render
           (mkState (copyGrid lg) (lastScore s) None 0 None [] false false
                    (bestScore s) MsgEmpty))
  end.

(** [initGame()], spawning with the draws [rnd1] then [rnd2]. *)
Definition initGame (rnd1 rnd2 : Rand) (s : State) : State :=
  let s0 := mkState (repeat (repeat 0 SIZE) SIZE) 0 None 0 None [] false false
                    (bestScore s) MsgEmpty in
  let s1 := snd (addRandomTile rnd1 s0) in
  let s2 := snd (addRandomTile rnd2 s1) in
  updateScoreDisplay (render s2).

(** ** Reachable states

    [initGame] runs once when the page has loaded, before any listener
    can fire; afterwards the restart button, a key or swipe, the undo
    button and the render timer each run one function to completion. *)
Inductive reachable : State -> Prop :=
| reach_load best rnd1 rnd2 :
    valid_rand rnd1 -> valid_rand rnd2 ->
    reachable (initGame rnd1 rnd2 (initialState best))
| reach_restart s rnd1 rnd2 :
    reachable s -> valid_rand rnd1 -> valid_rand rnd2 ->
    reachable (initGame rnd1 rnd2 s)
| reach_move s direction rnd :
    reachable s -> valid_rand rnd ->
    reachable (handleMove direction rnd s)
| reach_undo s :
    reachable s -> reachable (undoMove s)
| reach_timeout s :
    reachable s -> reachable (renderTimeout s).

(** A tile value: empty, or a power of two from 2 upwards. *)
Definition tileValue (v : Z) : Prop :=
  v = 0 \/ exists k : Z, 1 <= k /\ v = 2 ^ k.

Definition tilesOnly (g : Grid) : Prop := Forall tileValue (concat g).

(** ** The shape the four loop bodies share

    Each body takes one line out of the grid, transforms it, writes it
    back and updates [moved], [totalGained] and [mergedMap].  The rows
    differ from the columns in how the line is read and written, left and
    up from right and down in whether the line is reversed around
    [slideCombineRow]. *)
Definition LineOp : Type := list Z -> list Z * list nat * Z.

Definition slideReversed : LineOp :=
  fun line =>
    let '(newRow, mergedIndices, gained) := slideCombineRow (rev line) in
    (rev newRow, mergedIndices, gained).

Definition rowStep (op : LineOp) (mark : nat -> nat -> nat * nat)
    (acc : Acc) (r : nat) : Acc :=
  let '(g, mm, moved, totalGained) := acc in
  let original := nth r g [] in
  let '(finalRow, mergedIndices, gained) := op original in
  (assign r finalRow g,
   fold_left (fun m i => markMerged m (mark r i)) mergedIndices mm,
   if rowsDiffer original finalRow then true else moved,
   totalGained + gained).

Definition colStep (op : LineOp) (mark : nat -> nat -> nat * nat)
    (acc : Acc) (c : nat) : Acc :=
  let '(g, mm, moved, totalGained) := acc in
  let '(finalCol, mergedIndices, gained) := op (column g c) in
  let '(g', moved') := writeColumn c finalCol (g, moved) in
  (g',
   fold_left (fun m i => markMerged m (mark c i)) mergedIndices mm,
   moved',
   totalGained + gained).

(** What the moves need of a line transform on a line of the board. *)
Definition lineOK (op : LineOp) : Prop :=
  forall l : list Z,
    length l = SIZE ->
    let '(out, ms, g) := op l in
    length out = SIZE
    /\ sumList out = sumList l
    /\ (Forall tileValue l -> Forall tileValue out)
    /\ (out = l -> ms = [] /\ g = 0)
    /\ (out <> l -> In 0 out)
    /\ (In 0 l -> In 0 out).

(** What a move needs of one pass of its loop. *)
Definition stepOK (step : Acc -> nat -> Acc) : Prop :=
  forall (g : Grid) (mm : list (nat * nat)) (moved : bool) (total : Z) (i : nat),
    grid_ok g = true -> (i < SIZE)%nat ->
    let '(g', mm', moved', total') := step (g, mm, moved, total) i in
    grid_ok g' = true
    /\ gridSum g' = gridSum g
    /\ (tilesOnly g -> tilesOnly g')
    /\ (moved' = false -> moved = false /\ g' = g /\ mm' = mm /\ total' = total)
    /\ (moved = true -> moved' = true)
    /\ (hasEmpty g -> hasEmpty g')
    /\ (moved' = true -> moved = true \/ hasEmpty g').

(** ** Completion of a call at the interface

    A call of a script function either returns or throws.  No function
    modelled here has a [throw] statement. *)
Inductive Completion (A : Type) : Type :=
| Normal (a : A)
| Throw (kind : string).
Arguments Normal {A} a.
Arguments Throw {A} kind.

(** [handleMove] seen from its caller. *)
Definition callHandleMove (direction : string) (rnd : Rand) (s : State)
  : Completion State :=
  Normal (handleMove direction rnd s).

Definition validDirection (direction : string) : bool :=
  String.eqb direction "left" || String.eqb direction "right"
  || String.eqb direction "up" || String.eqb direction "down".

(** ** Sample boards *)

Definition rnd0 : Rand := mkRand 0 0.

Definition boardOf (g : Grid) : State :=
  mkState g 0 None 0 None [] false false 0 MsgEmpty.

(** The board [[2,2,0,0]] over three empty rows. *)
Definition pairBoard : State :=
  boardOf [[2; 2; 0; 0]; [0; 0; 0; 0]; [0; 0; 0; 0]; [0; 0; 0; 0]].

(** A board that holds a 2048 tile, after the move that made it. *)
Definition wonBoard : State :=
  handleMove "left" rnd0
    (boardOf [[1024; 1024; 0; 0]; [0; 0; 0; 0]; [0; 0; 0; 0]; [0; 0; 0; 0]]).

(** A board on which nothing can slide to the left. *)
Definition packedBoard : State :=
  mkState [[2; 4; 0; 0]; [4; 0; 0; 0]; [0; 0; 0; 0]; [0; 0; 0; 0]] 12
          (Some [[2; 0; 0; 4]; [0; 0; 4; 0]; [0; 0; 0; 0]; [0; 0; 0; 0]]) 12
          (Some (mkPos 1 0)) [] false false 12 MsgEmpty.


(** ** Invariants and frames used in the proofs *)

(** What a core move does to the state, whatever the direction. *)
Definition coreOK (s : State) (res : bool * State) : Prop :=
  let '(moved, s1) := res in
  grid_ok (grid s1) = true
  /\ gridSum (grid s1) = gridSum (grid s)
  /\ (tilesOnly (grid s) -> tilesOnly (grid s1))
  /\ lastGrid s1 = lastGrid s
  /\ lastScore s1 = lastScore s
  /\ lastAddedPos s1 = lastAddedPos s
  /\ gameOver s1 = gameOver s
  /\ gameWon s1 = gameWon s
  /\ (moved = false -> set_mergedMap [] s1 = set_mergedMap [] s)
  /\ (moved = true -> hasEmpty (grid s1)).

(** The board and the snapshot are four by four and hold tile values
    only, at most one terminal flag is up, and a terminal state holds the
    snapshot of the move that ended the game. *)
Definition Inv (s : State) : Prop :=
  grid_ok (grid s) = true
  /\ tilesOnly (grid s)
  /\ (forall lg, lastGrid s = Some lg -> grid_ok lg = true /\ tilesOnly lg)
  /\ gameWon s && gameOver s = false
  /\ (gameOver s || gameWon s = true -> lastGrid s <> None).


(** ** Vocabulary of the further properties *)

(** The line a transform returns, and what it gains. *)
Definition lineOut (op : LineOp) (l : list Z) : list Z := fst (fst (op l)).

Definition lineMerged (op : LineOp) (l : list Z) : list nat := snd (fst (op l)).

Definition lineGain (op : LineOp) (l : list Z) : Z := snd (op l).

(** The board with every row reversed. *)
Definition mirror (g : Grid) : Grid := map (@rev Z) g.

(** The board with rows and columns exchanged. *)
Definition transpose (g : Grid) : Grid := map (column g) (seq 0 SIZE).

(** The number of tiles on the board. *)
Definition countTiles (g : Grid) : nat := length (compact (concat g)).

(** A full board of alternating 2 and 4. *)
Definition stuckBoard : State :=
  boardOf [[2; 4; 2; 4]; [4; 2; 4; 2]; [2; 4; 2; 4]; [4; 2; 4; 2]].

(** The flags say what the board shows, and a snapshot is a board of a
    live game. *)
Definition flagsMatch (s : State) : Prop :=
  gameWon s = has2048 (grid s)
  /\ gameOver s = negb (has2048 (grid s)) && negb (hasMoves (grid s))
  /\ (forall lg, lastGrid s = Some lg -> has2048 lg = false /\ hasMoves lg = true).

(** The game right after the page has loaded, with every draw 0. *)
Definition firstGame : State := initGame rnd0 rnd0 (initialState 0).

(** The snapshot score, the score and the best score, in this order. *)
Definition scoreOrder (s : State) : Prop :=
  0 <= lastScore s /\ lastScore s <= score s /\ score s <= bestScore s.

(** The board and the snapshot hold tiles worth 4 at least. *)
Definition tilesSum (s : State) : Prop :=
  4 <= gridSum (grid s)
  /\ (forall lg, lastGrid s = Some lg -> 4 <= gridSum lg).

(** The board holds no tile above 2048, the snapshot none above 1024. *)
Definition capped (s : State) : Prop :=
  Forall (fun v => v <= 2048) (concat (grid s))
  /\ (forall lg, lastGrid s = Some lg -> Forall (fun v => v <= 1024) (concat lg)).

(** ** Keys and swipes *)


(** The game together with the variables of the touch handlers.  The
    client coordinates of a touch are rationals, and the two
    subtractions of [handleTouchEnd] are exact. *)
Record Page : Type := mkPage {
  game : State;
  touchStartX : Q;
  touchStartY : Q;
  userHasInteracted : bool
}.

Definition set_game (s : State) (p : Page) : Page :=
  mkPage s (touchStartX p) (touchStartY p) (userHasInteracted p).

(** [handleTouchStart(e)], on the coordinates of [e.touches[0]]. *)
Definition handleTouchStart (clientX clientY : Q) (p : Page) : Page :=
  mkPage (game p) clientX clientY true.

(** [handleTouchEnd(e)], on the coordinates of [e.changedTouches[0]]. *)
Definition handleTouchEnd (clientX clientY : Q) (rnd : Rand) (p : Page) : Page :=
  let dx := (clientX - touchStartX p)%Q in
  let dy := (clientY - touchStartY p)%Q in
  let minSwipeDistance := 30%Q in
  if Qlt_le_dec (Qabs dy) (Qabs dx) then
    if Qlt_le_dec minSwipeDistance dx then
      set_game (handleMove "right" rnd (game p)) p
    else if Qlt_le_dec dx (- minSwipeDistance) then
      set_game (handleMove "left" rnd (game p)) p
    else p
  else
    if Qlt_le_dec minSwipeDistance dy then
      set_game (handleMove "down" rnd (game p)) p
    else if Qlt_le_dec dy (- minSwipeDistance) then
      set_game (handleMove "up" rnd (game p)) p
    else p.

(** A swipe of 40 to the right and 10 down, on the pair board. *)
Definition swipePage : Page := mkPage pairBoard 100 100 true.

(** * Properties *)

(** ** The model runs *)

Example slide_2222 : slideCombineRow [2; 2; 2; 2] = ([4; 4; 0; 0], [0%nat; 1%nat], 8).
Proof. reflexivity. Qed.

Example slide_2240 : slideCombineRow [2; 2; 4; 0] = ([4; 4; 0; 0], [0%nat], 4).
Proof. reflexivity. Qed.

Example move_left_sample :
  grid (handleMove "left" rnd0 (boardOf [[2;2;0;0];[0;0;0;0];[0;4;0;4];[0;0;0;0]]))
  = [[4;2;0;0];[0;0;0;0];[8;0;0;0];[0;0;0;0]].
Proof. vm_compute. reflexivity. Qed.

Example move_down_sample :
  grid (handleMove "down" rnd0 (boardOf [[2;2;0;0];[0;0;0;0];[2;4;0;4];[0;0;0;0]]))
  = [[2;0;0;0];[0;0;0;0];[0;2;0;0];[4;4;0;4]].
Proof. vm_compute. reflexivity. Qed.

(** ** Array lemmas *)

Lemma assign_middle {A} (pre : list A) (a v : A) (rest : list A) :
  assign (length pre) v (pre ++ a :: rest) = pre ++ v :: rest.
Proof.
  unfold assign. rewrite length_app. cbn [length].
  destruct (Nat.ltb_spec (length pre) (length pre + S (length rest))); [|lia].
  rewrite firstn_app, Nat.sub_diag, firstn_all, firstn_O, app_nil_r.
  replace (S (length pre)) with (length (pre ++ [a])) by (rewrite length_app; simpl; lia).
  replace (pre ++ a :: rest) with ((pre ++ [a]) ++ rest) by (rewrite <- app_assoc; reflexivity).
  rewrite skipn_app, Nat.sub_diag, skipn_all, skipn_O. reflexivity.
Qed.

Lemma splice_after {A} (pre : list A) (v b : A) (rest : list A) :
  splice (length pre + 1) 1 (pre ++ v :: b :: rest) = pre ++ v :: rest.
Proof.
  unfold splice.
  replace (pre ++ v :: b :: rest) with ((pre ++ [v]) ++ b :: rest)
    by (rewrite <- app_assoc; reflexivity).
  replace (length pre + 1)%nat with (length (pre ++ [v]))
    by (rewrite length_app; reflexivity).
  rewrite firstn_app, Nat.sub_diag, firstn_all, firstn_O, app_nil_r.
  replace (length (pre ++ [v]) + 1)%nat with (length ((pre ++ [v]) ++ [b]))
    by (rewrite length_app; reflexivity).
  replace ((pre ++ [v]) ++ b :: rest) with (((pre ++ [v]) ++ [b]) ++ rest)
    by (rewrite <- (app_assoc (pre ++ [v])); reflexivity).
  rewrite skipn_app, Nat.sub_diag, skipn_all, skipn_O.
  rewrite <- app_assoc. reflexivity.
Qed.

Lemma nth_after {A} (pre : list A) (a b d : A) (rest : list A) :
  nth (length pre + 1) (pre ++ a :: b :: rest) d = b.
Proof.
  replace (pre ++ a :: b :: rest) with ((pre ++ [a]) ++ b :: rest)
    by (rewrite <- app_assoc; reflexivity).
  replace (length pre + 1)%nat with (length (pre ++ [a]))
    by (rewrite length_app; reflexivity).
  apply nth_middle.
Qed.

(** ** The loop of [slideCombineRow] *)

(** One iteration of the loop, as the script writes it. *)
Lemma combineLoop_iter (i : nat) (arr : list Z) (gained : Z) (mi : list nat) :
  combineLoop i arr gained mi =
  if le_lt_dec (length arr - 1) i then (arr, mi, gained)
  else if nth i arr 0 =? nth (i + 1) arr 0 then
    combineLoop (S i)
      (splice (i + 1) 1 (assign i (nth i arr 0 * 2) arr))
      (gained + nth i (assign i (nth i arr 0 * 2) arr) 0) (mi ++ [i])
  else combineLoop (S i) arr gained mi.
Proof.
  rewrite combineLoop_equation_1.
  destruct (le_lt_dec (length arr - 1) i); cbn; [reflexivity|].
  destruct (nth i arr 0 =? nth (i + 1) arr 0); reflexivity.
Qed.

Lemma mergeScan_pair (idx : nat) (a b : Z) (tl : list Z) :
  mergeScan idx (a :: b :: tl) =
  if a =? b then
    let '(res, ms, g) := mergeScan (S idx) tl in
    (a * 2 :: res, idx :: ms, a * 2 + g)
  else
    let '(res, ms, g) := mergeScan (S idx) (b :: tl) in
    (a :: res, ms, g).
Proof. reflexivity. Qed.

(** The loop standing at index [length pre] on [pre ++ suf] finishes the
    line as the single left-to-right scan of [suf] does. *)
Lemma combineLoop_scan (n : nat) :
  forall (suf pre : list Z) (gained : Z) (mi : list nat),
    (length suf <= n)%nat ->
    combineLoop (length pre) (pre ++ suf) gained mi =
    let '(res, ms, g) := mergeScan (length pre) suf in
    (pre ++ res, mi ++ ms, gained + g).
Proof.
  induction n as [|n IH]; intros suf pre gained mi Hn.
  - destruct suf; [|simpl in Hn; lia].
    rewrite combineLoop_iter, app_nil_r.
    destruct (le_lt_dec (length pre - 1) (length pre)); [|lia].
    cbn. rewrite !app_nil_r, Z.add_0_r. reflexivity.
  - destruct suf as [|a [|b tl]].
    + rewrite combineLoop_iter, app_nil_r.
      destruct (le_lt_dec (length pre - 1) (length pre)); [|lia].
      cbn. rewrite !app_nil_r, Z.add_0_r. reflexivity.
    + rewrite combineLoop_iter.
      destruct (le_lt_dec (length (pre ++ [a]) - 1) (length pre)) as [_|Hlt];
        [|rewrite length_app in Hlt; simpl in Hlt; lia].
      cbn. rewrite app_nil_r, Z.add_0_r. reflexivity.
    + rewrite combineLoop_iter.
      destruct (le_lt_dec (length (pre ++ a :: b :: tl) - 1) (length pre)) as [Hle|_];
        [rewrite length_app in Hle; simpl in Hle; lia|].
      rewrite nth_middle, nth_after, mergeScan_pair.
      destruct (a =? b) eqn:Hab.
      * rewrite assign_middle, nth_middle, splice_after.
        specialize (IH tl (pre ++ [a * 2]) (gained + a * 2) (mi ++ [length pre])).
        replace (length (pre ++ [a * 2])) with (S (length pre)) in IH
          by (rewrite length_app; simpl; lia).
        replace (pre ++ a * 2 :: tl) with ((pre ++ [a * 2]) ++ tl)
          by (rewrite <- app_assoc; reflexivity).
        rewrite IH by (simpl in *; lia).
        destruct (mergeScan (S (length pre)) tl) as [[res ms] g].
        rewrite <- !app_assoc. cbn. f_equal. lia.
      * specialize (IH (b :: tl) (pre ++ [a]) gained mi).
        replace (length (pre ++ [a])) with (S (length pre)) in IH
          by (rewrite length_app; simpl; lia).
        replace (pre ++ a :: b :: tl) with ((pre ++ [a]) ++ b :: tl)
          by (rewrite <- app_assoc; reflexivity).
        rewrite IH by (simpl in *; lia).
        destruct (mergeScan (S (length pre)) (b :: tl)) as [[res ms] g].
        rewrite <- !app_assoc. reflexivity.
Qed.

(** [slideCombineRow] is compaction, one scan, and padding. *)
Lemma slideCombineRow_scan (row : list Z) :
  slideCombineRow row = compactAndMerge row.
Proof.
  unfold slideCombineRow, compactAndMerge, compact, padZeros.
  pose proof (combineLoop_scan _ (filter (fun v => negb (v =? 0)) row) [] 0 []
                (le_n _)) as H.
  cbn [length app] in H. rewrite H.
  destruct (mergeScan 0 _) as [[res ms] g]. cbn. reflexivity.
Qed.

(** ** The scan *)

(** Induction following the two recursive calls of [mergeScan]. *)
Lemma list_pair_ind (P : list Z -> Prop) :
  P [] ->
  (forall a, P [a]) ->
  (forall a b tl, P tl -> P (b :: tl) -> P (a :: b :: tl)) ->
  forall l, P l.
Proof.
  intros Hnil Hone Hstep.
  assert (H : forall l, P l /\ forall a, P (a :: l)).
  { induction l as [|b tl [IH1 IH2]]; split; auto. }
  intro l. apply H.
Qed.

Lemma mergeScan_length (l : list Z) :
  forall idx,
    (length (fst (fst (mergeScan idx l))) + length (snd (fst (mergeScan idx l)))
     = length l)%nat.
Proof.
  induction l as [| a | a b tl IH1 IH2] using list_pair_ind; intro idx;
    try reflexivity.
  rewrite mergeScan_pair. destruct (a =? b).
  - specialize (IH1 (S idx)). destruct (mergeScan (S idx) tl) as [[res ms] g].
    cbn in *. lia.
  - specialize (IH2 (S idx)).
    destruct (mergeScan (S idx) (b :: tl)) as [[res ms] g].
    cbn in *. lia.
Qed.

Lemma mergeScan_sum (l : list Z) :
  forall idx, sumList (fst (fst (mergeScan idx l))) = sumList l.
Proof.
  induction l as [| a | a b tl IH1 IH2] using list_pair_ind; intro idx;
    try reflexivity.
  rewrite mergeScan_pair. destruct (Z.eqb_spec a b) as [Hab|Hab].
  - specialize (IH1 (S idx)). destruct (mergeScan (S idx) tl) as [[res ms] g].
    unfold sumList in *. cbn in *. lia.
  - specialize (IH2 (S idx)).
    destruct (mergeScan (S idx) (b :: tl)) as [[res ms] g].
    unfold sumList in *. cbn in *. lia.
Qed.

(** A scan that merges nothing returns its input and gains nothing. *)
Lemma mergeScan_no_merge (l : list Z) :
  forall idx, snd (fst (mergeScan idx l)) = [] ->
              mergeScan idx l = (l, [], 0).
Proof.
  induction l as [| a | a b tl IH1 IH2] using list_pair_ind; intros idx H;
    try reflexivity.
  rewrite mergeScan_pair in *. destruct (a =? b).
  - destruct (mergeScan (S idx) tl) as [[res ms] g]. cbn in H. discriminate.
  - specialize (IH2 (S idx)).
    destruct (mergeScan (S idx) (b :: tl)) as [[res ms] g].
    cbn in *. subst ms. specialize (IH2 eq_refl). congruence.
Qed.

Lemma mergeScan_Forall (P : Z -> Prop) (l : list Z) :
  (forall v, P v -> P (v * 2)) ->
  Forall P l -> forall idx, Forall P (fst (fst (mergeScan idx l))).
Proof.
  intros Hdbl.
  induction l as [| a | a b tl IH1 IH2] using list_pair_ind; intros Hl idx;
    try assumption.
  rewrite mergeScan_pair.
  inversion Hl as [|? ? Ha Hl']; subst. inversion Hl' as [|? ? Hb Htl]; subst.
  destruct (a =? b).
  - specialize (IH1 Htl (S idx)).
    destruct (mergeScan (S idx) tl) as [[res ms] g]. cbn in *. auto.
  - specialize (IH2 Hl' (S idx)).
    destruct (mergeScan (S idx) (b :: tl)) as [[res ms] g]. cbn in *. auto.
Qed.

(** Every recorded index is a place of the scanned output, and what was
    gained is the sum of the output entries at the recorded indices. *)
Lemma mergeScan_indices (l : list Z) :
  forall idx,
    Forall (fun i => (idx <= i < idx + length (fst (fst (mergeScan idx l))))%nat)
           (snd (fst (mergeScan idx l)))
    /\ snd (mergeScan idx l)
       = sumList (map (fun i => nth (i - idx) (fst (fst (mergeScan idx l))) 0)
                      (snd (fst (mergeScan idx l)))).
Proof.
  assert (Hshift : forall idx (x : Z) res ms,
             Forall (fun i => (S idx <= i < S idx + length res)%nat) ms ->
             map (fun i => nth (i - idx) (x :: res) 0) ms
             = map (fun i => nth (i - S idx) res 0) ms).
  { intros idx x res ms Hidx. apply map_ext_in. intros i Hi.
    rewrite Forall_forall in Hidx. specialize (Hidx i Hi). cbv beta in Hidx.
    replace (i - idx)%nat with (S (i - S idx)) by lia. reflexivity. }
  induction l as [| a | a b tl IH1 IH2] using list_pair_ind; intro idx;
    try (split; [constructor|reflexivity]).
  rewrite mergeScan_pair. destruct (a =? b).
  - specialize (IH1 (S idx)). destruct (mergeScan (S idx) tl) as [[res ms] g].
    cbn [fst snd length] in *. destruct IH1 as [Hidx Hg]. split.
    + constructor; [lia|]. eapply Forall_impl; [|exact Hidx]. cbv beta. lia.
    + cbn [map]. rewrite (Hshift _ _ _ _ Hidx), Nat.sub_diag.
      unfold sumList in *. cbn [nth fold_right]. lia.
  - specialize (IH2 (S idx)).
    destruct (mergeScan (S idx) (b :: tl)) as [[res ms] g].
    cbn [fst snd length] in *. destruct IH2 as [Hidx Hg]. split.
    + eapply Forall_impl; [|exact Hidx]. cbv beta. lia.
    + rewrite (Hshift _ _ _ _ Hidx). exact Hg.
Qed.

(** On a line without equal non-zero neighbours the scan finds nothing. *)
Lemma mergeScan_fixed (l : list Z) :
  Forall (fun v => v <> 0) l -> noAdjacentEqual l = true ->
  forall idx, mergeScan idx l = (l, [], 0).
Proof.
  induction l as [| a | a b tl IH1 IH2] using list_pair_ind; intros Hnz Hadj idx;
    try reflexivity.
  rewrite mergeScan_pair.
  inversion Hnz as [|? ? Ha Hnz']; subst.
  cbn [noAdjacentEqual] in Hadj. apply andb_prop in Hadj as [H1 H2].
  destruct (Z.eqb_spec a b) as [Hab|Hab].
  - destruct (Z.eqb_spec a 0); [contradiction|discriminate].
  - rewrite (IH2 Hnz' H2). reflexivity.
Qed.

(** ** Compaction *)

Lemma compact_nonzero (l : list Z) : Forall (fun v => v <> 0) (compact l).
Proof.
  apply Forall_forall. intros v Hv. apply filter_In in Hv as [_ Hv].
  destruct (Z.eqb_spec v 0); [discriminate|assumption].
Qed.

Lemma compact_sum (l : list Z) : sumList (compact l) = sumList l.
Proof.
  induction l as [|a l IH]; [reflexivity|].
  unfold compact in *. cbn [filter].
  destruct (Z.eqb_spec a 0); unfold sumList in *; cbn; lia.
Qed.

Lemma compact_length (l : list Z) : (length (compact l) <= length l)%nat.
Proof. apply filter_length_le. Qed.

Lemma compact_full (l : list Z) : length (compact l) = length l -> compact l = l.
Proof.
  induction l as [|a l IH]; [reflexivity|].
  cbn. pose proof (compact_length l) as Hle. unfold compact in *.
  destruct (negb (a =? 0)); cbn; intro H.
  - f_equal. apply IH. lia.
  - lia.
Qed.

Lemma compact_Forall (P : Z -> Prop) (l : list Z) :
  Forall P l -> Forall P (compact l).
Proof.
  intro H. apply Forall_forall. intros v Hv. apply filter_In in Hv as [Hv _].
  revert v Hv. apply Forall_forall. assumption.
Qed.

Lemma compact_app_zeros (l : list Z) (n : nat) :
  Forall (fun v => v <> 0) l -> compact (l ++ repeat 0 n) = l.
Proof.
  intro Hnz. unfold compact. rewrite filter_app.
  replace (filter (fun v => negb (v =? 0)) (repeat 0 n)) with (@nil Z).
  - rewrite app_nil_r. induction Hnz as [|a l Ha _ IH]; [reflexivity|].
    cbn. destruct (Z.eqb_spec a 0); [contradiction|]. cbn. f_equal. exact IH.
  - induction n; [reflexivity|assumption].
Qed.

Lemma sumList_app (a b : list Z) : sumList (a ++ b) = sumList a + sumList b.
Proof.
  induction a as [|x a IH]; [reflexivity|].
  unfold sumList in *. cbn. lia.
Qed.

Lemma sumList_zeros (n : nat) : sumList (repeat 0 n) = 0.
Proof. induction n as [|n IH]; [reflexivity|]. unfold sumList in *. cbn. lia. Qed.

Lemma sumList_rev (l : list Z) : sumList (rev l) = sumList l.
Proof.
  induction l as [|x l IH]; [reflexivity|].
  cbn [rev]. rewrite sumList_app, IH. unfold sumList. cbn. lia.
Qed.

(** ** [JSON.stringify] tells rows apart *)

Lemma append_assoc_string (a b c : string) :
  ((a ++ b) ++ c)%string = (a ++ (b ++ c))%string.
Proof. induction a as [|ch a IH]; cbn; [reflexivity|]. rewrite IH. reflexivity. Qed.

Lemma uint_delimFree (d : Decimal.uint) :
  delimFree (NilEmpty.string_of_uint d) = true.
Proof. induction d; cbn; auto. Qed.

Lemma numberToString_delimFree (v : Z) : delimFree (numberToString v) = true.
Proof.
  unfold numberToString. destruct (Z.to_int v); cbn; apply uint_delimFree.
Qed.

Lemma numberToString_nonempty (v : Z) : numberToString v <> EmptyString.
Proof.
  unfold numberToString. destruct v as [|p|p]; cbn; try discriminate.
  pose proof (DecimalPos.Unsigned.to_uint_nonnil p) as H.
  destruct (Pos.to_uint p); cbn; try discriminate. contradiction.
Qed.

Lemma numberToString_inj (a b : Z) : numberToString a = numberToString b -> a = b.
Proof.
  unfold numberToString. intro H. apply DecimalZ.to_int_inj.
  assert (Hs : Some (Z.to_int a) = Some (Z.to_int b))
    by (rewrite <- !NilEmpty.isi, H; reflexivity).
  congruence.
Qed.

(** Two delimiter-free prefixes followed by a delimiter split alike. *)
Lemma delim_split (x : string) :
  forall (y : string) (d1 d2 : ascii) (r1 r2 : string),
    delimFree x = true -> delimFree y = true ->
    isDelim d1 = true -> isDelim d2 = true ->
    (x ++ String d1 r1)%string = (y ++ String d2 r2)%string ->
    x = y /\ d1 = d2 /\ r1 = r2.
Proof.
  induction x as [|ch x IH]; intros [|ch' y] d1 d2 r1 r2 Hx Hy H1 H2 Heq;
    cbn in *.
  - injection Heq as -> ->. auto.
  - injection Heq as -> _. rewrite H1 in Hy. discriminate.
  - injection Heq as -> _. rewrite H2 in Hx. discriminate.
  - injection Heq as -> Heq.
    apply andb_prop in Hx as [_ Hx]. apply andb_prop in Hy as [_ Hy].
    destruct (IH y d1 d2 r1 r2 Hx Hy H1 H2 Heq) as (-> & -> & ->). auto.
Qed.

Lemma joinComma_close (x : string) (tl : list string) :
  (joinComma (x :: tl) ++ String "]" EmptyString)%string =
  (x ++ match tl with
        | [] => String "]" EmptyString
        | _ :: _ => String "," (joinComma tl ++ String "]" EmptyString)
        end)%string.
Proof.
  destruct tl as [|y tl]; [reflexivity|].
  cbn [joinComma]. rewrite append_assoc_string. reflexivity.
Qed.

Lemma JSON_body_inj (a : list Z) :
  forall b : list Z,
    (joinComma (map numberToString a) ++ String "]" EmptyString)%string =
    (joinComma (map numberToString b) ++ String "]" EmptyString)%string ->
    a = b.
Proof.
  induction a as [|x a IH]; intros [|y b] H.
  - reflexivity.
  - exfalso. cbn [map] in H. rewrite joinComma_close in H.
    pose proof (numberToString_nonempty y) as Hy.
    pose proof (numberToString_delimFree y) as Hf.
    destruct (numberToString y) as [|ch s]; [contradiction|].
    cbn in H, Hf. injection H as Hc _. subst ch. cbn in Hf. discriminate.
  - exfalso. cbn [map] in H. rewrite joinComma_close in H.
    pose proof (numberToString_nonempty x) as Hx.
    pose proof (numberToString_delimFree x) as Hf.
    destruct (numberToString x) as [|ch s]; [contradiction|].
    cbn in H, Hf. injection H as Hc _. subst ch. cbn in Hf. discriminate.
  - cbn [map] in H. rewrite !joinComma_close in H.
    destruct a as [|x' a]; destruct b as [|y' b]; cbn [map] in H;
      apply delim_split in H;
      try apply numberToString_delimFree; try reflexivity;
      destruct H as (Hxy & Hd & Hr); try discriminate;
      apply numberToString_inj in Hxy; subst y.
    + reflexivity.
    + f_equal. apply IH. exact Hr.
Qed.

Lemma JSON_stringify_inj (a b : list Z) :
  JSON_stringify a = JSON_stringify b -> a = b.
Proof.
  unfold JSON_stringify. intro H. injection H as H. apply JSON_body_inj. exact H.
Qed.

Lemma rowsDiffer_false (a b : list Z) : rowsDiffer a b = false <-> a = b.
Proof.
  unfold rowsDiffer. rewrite negb_false_iff, String.eqb_eq. split.
  - apply JSON_stringify_inj.
  - intros ->. reflexivity.
Qed.

(** ** [slideCombineRow] on one line *)

Lemma tileValue_double (v : Z) : tileValue v -> tileValue (v * 2).
Proof.
  intros [->|(k & Hk & ->)]; [left; reflexivity|].
  right. exists (k + 1). split; [lia|].
  rewrite Z.pow_add_r by lia. reflexivity.
Qed.

(** The output is the merged line followed by zeros; the merged line has
    no zero and, with the merges, accounts for every non-zero entry. *)
Lemma slideCombineRow_parts (row : list Z) :
  exists (res : list Z) (ms : list nat) (g : Z),
    mergeScan 0 (compact row) = (res, ms, g)
    /\ slideCombineRow row = (res ++ repeat 0 (SIZE - length res), ms, g)
    /\ Forall (fun v => v <> 0) res
    /\ (length res + length ms = length (compact row))%nat.
Proof.
  rewrite slideCombineRow_scan. unfold compactAndMerge.
  pose proof (mergeScan_length (compact row) 0) as Hlen.
  pose proof (mergeScan_Forall (fun v => v <> 0) (compact row)
                ltac:(cbv beta; intros; lia) (compact_nonzero row) 0) as Hnz.
  destruct (mergeScan 0 (compact row)) as [[res ms] g]. cbn in *.
  exists res, ms, g. auto.
Qed.

(** The recorded indices point into the output line, and [gained] is the
    sum of the output entries they point at. *)
Lemma slideCombineRow_gained (row : list Z) :
  Forall (fun i => (i < length (fst (fst (slideCombineRow row))))%nat)
         (snd (fst (slideCombineRow row)))
  /\ snd (slideCombineRow row)
     = sumList (map (fun i => nth i (fst (fst (slideCombineRow row))) 0)
                    (snd (fst (slideCombineRow row)))).
Proof.
  destruct (slideCombineRow_parts row) as (res & ms & g & Hscan & -> & _ & _).
  pose proof (mergeScan_indices (compact row) 0) as [Hidx Hg].
  rewrite Hscan in Hidx, Hg. cbn [fst snd] in *. split.
  - eapply Forall_impl; [|exact Hidx]. cbv beta. intros i Hi.
    rewrite length_app. lia.
  - rewrite Hg. f_equal. apply map_ext_in. intros i Hi.
    rewrite Forall_forall in Hidx. specialize (Hidx i Hi). cbv beta in Hidx.
    rewrite Nat.sub_0_r, app_nth1 by lia. reflexivity.
Qed.

Lemma In_zero_repeat (n : nat) : (0 < n)%nat -> In 0 (repeat 0 n).
Proof. destruct n; [lia|]. intros _. left. reflexivity. Qed.

Lemma slideCombineRow_lineOK : lineOK slideCombineRow.
Proof.
  intros l Hl.
  destruct (slideCombineRow_parts l) as (res & ms & g & Hscan & -> & Hnz & Hlen).
  pose proof (compact_length l) as Hcl. unfold SIZE in *.
  assert (Hsame : res ++ repeat 0 (SIZE - length res) = l -> ms = [] /\ g = 0).
  { intro Heq. unfold SIZE in *.
    assert (Hc : compact l = res) by (rewrite <- Heq at 1; apply compact_app_zeros, Hnz).
    rewrite Hc in Hlen. destruct ms; [|simpl in Hlen; lia].
    pose proof (mergeScan_no_merge (compact l) 0) as Hno.
    rewrite Hscan in Hno. specialize (Hno eq_refl). split; congruence. }
  assert (Hdiff : res ++ repeat 0 (SIZE - length res) <> l ->
                  In 0 (res ++ repeat 0 (SIZE - length res))).
  { intro Hne. apply in_or_app. right. apply In_zero_repeat. unfold SIZE in *.
    destruct (Nat.lt_ge_cases (length res) 4) as [Hlt|Hge]; [lia|].
    exfalso. apply Hne.
    assert (Hms : ms = []) by (destruct ms; [reflexivity|simpl in Hlen; lia]).
    subst ms. simpl in Hlen.
    pose proof (mergeScan_no_merge (compact l) 0) as Hno.
    rewrite Hscan in Hno. specialize (Hno eq_refl).
    assert (Hres : res = compact l) by congruence.
    rewrite Hres, compact_full by lia.
    replace (4 - length l)%nat with 0%nat by lia. apply app_nil_r. }
  unfold SIZE in *. repeat split.
  - rewrite length_app, repeat_length. lia.
  - rewrite sumList_app, sumList_zeros, Z.add_0_r.
    pose proof (mergeScan_sum (compact l) 0) as Hs. rewrite Hscan in Hs.
    cbn [fst] in Hs. rewrite Hs. apply compact_sum.
  - intro Ht. apply Forall_app. split.
    + pose proof (mergeScan_Forall tileValue (compact l) tileValue_double
                    (compact_Forall _ _ Ht) 0) as Hm.
      rewrite Hscan in Hm. exact Hm.
    + apply Forall_forall. intros v Hv. apply repeat_spec in Hv. subst v.
      left. reflexivity.
  - apply Hsame; assumption.
  - apply Hsame; assumption.
  - exact Hdiff.
  - intro Hz.
    destruct (list_eq_dec Z.eq_dec (res ++ repeat 0 (4 - length res)) l)
      as [Heq|Hne]; [rewrite Heq; exact Hz|exact (Hdiff Hne)].
Qed.

Lemma slideReversed_lineOK : lineOK slideReversed.
Proof.
  intros l Hl. unfold slideReversed.
  pose proof (slideCombineRow_lineOK (rev l)) as H.
  rewrite length_rev in H. specialize (H Hl).
  destruct (slideCombineRow (rev l)) as [[out ms] g].
  destruct H as (Hlen & Hsum & Htile & Hsame & Hdiff & Hzero).
  repeat split.
  - rewrite length_rev. exact Hlen.
  - rewrite sumList_rev, Hsum. apply sumList_rev.
  - intro Ht. apply Forall_rev, Htile, Forall_rev, Ht.
  - apply Hsame. rewrite <- H. symmetry. apply rev_involutive.
  - apply Hsame. rewrite <- H. symmetry. apply rev_involutive.
  - intro Hne. apply in_rev. rewrite rev_involutive. apply Hdiff.
    intro Heq. apply Hne. rewrite Heq. apply rev_involutive.
  - intro Hz. apply in_rev. rewrite rev_involutive. apply Hzero.
    apply in_rev in Hz. exact Hz.
Qed.

(** ** Boards of four by four *)

Lemma length4_inv {A} (l : list A) :
  length l = 4%nat -> exists a b c d, l = [a; b; c; d].
Proof.
  destruct l as [|a [|b [|c [|d [|e l]]]]]; try discriminate.
  intros _. exists a, b, c, d. reflexivity.
Qed.

Lemma grid_ok_inv (g : Grid) :
  grid_ok g = true ->
  exists a00 a01 a02 a03 a10 a11 a12 a13 a20 a21 a22 a23 a30 a31 a32 a33,
    g = [[a00; a01; a02; a03]; [a10; a11; a12; a13];
         [a20; a21; a22; a23]; [a30; a31; a32; a33]].
Proof.
  unfold grid_ok, SIZE. intro H. apply andb_prop in H as [Hlen Hrows].
  apply Nat.eqb_eq in Hlen.
  destruct (length4_inv g Hlen) as (r0 & r1 & r2 & r3 & ->).
  cbn in Hrows.
  repeat (apply andb_prop in Hrows as [?H Hrows]).
  repeat match goal with
         | H : (length ?r =? 4)%nat = true |- _ =>
             apply Nat.eqb_eq in H; apply length4_inv in H;
             destruct H as (? & ? & ? & ? & ->)
         end.
  repeat eexists.
Qed.

Ltac splits := repeat match goal with |- _ /\ _ => split end.

Ltac fields :=
  cbn [fst snd grid score lastGrid lastScore lastAddedPos mergedMap gameOver
       gameWon bestScore message set_grid set_score set_undo set_lastAddedPos
       set_mergedMap set_gameOver set_gameWon set_bestScore set_message
       pos_r pos_c] in *.

Ltac grid_cells H :=
  apply grid_ok_inv in H;
  destruct H as (?a & ?a & ?a & ?a & ?a & ?a & ?a & ?a
                 & ?a & ?a & ?a & ?a & ?a & ?a & ?a & ?a & ->).

Ltac index4 i H :=
  unfold SIZE in H;
  destruct i as [|[|[|[|i]]]]; [ | | | | exfalso; lia ].

Ltac line4 l H :=
  apply length4_inv in H; destruct H as (?x & ?x & ?x & ?x & ->).

Ltac pick_eq H := repeat (first [left; exact H | right]).

Ltac empty_cell Hzero :=
  let H := fresh "H" in
  intro H; decompose [or] H; try contradiction;
  first
    [ solve [match goal with E : _ = 0 |- _ => solve [pick_eq E] end]
    | match type of Hzero with
      | ?P -> _ =>
          let Hz := fresh "Hz" in
          assert (Hz : P)
            by (match goal with E : _ = 0 |- _ => solve [pick_eq E] end);
          apply Hzero in Hz; decompose [or] Hz; try contradiction;
          match goal with E : _ = 0 |- _ => solve [pick_eq E] end
      end ].

Ltac line_facts op Hop :=
  match goal with
  | |- context [op ?row] =>
      let H := fresh "H" in
      pose proof (Hop row eq_refl) as H;
      destruct (op row) as [[?out ?ms] ?gn];
      destruct H as (?Hlen & ?Hsum & ?Htile & ?Hsame & ?Hdiff & ?Hzero)
  end.

Lemma rowStep_OK (op : LineOp) (mark : nat -> nat -> nat * nat) :
  lineOK op -> stepOK (rowStep op mark).
Proof.
  intros Hop g mm moved total i Hg Hi.
  grid_cells Hg. index4 i Hi; unfold rowStep; cbn [nth].
  all: line_facts op Hop; pose proof Hlen as Hlen'; line4 out Hlen'.
  all: unfold gridSum, tilesOnly, hasEmpty, sumList in *;
    cbn [assign length Nat.ltb Nat.leb firstn skipn app concat fold_right In] in *;
    repeat rewrite Forall_cons_iff in *.
  all: split; [reflexivity|]; split; [lia|]; split; [tauto|].
  all: split;
    [ intro Hm; destruct (rowsDiffer _ _) eqn:Hd; [discriminate|];
      apply rowsDiffer_false in Hd; symmetry in Hd;
      destruct (Hsame Hd) as [-> ->]; injection Hd as -> -> -> ->;
      cbn; repeat split; try reflexivity; try assumption; lia | ].
  all: split; [ intros ->; destruct (rowsDiffer _ _); reflexivity | ].
  all: split; [ empty_cell Hzero | ].
  all: intro Hm; destruct (rowsDiffer _ _) eqn:Hd; [right|left; exact Hm].
  all: match type of Hdiff with
       | ?o <> ?r -> _ =>
           assert (Hne : o <> r)
             by (intro Heq; symmetry in Heq; apply rowsDiffer_false in Heq;
                 rewrite Heq in Hd; discriminate)
       end; specialize (Hdiff Hne); tauto.
Qed.

Lemma colStep_OK (op : LineOp) (mark : nat -> nat -> nat * nat) :
  lineOK op -> stepOK (colStep op mark).
Proof.
  intros Hop g mm moved total i Hg Hi.
  grid_cells Hg. index4 i Hi; unfold colStep, column, cell; cbn [nth map seq SIZE].
  all: line_facts op Hop; pose proof Hlen as Hlen'; line4 out Hlen'.
  all: unfold writeColumn, setCell, cell, gridSum, tilesOnly, hasEmpty, sumList in *;
    cbn [assign length Nat.ltb Nat.leb firstn skipn app concat fold_right
         fold_left seq SIZE nth In] in *;
    repeat rewrite Forall_cons_iff in *.
  all: split; [reflexivity|]; split; [lia|]; split; [tauto|].
  all: split;
    [ intro Hm;
      repeat match type of Hm with
             | context [?u =? ?v] => destruct (Z.eqb_spec u v); [|discriminate]
             end;
      subst; destruct (Hsame eq_refl) as [-> ->];
      cbn; repeat split; try reflexivity; try assumption; lia | ].
  all: split;
    [ intros ->;
      repeat match goal with
             | |- context [?u =? ?v] => destruct (u =? v)
             end; reflexivity | ].
  all: split; [ empty_cell Hzero | ].
  all: intro Hm.
  all: repeat match type of Hm with
              | context [?u =? ?v] => destruct (Z.eqb_spec u v)
              end;
    try (left; exact Hm).
  all: right;
    match type of Hdiff with
    | ?o <> ?r -> _ => assert (Hne : o <> r) by congruence
    end; specialize (Hdiff Hne); tauto.
Qed.

(** ** The four loop bodies *)

Lemma leftStep_shape (acc : Acc) (r : nat) :
  leftStep acc r = rowStep slideCombineRow (fun r ci => (r, ci)) acc r.
Proof. destruct acc as [[[g mm] moved] total]. reflexivity. Qed.

Lemma rightStep_shape (acc : Acc) (r : nat) :
  rightStep acc r
  = rowStep slideReversed (fun r idx => (r, (SIZE - 1 - idx)%nat)) acc r.
Proof.
  destruct acc as [[[g mm] moved] total]. unfold rightStep, rowStep, slideReversed.
  destruct (slideCombineRow (rev (nth r g []))) as [[newRow mi] gained].
  reflexivity.
Qed.

Lemma upStep_shape (acc : Acc) (c : nat) :
  upStep acc c = colStep slideCombineRow (fun c ridx => (ridx, c)) acc c.
Proof. destruct acc as [[[g mm] moved] total]. reflexivity. Qed.

Lemma downStep_shape (acc : Acc) (c : nat) :
  downStep acc c
  = colStep slideReversed (fun c idx => ((SIZE - 1 - idx)%nat, c)) acc c.
Proof.
  destruct acc as [[[g mm] moved] total]. unfold downStep, colStep, slideReversed.
  destruct (slideCombineRow (rev (column g c))) as [[newRow mi] gained].
  reflexivity.
Qed.

Lemma leftStep_OK : stepOK leftStep.
Proof.
  intros g mm moved total i Hg Hi. rewrite leftStep_shape.
  exact (rowStep_OK _ _ slideCombineRow_lineOK g mm moved total i Hg Hi).
Qed.

Lemma rightStep_OK : stepOK rightStep.
Proof.
  intros g mm moved total i Hg Hi. rewrite rightStep_shape.
  exact (rowStep_OK _ _ slideReversed_lineOK g mm moved total i Hg Hi).
Qed.

Lemma upStep_OK : stepOK upStep.
Proof.
  intros g mm moved total i Hg Hi. rewrite upStep_shape.
  exact (colStep_OK _ _ slideCombineRow_lineOK g mm moved total i Hg Hi).
Qed.

Lemma downStep_OK : stepOK downStep.
Proof.
  intros g mm moved total i Hg Hi. rewrite downStep_shape.
  exact (colStep_OK _ _ slideReversed_lineOK g mm moved total i Hg Hi).
Qed.

(** ** A whole loop *)

Lemma fold_steps_OK (step : Acc -> nat -> Acc) (Hstep : stepOK step)
    (idxs : list nat) :
  Forall (fun i => (i < SIZE)%nat) idxs ->
  forall (g : Grid) (mm : list (nat * nat)) (moved : bool) (total : Z),
    grid_ok g = true ->
    (moved = true -> hasEmpty g) ->
    let '(g', mm', moved', total') := fold_left step idxs (g, mm, moved, total) in
    grid_ok g' = true
    /\ gridSum g' = gridSum g
    /\ (tilesOnly g -> tilesOnly g')
    /\ (moved' = false -> moved = false /\ g' = g /\ mm' = mm /\ total' = total)
    /\ (moved' = true -> hasEmpty g').
Proof.
  induction 1 as [|i idxs Hi _ IH]; intros g mm moved total Hg Hme.
  - cbn. repeat split; auto.
  - cbn [fold_left].
    pose proof (Hstep g mm moved total i Hg Hi) as H1.
    destruct (step (g, mm, moved, total) i) as [[[g1 mm1] moved1] total1].
    destruct H1 as (Hg1 & Hs1 & Ht1 & Hu1 & Hmono & He1 & Hm1).
    assert (Hme1 : moved1 = true -> hasEmpty g1).
    { intro Hm. destruct (Hm1 Hm) as [Hmv|He]; [apply He1, Hme, Hmv|exact He]. }
    specialize (IH g1 mm1 moved1 total1 Hg1 Hme1).
    destruct (fold_left step idxs (g1, mm1, moved1, total1))
      as [[[g2 mm2] moved2] total2].
    destruct IH as (Hg2 & Hs2 & Ht2 & Hu2 & Hm2).
    split; [exact Hg2|]. split; [congruence|]. split; [auto|].
    split; [|exact Hm2].
    intro Hm. destruct (Hu2 Hm) as (Ha & Hb & Hc & Hd).
    destruct (Hu1 Ha) as (Ha' & Hb' & Hc' & Hd').
    repeat split; congruence.
Qed.

Lemma loop_indices : Forall (fun i => (i < SIZE)%nat) (seq 0 SIZE).
Proof. apply Forall_forall. intros i Hi. apply in_seq in Hi. lia. Qed.

(** ** Score display leaves the game alone *)

Ltac score_frame :=
  intros; unfold bumpScore, render, updateScoreDisplay; cbn;
  repeat match goal with |- context [if ?b then _ else _] => destruct b end;
  reflexivity.

Lemma updateScoreDisplay_frame (s : State) :
  grid (updateScoreDisplay s) = grid s
  /\ score (updateScoreDisplay s) = score s
  /\ lastGrid (updateScoreDisplay s) = lastGrid s
  /\ lastScore (updateScoreDisplay s) = lastScore s
  /\ lastAddedPos (updateScoreDisplay s) = lastAddedPos s
  /\ mergedMap (updateScoreDisplay s) = mergedMap s
  /\ gameOver (updateScoreDisplay s) = gameOver s
  /\ gameWon (updateScoreDisplay s) = gameWon s
  /\ message (updateScoreDisplay s) = message s.
Proof. repeat split; score_frame. Qed.

Lemma bumpScore_frame (t : Z) (s : State) :
  grid (bumpScore t s) = grid s
  /\ score (bumpScore t s) = score s + t
  /\ lastGrid (bumpScore t s) = lastGrid s
  /\ lastScore (bumpScore t s) = lastScore s
  /\ lastAddedPos (bumpScore t s) = lastAddedPos s
  /\ mergedMap (bumpScore t s) = mergedMap s
  /\ gameOver (bumpScore t s) = gameOver s
  /\ gameWon (bumpScore t s) = gameWon s
  /\ message (bumpScore t s) = message s.
Proof. repeat split; score_frame. Qed.

(** ** One core move *)

Lemma moveCore_OK (step : Acc -> nat -> Acc) (s : State) :
  stepOK step -> grid_ok (grid s) = true -> coreOK s (moveCore step s).
Proof.
  intros Hstep Hg. unfold moveCore.
  pose proof (fold_steps_OK step Hstep (seq 0 SIZE) loop_indices
                (grid s) [] false 0 Hg ltac:(discriminate)) as H.
  destruct (fold_left step (seq 0 SIZE) (grid s, [], false, 0))
    as [[[g mm] moved] total].
  destruct H as (Hg' & Hsum & Htile & Hsame & Hempty).
  unfold coreOK.
  destruct (0 <? total) eqn:Ht.
  - destruct (bumpScore_frame total (set_mergedMap mm (set_grid g s)))
      as (-> & _ & -> & -> & -> & _ & -> & -> & _).
    cbn. repeat split; auto.
    intro Hm. destruct (Hsame Hm) as (_ & _ & _ & ->). discriminate.
  - cbn. repeat split; auto.
    intro Hm. destruct (Hsame Hm) as (_ & -> & -> & _).
    destruct s; reflexivity.
Qed.

(** ** Dispatch on the direction *)

Lemma dispatch_cases (direction : string) (s : State) :
  (validDirection direction = true
   /\ exists step, In step [leftStep; rightStep; upStep; downStep]
                   /\ dispatch direction s = moveCore step s)
  \/ (validDirection direction = false /\ dispatch direction s = (false, s)).
Proof.
  unfold dispatch, validDirection.
  destruct (String.eqb_spec direction "left") as [->|Hl];
    [left; split; [reflexivity|]; exists leftStep; split; [cbn; tauto|reflexivity]|].
  destruct (String.eqb_spec direction "right") as [->|Hr];
    [left; split; [reflexivity|]; exists rightStep; split; [cbn; tauto|reflexivity]|].
  destruct (String.eqb_spec direction "up") as [->|Hu];
    [left; split; [reflexivity|]; exists upStep; split; [cbn; tauto|reflexivity]|].
  destruct (String.eqb_spec direction "down") as [->|Hd];
    [left; split; [reflexivity|]; exists downStep; split; [cbn; tauto|reflexivity]|].
  right. split; reflexivity.
Qed.

Lemma dispatch_OK (direction : string) (s : State) :
  grid_ok (grid s) = true -> coreOK s (dispatch direction s).
Proof.
  intro Hg.
  destruct (dispatch_cases direction s) as [(_ & step & Hin & ->)|(_ & ->)].
  - apply moveCore_OK; [|exact Hg].
    cbn in Hin. destruct Hin as [<-|[<-|[<-|[<-|[]]]]].
    + exact leftStep_OK.
    + exact rightStep_OK.
    + exact upStep_OK.
    + exact downStep_OK.
  - unfold coreOK. repeat split; auto. discriminate.
Qed.

(** ** Cells *)

Lemma nth_assign {A} (i j : nat) (v d : A) (l : list A) :
  nth j (assign i v l) d
  = if ((j =? i) && (i <? length l))%nat then v else nth j l d.
Proof.
  unfold assign. destruct (Nat.ltb_spec i (length l)) as [Hi|Hi].
  - rewrite andb_true_r. destruct (Nat.eqb_spec j i) as [->|Hne].
    + rewrite app_nth2 by (rewrite length_firstn; lia).
      rewrite length_firstn. replace (i - Nat.min i (length l))%nat with 0%nat by lia.
      reflexivity.
    + rewrite <- (firstn_skipn i l) at 3.
      destruct (Nat.lt_ge_cases j i) as [Hlt|Hge].
      * rewrite !app_nth1 by (rewrite length_firstn; lia). reflexivity.
      * rewrite !app_nth2 by (rewrite length_firstn; lia).
        rewrite length_firstn. replace (Nat.min i (length l)) with i by lia.
        destruct (j - i)%nat as [|k] eqn:Hk; [lia|]. cbn [nth].
        rewrite <- (firstn_skipn 1 (skipn i l)), skipn_skipn.
        replace (1 + i)%nat with (S i) by lia.
        rewrite app_nth2; rewrite length_firstn, length_skipn.
        -- replace (Nat.min 1 (length l - i)) with 1%nat by lia.
           replace (S k - 1)%nat with k by lia. reflexivity.
        -- lia.
  - rewrite andb_false_r. reflexivity.
Qed.

Lemma length_assign {A} (i : nat) (v : A) (l : list A) :
  length (assign i v l) = length l.
Proof.
  unfold assign. destruct (Nat.ltb_spec i (length l)) as [Hi|Hi]; [|reflexivity].
  rewrite length_app, length_firstn. cbn [length]. rewrite length_skipn. lia.
Qed.

Lemma grid_ok_rows (g : Grid) :
  grid_ok g = true ->
  length g = SIZE /\ forall row, In row g -> length row = SIZE.
Proof.
  unfold grid_ok. intro H. apply andb_prop in H as [Hl Hr].
  apply Nat.eqb_eq in Hl. split; [exact Hl|].
  intros row Hin. rewrite forallb_forall in Hr. apply Nat.eqb_eq, Hr, Hin.
Qed.

(** Reading the board after [grid[r][c] = v]. *)
Lemma cell_setCell (g : Grid) (r c r' c' : nat) (v : Z) :
  grid_ok g = true -> (r < SIZE)%nat -> (c < SIZE)%nat ->
  cell (setCell r c v g) r' c'
  = if ((r' =? r) && (c' =? c))%nat then v else cell g r' c'.
Proof.
  intros Hg Hr Hc. destruct (grid_ok_rows g Hg) as [Hlen Hrows].
  unfold cell, setCell. rewrite nth_assign.
  assert (Hrl : (r <? length g)%nat = true) by (apply Nat.ltb_lt; lia).
  rewrite Hrl, andb_true_r.
  destruct (Nat.eqb_spec r' r) as [->|Hne]; cbn [andb]; [|reflexivity].
  rewrite nth_assign.
  assert (Hcl : (c <? length (nth r g []))%nat = true).
  { apply Nat.ltb_lt. rewrite (Hrows (nth r g [])); [exact Hc|apply nth_In; lia]. }
  rewrite Hcl, andb_true_r. reflexivity.
Qed.

(** Placing a tile on an empty cell. *)
Lemma setCell_empty (g : Grid) (r c : nat) (v : Z) :
  grid_ok g = true -> (r < SIZE)%nat -> (c < SIZE)%nat -> cell g r c = 0 ->
  grid_ok (setCell r c v g) = true
  /\ gridSum (setCell r c v g) = gridSum g + v
  /\ (tilesOnly g -> tileValue v -> tilesOnly (setCell r c v g)).
Proof.
  intros Hg Hr Hc H0. grid_cells Hg.
  index4 r Hr; index4 c Hc;
    unfold setCell, cell, gridSum, tilesOnly, sumList in *;
    cbn [assign length Nat.ltb Nat.leb firstn skipn app concat fold_right nth] in *;
    repeat rewrite Forall_cons_iff; subst;
    (split; [reflexivity|]; split; [lia|]);
    intros Ht Hv; decompose [and] Ht; repeat (split; [assumption|]); assumption.
Qed.

(** ** The empty cells *)

Lemma emptyCells_In (g : Grid) (p : Pos) :
  In p (emptyCells g)
  <-> (pos_r p < SIZE)%nat /\ (pos_c p < SIZE)%nat
      /\ cell g (pos_r p) (pos_c p) = 0.
Proof.
  unfold emptyCells. rewrite in_flat_map. split.
  - intros (r & Hr & H). apply in_flat_map in H as (c & Hc & H).
    apply in_seq in Hr, Hc.
    destruct (Z.eqb_spec (cell g r c) 0) as [Hz|Hz]; [|contradiction].
    destruct H as [<-|[]]. cbn. repeat split; lia.
  - intros (Hr & Hc & Hz). destruct p as [r c]. cbn [pos_r pos_c] in *.
    exists r. split; [apply in_seq; lia|].
    apply in_flat_map. exists c. split; [apply in_seq; lia|].
    rewrite Hz. cbn. left. reflexivity.
Qed.

Lemma hasEmpty_cells (g : Grid) :
  grid_ok g = true -> (hasEmpty g <-> emptyCells g <> []).
Proof.
  intro Hg. destruct (grid_ok_rows g Hg) as [Hlen Hrows]. unfold hasEmpty. split.
  - intros H Hnil. apply in_concat in H as (row & Hrow & Hz).
    destruct (In_nth g row [] Hrow) as (r & Hr & Hnr).
    destruct (In_nth row 0 0 Hz) as (c & Hc & Hnc).
    assert (Hin : In (mkPos r c) (emptyCells g)).
    { apply emptyCells_In. cbn. rewrite <- Hlen at 1. rewrite <- (Hrows row Hrow).
      repeat split; try assumption. unfold cell. rewrite Hnr. exact Hnc. }
    rewrite Hnil in Hin. contradiction.
  - intro Hne. destruct (emptyCells g) as [|p l] eqn:He; [contradiction|].
    assert (Hin : In p (emptyCells g)) by (rewrite He; left; reflexivity).
    apply emptyCells_In in Hin as (Hr & Hc & Hz).
    apply in_concat. exists (nth (pos_r p) g []). split.
    + apply nth_In. lia.
    + unfold cell in Hz. rewrite <- Hz. apply nth_In.
      rewrite (Hrows (nth (pos_r p) g [])); [exact Hc|apply nth_In; lia].
Qed.

(** ** The random index *)

Lemma floor_unique (x : Q) (k : Z) :
  (inject_Z k <= x)%Q -> (x < inject_Z (k + 1))%Q -> Qfloor x = k.
Proof.
  intros Hlo Hhi.
  pose proof (Qfloor_resp_le _ _ Hlo) as H1. rewrite Qfloor_Z in H1.
  assert (H2 : Qfloor x < k + 1).
  { rewrite Zlt_Qlt. eapply Qle_lt_trans; [apply Qfloor_le|exact Hhi]. }
  lia.
Qed.

(** The index falls on [k] exactly for the draws of the [k]-th of [n]
    equal parts of the unit interval. *)
Lemma randomIndex_interval (u : Q) (n k : nat) :
  unitInterval u -> (0 < n)%nat ->
  (randomIndex u n = k
   <-> (inject_Z (Z.of_nat k) <= u * inject_Z (Z.of_nat n))%Q
       /\ (u * inject_Z (Z.of_nat n) < inject_Z (Z.of_nat k + 1))%Q).
Proof.
  intros [H0 H1] Hn. unfold randomIndex.
  assert (Hn0 : (0 <= inject_Z (Z.of_nat n))%Q)
    by (rewrite <- (Zle_Qle 0); lia).
  pose proof (Qmult_le_0_compat _ _ H0 Hn0) as Hpos.
  apply Qfloor_resp_le in Hpos. change (Qfloor 0) with 0 in Hpos.
  split.
  - intros <-. rewrite Z2Nat.id by exact Hpos.
    split; [apply Qfloor_le|apply Qlt_floor].
  - intros [Hlo Hhi]. rewrite (floor_unique _ _ Hlo Hhi). apply Nat2Z.id.
Qed.

Lemma randomIndex_lt (u : Q) (n : nat) :
  unitInterval u -> (0 < n)%nat -> (randomIndex u n < n)%nat.
Proof.
  intros Hu Hn.
  destruct (proj1 (randomIndex_interval u n _ Hu Hn) eq_refl) as [Hlo _].
  destruct Hu as [_ H1].
  assert (Hnpos : (0 < inject_Z (Z.of_nat n))%Q)
    by (rewrite <- (Zlt_Qlt 0); lia).
  pose proof (Qmult_lt_compat_r _ _ _ Hnpos H1) as Hlt.
  rewrite Qmult_1_l in Hlt.
  pose proof (Qle_lt_trans _ _ _ Hlo Hlt) as H. rewrite <- Zlt_Qlt in H. lia.
Qed.

Lemma randomValue_cases (u : Q) :
  ((u < 9 # 10)%Q /\ randomValue u = 2)
  \/ ((9 # 10 <= u)%Q /\ randomValue u = 4).
Proof. unfold randomValue. destruct (Qlt_le_dec u (9 # 10)); auto. Qed.

Lemma tileValue_2 : tileValue 2.
Proof. right. exists 1. split; [lia|reflexivity]. Qed.

Lemma tileValue_4 : tileValue 4.
Proof. right. exists 2. split; [lia|reflexivity]. Qed.

Lemma randomValue_tile (u : Q) : tileValue (randomValue u).
Proof.
  destruct (randomValue_cases u) as [[_ ->]|[_ ->]];
    [apply tileValue_2|apply tileValue_4].
Qed.

(** ** [addRandomTile] *)

(** With a draw in the unit interval, [addRandomTile] either finds the
    board full or fills the empty cell the draw points at. *)
Lemma addRandomTile_cases (rnd : Rand) (s : State) :
  valid_rand rnd ->
  (emptyCells (grid s) = []
   /\ addRandomTile rnd s = (None, set_lastAddedPos None s))
  \/ (exists pos,
        nth_error (emptyCells (grid s))
                  (randomIndex (rand_cell rnd) (length (emptyCells (grid s))))
        = Some pos
        /\ In pos (emptyCells (grid s))
        /\ addRandomTile rnd s
           = (Some pos,
              set_lastAddedPos (Some pos)
                (set_grid (setCell (pos_r pos) (pos_c pos)
                                   (randomValue (rand_value rnd)) (grid s)) s))).
Proof.
  intros [Hu _]. unfold addRandomTile.
  destruct (emptyCells (grid s)) as [|p l] eqn:He; [left; auto|right].
  assert (Hlt : (randomIndex (rand_cell rnd) (length (p :: l)) < length (p :: l))%nat)
    by (apply randomIndex_lt; [exact Hu|cbn; lia]).
  destruct (nth_error (p :: l) _) as [pos|] eqn:Hn.
  - exists pos. split; [reflexivity|]. split; [|reflexivity].
    eapply nth_error_In. exact Hn.
  - apply nth_error_None in Hn. lia.
Qed.

(** What a spawn does to the state. *)
Lemma addRandomTile_OK (rnd : Rand) (s : State) :
  valid_rand rnd -> grid_ok (grid s) = true ->
  let s' := snd (addRandomTile rnd s) in
  grid_ok (grid s') = true
  /\ gridSum (grid s') = gridSum (grid s) + spawnedValue s'
  /\ (tilesOnly (grid s) -> tilesOnly (grid s'))
  /\ (hasEmpty (grid s) -> spawnedValue s' = 2 \/ spawnedValue s' = 4)
  /\ score s' = score s
  /\ lastGrid s' = lastGrid s
  /\ lastScore s' = lastScore s
  /\ gameOver s' = gameOver s
  /\ gameWon s' = gameWon s.
Proof.
  intros Hrnd Hg.
  destruct (addRandomTile_cases rnd s Hrnd) as [[He ->]|(pos & _ & Hin & ->)].
  - unfold spawnedValue. fields. splits; auto; try lia.
    intro H. apply (hasEmpty_cells _ Hg) in H. contradiction.
  - apply emptyCells_In in Hin as (Hr & Hc & Hz).
    destruct (setCell_empty (grid s) _ _ (randomValue (rand_value rnd)) Hg Hr Hc Hz)
      as (Hg' & Hsum & Htile).
    unfold spawnedValue. fields.
    rewrite (cell_setCell _ _ _ _ _ _ Hg Hr Hc), !Nat.eqb_refl. cbn [andb].
    splits; auto.
    + intro Ht. apply Htile; [exact Ht|apply randomValue_tile].
    + intros _. destruct (randomValue_cases (rand_value rnd)) as [[_ ->]|[_ ->]]; auto.
Qed.

(** ** Copies, the terminal check and the frame of a move *)

Lemma copyGrid_id (g : Grid) : copyGrid g = g.
Proof.
  unfold copyGrid. induction g as [|row g IH]; [reflexivity|].
  cbn [map]. rewrite app_nil_r, IH. reflexivity.
Qed.

Lemma checkGameState_frame (s : State) :
  grid (checkGameState s) = grid s
  /\ score (checkGameState s) = score s
  /\ lastGrid (checkGameState s) = lastGrid s
  /\ lastScore (checkGameState s) = lastScore s
  /\ lastAddedPos (checkGameState s) = lastAddedPos s
  /\ mergedMap (checkGameState s) = mergedMap s
  /\ bestScore (checkGameState s) = bestScore s.
Proof.
  unfold checkGameState.
  destruct (has2048 (grid s) && negb (gameWon s));
    [|destruct (negb (hasMoves (grid s)))]; splits; reflexivity.
Qed.

(** One evaluation raises at most one flag and lowers none. *)
Lemma checkGameState_flags (s : State) :
  (gameWon (checkGameState s) = gameWon s
   \/ gameOver (checkGameState s) = gameOver s)
  /\ (gameWon s = true -> gameWon (checkGameState s) = true)
  /\ (gameOver s = true -> gameOver (checkGameState s) = true).
Proof.
  unfold checkGameState.
  destruct (has2048 (grid s) && negb (gameWon s));
    [|destruct (negb (hasMoves (grid s)))]; fields; auto.
Qed.

Lemma hasMoves_true (g : Grid) :
  hasMoves g = true
  <-> exists r c, (r < SIZE)%nat /\ (c < SIZE)%nat
        /\ (cell g r c = 0
            \/ ((c < SIZE - 1)%nat /\ cell g r c = cell g r (c + 1))
            \/ ((r < SIZE - 1)%nat /\ cell g r c = cell g (r + 1) c)).
Proof.
  unfold hasMoves. rewrite existsb_exists. split.
  - intros (r & Hr & H). apply existsb_exists in H as (c & Hc & H).
    apply in_seq in Hr, Hc. exists r, c. split; [lia|]. split; [lia|].
    rewrite !orb_true_iff, !andb_true_iff, !Z.eqb_eq, !Nat.ltb_lt in H. tauto.
  - intros (r & c & Hr & Hc & H). exists r. split; [apply in_seq; lia|].
    apply existsb_exists. exists c. split; [apply in_seq; lia|].
    rewrite !orb_true_iff, !andb_true_iff, !Z.eqb_eq, !Nat.ltb_lt. tauto.
Qed.

(** A changed move: snapshot, spawn, render, terminal check. *)
Lemma handleMove_changed (s : State) (direction : string) (rnd : Rand) :
  changed direction s = true ->
  gameOver s = false /\ gameWon s = false
  /\ exists s1,
       dispatch direction s = (true, s1)
       /\ handleMove direction rnd s
          = checkGameState
              (render (snd (addRandomTile rnd
                              (set_undo (Some (copyGrid (grid s))) (score s) s1)))).
Proof.
  unfold changed, handleMove.
  destruct (gameOver s) eqn:Ho; [discriminate|].
  destruct (gameWon s) eqn:Hw; [discriminate|]. cbn [orb].
  destruct (dispatch direction s) as [moved s1]. cbn [fst].
  intros ->. split; [reflexivity|]. split; [reflexivity|].
  exists s1. split; reflexivity.
Qed.

(** An unchanged move of a live game clears the two animation variables
    and nothing else. *)
Lemma handleMove_unchanged (s : State) (direction : string) (rnd : Rand) :
  grid_ok (grid s) = true ->
  gameOver s || gameWon s = false ->
  changed direction s = false ->
  handleMove direction rnd s = set_lastAddedPos None (set_mergedMap [] s).
Proof.
  intros Hg Hlive. unfold changed, handleMove. rewrite Hlive.
  pose proof (dispatch_OK direction s Hg) as H.
  destruct (dispatch direction s) as [moved s1]. cbn [fst]. intros ->.
  destruct H as (_ & _ & _ & _ & _ & _ & _ & _ & Hsame & _).
  specialize (Hsame eq_refl).
  rewrite Hsame. reflexivity.
Qed.

Lemma handleMove_terminal (s : State) (direction : string) (rnd : Rand) :
  gameOver s || gameWon s = true -> handleMove direction rnd s = s.
Proof. intro H. unfold handleMove. rewrite H. reflexivity. Qed.

(** The flags of a move's result come from one terminal check on a live
    state. *)
Lemma dispatch_flags (s : State) (direction : string) :
  gameOver (snd (dispatch direction s)) = gameOver s
  /\ gameWon (snd (dispatch direction s)) = gameWon s.
Proof.
  assert (Hcore : forall step t,
             gameOver (snd (moveCore step t)) = gameOver t
             /\ gameWon (snd (moveCore step t)) = gameWon t).
  { intros step t. unfold moveCore.
    destruct (fold_left step (seq 0 SIZE) (grid t, [], false, 0))
      as [[[g mm] moved] total].
    cbn [snd]. destruct (0 <? total); [|split; reflexivity].
    destruct (bumpScore_frame total (set_mergedMap mm (set_grid g t)))
      as (_ & _ & _ & _ & _ & _ & -> & -> & _). split; reflexivity. }
  destruct (dispatch_cases direction s) as [(_ & step & _ & ->)|(_ & ->)];
    [apply Hcore|split; reflexivity].
Qed.

(** ** The invariant of the reachable states *)

Lemma zeros_tilesOnly : tilesOnly (repeat (repeat 0 SIZE) SIZE).
Proof.
  unfold tilesOnly. cbn. repeat constructor.
Qed.

Lemma initGame_Inv (rnd1 rnd2 : Rand) (s : State) :
  valid_rand rnd1 -> valid_rand rnd2 -> Inv (initGame rnd1 rnd2 s).
Proof.
  intros H1 H2. unfold initGame, render.
  set (s0 := mkState (repeat (repeat 0 SIZE) SIZE) 0 None 0 None [] false false
                     (bestScore s) MsgEmpty).
  pose proof (addRandomTile_OK rnd1 s0 H1 eq_refl) as Ha. cbv zeta in Ha.
  destruct Ha as (Hg1 & _ & Ht1 & _ & _ & Hl1 & _ & Ho1 & Hw1).
  pose proof (addRandomTile_OK rnd2 _ H2 Hg1) as Hb. cbv zeta in Hb.
  destruct Hb as (Hg2 & _ & Ht2 & _ & _ & Hl2 & _ & Ho2 & Hw2).
  set (s2 := snd (addRandomTile rnd2 (snd (addRandomTile rnd1 s0)))) in *.
  destruct (updateScoreDisplay_frame (updateScoreDisplay s2))
    as (E1 & _ & E2 & _ & _ & _ & E3 & E4 & _).
  destruct (updateScoreDisplay_frame s2) as (F1 & _ & F2 & _ & _ & _ & F3 & F4 & _).
  unfold Inv. rewrite E1, E2, E3, E4, F1, F2, F3, F4.
  rewrite Hl2, Hl1, Ho2, Ho1, Hw2, Hw1. cbn [lastGrid gameOver gameWon s0].
  splits; auto.
  - apply Ht2, Ht1, zeros_tilesOnly.
  - discriminate.
  - discriminate.
Qed.

Lemma undoMove_Inv (s : State) : Inv s -> Inv (undoMove s).
Proof.
  intros (Hg & Ht & Hl & Hf & Hu). unfold undoMove, render.
  destruct (lastGrid s) as [lg|] eqn:Hlg; [|unfold Inv; rewrite Hlg; auto].
  destruct (Hl lg eq_refl) as [Hg' Ht'].
  match goal with
  | |- Inv (updateScoreDisplay (updateScoreDisplay ?t)) =>
      destruct (updateScoreDisplay_frame (updateScoreDisplay t))
        as (E1 & _ & E2 & _ & _ & _ & E3 & E4 & _);
      destruct (updateScoreDisplay_frame t)
        as (F1 & _ & F2 & _ & _ & _ & F3 & F4 & _)
  end.
  unfold Inv. rewrite E1, E2, E3, E4, F1, F2, F3, F4. fields.
  rewrite copyGrid_id. splits; auto; discriminate.
Qed.

Lemma renderTimeout_Inv (s : State) : Inv s -> Inv (renderTimeout s).
Proof. intro H. exact H. Qed.

Lemma handleMove_Inv (s : State) (direction : string) (rnd : Rand) :
  valid_rand rnd -> Inv s -> Inv (handleMove direction rnd s).
Proof.
  intros Hrnd HI. pose proof HI as (Hg & Ht & Hl & Hf & Hu).
  destruct (gameOver s || gameWon s) eqn:Hterm.
  { rewrite handleMove_terminal by exact Hterm. exact HI. }
  destruct (changed direction s) eqn:Hch.
  - destruct (handleMove_changed s direction rnd Hch) as (Ho & Hw & s1 & Hd & ->).
    pose proof (dispatch_OK direction s Hg) as Hcore. rewrite Hd in Hcore.
    destruct Hcore as (Hg1 & _ & Ht1 & _ & _ & _ & Ho1 & Hw1 & _ & _).
    set (s2 := set_undo (Some (copyGrid (grid s))) (score s) s1).
    pose proof (addRandomTile_OK rnd s2 Hrnd Hg1) as Ha. cbv zeta in Ha.
    destruct Ha as (Hg3 & _ & Ht3 & _ & _ & Hl3 & _ & Ho3 & Hw3).
    set (s3 := snd (addRandomTile rnd s2)) in *.
    unfold render.
    destruct (updateScoreDisplay_frame s3) as (F1 & _ & F2 & _ & _ & _ & F3 & F4 & _).
    set (s4 := updateScoreDisplay s3) in *.
    destruct (checkGameState_frame s4) as (C1 & _ & C2 & _).
    destruct (checkGameState_flags s4) as (Hone & _ & _).
    assert (Ho4 : gameOver s4 = false)
      by (rewrite F3, Ho3; unfold s2; fields; congruence).
    assert (Hw4 : gameWon s4 = false)
      by (rewrite F4, Hw3; unfold s2; fields; congruence).
    assert (Hlg : lastGrid (checkGameState s4) = Some (grid s))
      by (rewrite C2, F2, Hl3; unfold s2; fields; rewrite copyGrid_id; reflexivity).
    unfold Inv. rewrite C1, F1, Hlg. splits.
    + exact Hg3.
    + apply Ht3. unfold s2. fields. apply Ht1, Ht.
    + intros lg E. injection E as <-. split; assumption.
    + destruct Hone as [E|E]; rewrite E; [rewrite Hw4|rewrite Ho4];
        [reflexivity|apply andb_false_r].
    + discriminate.
  - rewrite (handleMove_unchanged s direction rnd Hg Hterm Hch). exact HI.
Qed.

Lemma reachable_Inv (s : State) : reachable s -> Inv s.
Proof.
  induction 1.
  - apply initGame_Inv; assumption.
  - apply initGame_Inv; assumption.
  - apply handleMove_Inv; assumption.
  - apply undoMove_Inv; assumption.
  - apply renderTimeout_Inv; assumption.
Qed.

Lemma valid_rnd0 : valid_rand rnd0.
Proof. repeat split; cbn; try apply Qle_refl; reflexivity. Qed.

(** ** Each empty cell is listed once *)




(** ** Lines without equal neighbours *)

Lemma noAdjacentEqual_prefix (a b : list Z) :
  noAdjacentEqual (a ++ b) = true -> noAdjacentEqual a = true.
Proof.
  induction a as [|x a IH]; [reflexivity|].
  destruct a as [|y a]; [reflexivity|].
  cbn [app noAdjacentEqual] in *. intro H. apply andb_prop in H as [H1 H2].
  rewrite H1. apply IH. exact H2.
Qed.

(** * The claims *)

(** C1. On every line of length 4, [slideCombineRow] is the line
    transform of the specification: the zeros are removed in order, one
    scan from the left replaces each adjacent equal pair by one doubled
    entry, adding the doubled value to [gained] and recording the output
    index, without comparing the doubled entry with its next neighbour,
    and the result is padded with zeros to length 4.  The recorded
    indices are places of the output, and [gained] is the sum of the
    output entries there.  In particular [2,2,2,2] gives [4,4,0,0] with
    indices 0 and 1 and 8 gained, [0,2,0,2] gives [4,0,0,0] with index 0
    and 4 gained, and in [2,2,4,0] the new 4 is not merged with the 4
    that follows it. *)
Theorem slideCombineRow_compacts_and_merges (line : list Z) :
  length line = SIZE ->
  slideCombineRow line = compactAndMerge line
  /\ length (fst (fst (slideCombineRow line))) = SIZE
  /\ Forall (fun i => (i < SIZE)%nat) (snd (fst (slideCombineRow line)))
  /\ snd (slideCombineRow line)
     = sumList (map (fun i => nth i (fst (fst (slideCombineRow line))) 0)
                    (snd (fst (slideCombineRow line))))
  /\ slideCombineRow [2; 2; 2; 2] = ([4; 4; 0; 0], [0%nat; 1%nat], 8)
  /\ slideCombineRow [0; 2; 0; 2] = ([4; 0; 0; 0], [0%nat], 4)
  /\ slideCombineRow [2; 2; 4; 0] = ([4; 4; 0; 0], [0%nat], 4).
Proof.
  intro Hlen. split; [apply slideCombineRow_scan|].
  assert (Hout : length (fst (fst (slideCombineRow line))) = SIZE).
  { pose proof (slideCombineRow_lineOK line Hlen) as H.
    destruct (slideCombineRow line) as [[out ms] g]. apply H. }
  destruct (slideCombineRow_gained line) as [Hidx Hg]. rewrite Hout in Hidx.
  splits; try reflexivity; assumption.
Qed.

Lemma slideCombineRow_compacts_and_merges_witness :
  length [2; 2; 2; 2] = SIZE
  /\ slideCombineRow [2; 2; 2; 2] = compactAndMerge [2; 2; 2; 2].
Proof.
  split; [reflexivity|].
  apply (slideCombineRow_compacts_and_merges [2; 2; 2; 2]). reflexivity.
Defined.

(** C9. When the output of [slideCombineRow] has no two equal non-zero
    neighbours, applying [slideCombineRow] to that output returns the
    same line, gains nothing and records no merge. *)
Theorem slideCombineRow_fixed_output (line : list Z) :
  noAdjacentEqual (fst (fst (slideCombineRow line))) = true ->
  slideCombineRow (fst (fst (slideCombineRow line)))
  = (fst (fst (slideCombineRow line)), [], 0).
Proof.
  destruct (slideCombineRow_parts line) as (res & ms & g & _ & -> & Hnz & _).
  cbn [fst]. intro Hadj.
  rewrite slideCombineRow_scan. unfold compactAndMerge.
  rewrite (compact_app_zeros _ _ Hnz).
  rewrite (mergeScan_fixed res Hnz (noAdjacentEqual_prefix _ _ Hadj) 0).
  reflexivity.
Qed.

Lemma slideCombineRow_fixed_output_witness :
  noAdjacentEqual (fst (fst (slideCombineRow [0; 2; 0; 2]))) = true
  /\ slideCombineRow [4; 0; 0; 0] = ([4; 0; 0; 0], [], 0).
Proof.
  split; [reflexivity|].
  apply (slideCombineRow_fixed_output [0; 2; 0; 2]). reflexivity.
Defined.

(** C2, as the code has it.  A changed move on a four-by-four board
    leaves the sum of the cells as it was and then spawns one tile: the
    sum after the move minus the sum before it is the value of the
    spawned tile, 2 or 4.  The score gained does not enter. *)
Theorem move_sum_grows_by_spawn (s : State) (direction : string) (rnd : Rand) :
  grid_ok (grid s) = true -> valid_rand rnd -> changed direction s = true ->
  gridSum (grid (handleMove direction rnd s)) - gridSum (grid s)
  = spawnedValue (handleMove direction rnd s)
  /\ (spawnedValue (handleMove direction rnd s) = 2
      \/ spawnedValue (handleMove direction rnd s) = 4).
Proof.
  intros Hg Hrnd Hch.
  destruct (handleMove_changed s direction rnd Hch) as (_ & _ & s1 & Hd & ->).
  pose proof (dispatch_OK direction s Hg) as Hcore. rewrite Hd in Hcore.
  destruct Hcore as (Hg1 & Hsum1 & _ & _ & _ & _ & _ & _ & _ & Hempty).
  set (s2 := set_undo (Some (copyGrid (grid s))) (score s) s1).
  pose proof (addRandomTile_OK rnd s2 Hrnd Hg1) as Ha. cbv zeta in Ha.
  destruct Ha as (_ & Hsum3 & _ & Hval & _).
  set (s3 := snd (addRandomTile rnd s2)) in *.
  assert (Hsp : spawnedValue (checkGameState (render s3)) = spawnedValue s3).
  { unfold spawnedValue, render.
    destruct (checkGameState_frame (updateScoreDisplay s3))
      as (-> & _ & _ & _ & -> & _).
    destruct (updateScoreDisplay_frame s3) as (-> & _ & _ & _ & -> & _).
    reflexivity. }
  assert (Hgr : grid (checkGameState (render s3)) = grid s3).
  { unfold render.
    destruct (checkGameState_frame (updateScoreDisplay s3)) as (-> & _).
    apply updateScoreDisplay_frame. }
  rewrite Hsp, Hgr, Hsum3. unfold s2 at 1. fields.
  split; [lia|]. apply Hval. unfold s2. fields. apply Hempty. reflexivity.
Qed.

Lemma move_sum_grows_by_spawn_witness :
  changed "left" pairBoard = true
  /\ gridSum (grid (handleMove "left" rnd0 pairBoard)) - gridSum (grid pairBoard)
     = spawnedValue (handleMove "left" rnd0 pairBoard).
Proof.
  split; [reflexivity|].
  apply (move_sum_grows_by_spawn pairBoard "left" rnd0);
    [reflexivity|exact valid_rnd0|reflexivity].
Defined.

(** C2, as the specification states it, fails: moving [[2,2,0,0]] left
    merges the pair into a 4, which scores 4 and leaves the sum at 4;
    the spawned 2 then raises the sum by 2, not by 4 + 2. *)
Lemma move_sum_counterexample :
  changed "left" pairBoard = true
  /\ gridSum (grid pairBoard) = 4
  /\ gridSum (grid (handleMove "left" rnd0 pairBoard)) = 6
  /\ score (handleMove "left" rnd0 pairBoard) - score pairBoard = 4
  /\ spawnedValue (handleMove "left" rnd0 pairBoard) = 2
  /\ gridSum (grid (handleMove "left" rnd0 pairBoard)) - gridSum (grid pairBoard)
     <> (score (handleMove "left" rnd0 pairBoard) - score pairBoard)
        + spawnedValue (handleMove "left" rnd0 pairBoard).
Proof. vm_compute. repeat split; discriminate. Qed.



(** C4. While the game is won or over, [handleMove] returns at its first
    line: every move attempt, in any direction and however often
    repeated, is an unchanged move that leaves the whole state (grid,
    score, flags, snapshot and the rest) as it was.  [initGame] lowers
    both flags, and so does [undoMove] in every reachable terminal state,
    which always holds a snapshot. *)
Theorem terminal_state_rejects_moves (s : State) :
  gameOver s || gameWon s = true ->
  (forall direction rnd,
      changed direction s = false /\ handleMove direction rnd s = s)
  /\ (forall attempts : list (string * Rand),
         fold_left (fun t a => handleMove (fst a) (snd a) t) attempts s = s)
  /\ (forall rnd1 rnd2,
         valid_rand rnd1 -> valid_rand rnd2 ->
         gameOver (initGame rnd1 rnd2 s) || gameWon (initGame rnd1 rnd2 s) = false)
  /\ (reachable s ->
      lastGrid s <> None
      /\ gameOver (undoMove s) || gameWon (undoMove s) = false).
Proof.
  intro Hterm. splits.
  - intros direction rnd. split.
    + unfold changed. rewrite Hterm. reflexivity.
    + apply handleMove_terminal, Hterm.
  - induction attempts as [|a l IH]; [reflexivity|].
    cbn [fold_left]. rewrite handleMove_terminal by exact Hterm. exact IH.
  - intros rnd1 rnd2 H1 H2.
    unfold initGame, render.
    set (s0 := mkState (repeat (repeat 0 SIZE) SIZE) 0 None 0 None [] false false
                       (bestScore s) MsgEmpty).
    pose proof (addRandomTile_OK rnd1 s0 H1 eq_refl) as Ha. cbv zeta in Ha.
    destruct Ha as (Hg1 & _ & _ & _ & _ & _ & _ & Ho1 & Hw1).
    pose proof (addRandomTile_OK rnd2 _ H2 Hg1) as Hb. cbv zeta in Hb.
    destruct Hb as (_ & _ & _ & _ & _ & _ & _ & Ho2 & Hw2).
    set (s2 := snd (addRandomTile rnd2 (snd (addRandomTile rnd1 s0)))) in *.
    destruct (updateScoreDisplay_frame (updateScoreDisplay s2))
      as (_ & _ & _ & _ & _ & _ & -> & -> & _).
    destruct (updateScoreDisplay_frame s2) as (_ & _ & _ & _ & _ & _ & -> & -> & _).
    rewrite Ho2, Ho1, Hw2, Hw1. reflexivity.
  - intro Hreach. destruct (reachable_Inv s Hreach) as (_ & _ & _ & _ & Hsnap).
    specialize (Hsnap Hterm). split; [exact Hsnap|].
    unfold undoMove, render. destruct (lastGrid s) as [lg|]; [|contradiction].
    match goal with
    | |- context [updateScoreDisplay (updateScoreDisplay ?u)] =>
        destruct (updateScoreDisplay_frame (updateScoreDisplay u))
          as (_ & _ & _ & _ & _ & _ & -> & -> & _);
        destruct (updateScoreDisplay_frame u)
          as (_ & _ & _ & _ & _ & _ & -> & -> & _)
    end.
    reflexivity.
Qed.

Lemma terminal_state_rejects_moves_witness :
  gameOver wonBoard || gameWon wonBoard = true
  /\ handleMove "right" rnd0 wonBoard = wonBoard.
Proof.
  split; [reflexivity|].
  apply (terminal_state_rejects_moves wonBoard); reflexivity.
Defined.

(** C5. The terminal check looks for a 2048 tile first: on a game not
    yet won it raises [gameWon] and leaves [gameOver] alone, whether or
    not a move is left.  Only otherwise does it test [hasMoves], which
    fails exactly when no cell is empty and no cell equals its right or
    lower neighbour, and raises [gameOver].  One evaluation changes at
    most one of the two flags, every changed move ends in one evaluation
    on a live state, and no reachable state has both flags up. *)
Theorem won_and_over_exclusive :
  (forall s,
      has2048 (grid s) && negb (gameWon s) = true ->
      checkGameState s = set_message MsgWin (set_gameWon true s))
  /\ (forall s,
         has2048 (grid s) && negb (gameWon s) = false ->
         hasMoves (grid s) = false ->
         checkGameState s = set_message MsgGameOver (set_gameOver true s))
  /\ (forall s,
         has2048 (grid s) && negb (gameWon s) = false ->
         hasMoves (grid s) = true ->
         checkGameState s = set_message MsgEmpty s)
  /\ (forall g,
         hasMoves g = false <->
         (forall r c, (r < SIZE)%nat -> (c < SIZE)%nat -> cell g r c <> 0)
         /\ (forall r c, (r < SIZE)%nat -> (c < SIZE - 1)%nat ->
                         cell g r c <> cell g r (c + 1))
         /\ (forall r c, (r < SIZE - 1)%nat -> (c < SIZE)%nat ->
                         cell g r c <> cell g (r + 1) c))
  /\ (forall s,
         gameWon (checkGameState s) = gameWon s
         \/ gameOver (checkGameState s) = gameOver s)
  /\ (forall s direction rnd,
         grid_ok (grid s) = true ->
         changed direction s = true ->
         exists t, handleMove direction rnd s = checkGameState t
                   /\ gameOver t = false /\ gameWon t = false)
  /\ (forall s, reachable s -> gameWon s && gameOver s = false).
Proof.
  splits.
  - intros s H. unfold checkGameState. rewrite H. reflexivity.
  - intros s H Hm. unfold checkGameState. rewrite H, Hm. reflexivity.
  - intros s H Hm. unfold checkGameState. rewrite H, Hm. reflexivity.
  - intro g. rewrite <- not_true_iff_false, hasMoves_true. split.
    + intro Hno. splits; intros r c Hr Hc Heq; apply Hno; exists r, c;
        (split; [unfold SIZE in *; lia|]); (split; [unfold SIZE in *; lia|]); tauto.
    + intros (H1 & H2 & H3) (r & c & Hr & Hc & [H|[[Hc' H]|[Hr' H]]]).
      * exact (H1 r c Hr Hc H).
      * exact (H2 r c Hr Hc' H).
      * exact (H3 r c Hr' Hc H).
  - intro s. apply checkGameState_flags.
  - intros s direction rnd _ Hch.
    destruct (handleMove_changed s direction rnd Hch) as (Ho & Hw & s1 & Hd & ->).
    eexists. split; [reflexivity|].
    destruct (dispatch_flags s direction) as [Do Dw]. rewrite Hd in Do, Dw.
    cbn [snd] in Do, Dw. unfold render.
    match goal with
    | |- gameOver (updateScoreDisplay ?u) = _ /\ _ =>
        destruct (updateScoreDisplay_frame u) as (_ & _ & _ & _ & _ & _ & -> & -> & _)
    end.
    unfold addRandomTile.
    destruct (emptyCells _); [|destruct (nth_error _ _)]; fields;
      split; congruence.
  - intros s Hreach. apply (reachable_Inv s Hreach).
Qed.

(** C6. A move attempt of a four-by-four board that changes nothing
    leaves the grid and the score as they were, keeps the snapshot held
    before the call, and spawns and merges nothing: in a live game the
    merge map is empty and no tile is recorded as added, and in a
    terminal one the state is untouched. *)
Theorem unchanged_move_keeps_state (s : State) (direction : string) (rnd : Rand) :
  grid_ok (grid s) = true ->
  changed direction s = false ->
  grid (handleMove direction rnd s) = grid s
  /\ score (handleMove direction rnd s) = score s
  /\ lastGrid (handleMove direction rnd s) = lastGrid s
  /\ lastScore (handleMove direction rnd s) = lastScore s
  /\ gameOver (handleMove direction rnd s) = gameOver s
  /\ gameWon (handleMove direction rnd s) = gameWon s
  /\ bestScore (handleMove direction rnd s) = bestScore s
  /\ message (handleMove direction rnd s) = message s
  /\ (gameOver s || gameWon s = false ->
      mergedMap (handleMove direction rnd s) = []
      /\ lastAddedPos (handleMove direction rnd s) = None)
  /\ (gameOver s || gameWon s = true -> handleMove direction rnd s = s).
Proof.
  intros Hg Hch. destruct (gameOver s || gameWon s) eqn:Hterm.
  - rewrite handleMove_terminal by exact Hterm. splits; auto. discriminate.
  - rewrite (handleMove_unchanged s direction rnd Hg Hterm Hch).
    splits; auto. discriminate.
Qed.

Lemma unchanged_move_keeps_state_witness :
  grid_ok (grid packedBoard) = true
  /\ changed "left" packedBoard = false
  /\ lastGrid (handleMove "left" rnd0 packedBoard) = lastGrid packedBoard.
Proof.
  split; [reflexivity|]. split; [reflexivity|].
  apply (unchanged_move_keeps_state packedBoard "left" rnd0); reflexivity.
Defined.



(** C8, as the code has it.  For a direction that is none of "left",
    "right", "up" and "down", [handleMove] raises nothing and returns:
    none of the four tests matches, so the call is an unchanged move.
    It leaves grid, score, flags, snapshot, best score and message as
    they were; in a live game it clears the merge map and the added
    position, in a terminal one it changes nothing at all. *)
Theorem invalid_direction_is_ignored (direction : string) (rnd : Rand) (s : State) :
  validDirection direction = false ->
  changed direction s = false
  /\ callHandleMove direction rnd s
     = Normal (if gameOver s || gameWon s then s
               else set_lastAddedPos None (set_mergedMap [] s)).
Proof.
  intro Hd.
  destruct (dispatch_cases direction s) as [(Hv & _)|(_ & Hdis)]; [congruence|].
  unfold callHandleMove, changed, handleMove. rewrite Hdis.
  destruct (gameOver s || gameWon s); split; reflexivity.
Qed.

Lemma invalid_direction_is_ignored_witness :
  validDirection "diagonal" = false
  /\ callHandleMove "diagonal" rnd0 packedBoard
     = Normal (set_lastAddedPos None (set_mergedMap [] packedBoard)).
Proof.
  split; [reflexivity|].
  apply (invalid_direction_is_ignored "diagonal" rnd0 packedBoard). reflexivity.
Defined.

(** C8, as the specification states it, fails: called with "diagonal",
    [handleMove] does not fail with an [InvalidArgument] error but
    returns, and the state it returns is not the one it was given, the
    added position having been cleared. *)
Lemma invalid_direction_counterexample :
  validDirection "diagonal" = false
  /\ callHandleMove "diagonal" rnd0 packedBoard <> Throw "InvalidArgument"
  /\ lastAddedPos packedBoard = Some (mkPos 1 0)
  /\ callHandleMove "diagonal" rnd0 packedBoard
     = Normal (set_lastAddedPos None packedBoard).
Proof. repeat split. discriminate. Qed.

(** C10. In every state reachable through [initGame], [handleMove],
    [undoMove] and the render timer, the board is four by four and each
    cell is 0 or a power of two that is at least 2; so is the snapshot.
    The board of [initGame] starts all zero, a spawn writes 2 or 4, and
    a merge doubles a tile value into a tile value. *)
Theorem reachable_cells_are_tiles (s : State) :
  reachable s ->
  grid_ok (grid s) = true
  /\ (forall r c, (r < SIZE)%nat -> (c < SIZE)%nat -> tileValue (cell (grid s) r c))
  /\ (forall lg, lastGrid s = Some lg ->
                 forall r c, (r < SIZE)%nat -> (c < SIZE)%nat -> tileValue (cell lg r c))
  /\ (forall u, randomValue u = 2 \/ randomValue u = 4)
  /\ (forall v, tileValue v -> tileValue (v * 2)).
Proof.
  intro Hreach. destruct (reachable_Inv s Hreach) as (Hg & Ht & Hl & _).
  assert (Hcells : forall g, grid_ok g = true -> tilesOnly g ->
                             forall r c, (r < SIZE)%nat -> (c < SIZE)%nat ->
                                         tileValue (cell g r c)).
  { intros g Hok Htiles r c Hr Hc. destruct (grid_ok_rows g Hok) as [Hlen Hrows].
    unfold tilesOnly in Htiles. rewrite Forall_forall in Htiles. apply Htiles.
    apply in_concat. exists (nth r g []). split; [apply nth_In; lia|].
    apply nth_In. rewrite (Hrows (nth r g [])); [exact Hc|apply nth_In; lia]. }
  splits.
  - exact Hg.
  - apply Hcells; assumption.
  - intros lg Hlg. destruct (Hl lg Hlg) as [Hok Htiles]. apply Hcells; assumption.
  - intro u. destruct (randomValue_cases u) as [[_ ->]|[_ ->]]; auto.
  - apply tileValue_double.
Qed.

Lemma reachable_cells_are_tiles_witness :
  reachable (initGame rnd0 rnd0 (initialState 0))
  /\ tileValue (cell (grid (initGame rnd0 rnd0 (initialState 0))) 0 0).
Proof.
  assert (H : reachable (initGame rnd0 rnd0 (initialState 0)))
    by (apply reach_load; exact valid_rnd0).
  split; [exact H|].
  apply (proj1 (proj2 (reachable_cells_are_tiles _ H))); unfold SIZE; lia.
Defined.

(** * Lemmas for the further properties *)

Example transpose_ex :
  transpose [[1;2;3;4];[5;6;7;8];[9;10;11;12];[13;14;15;16]]
  = [[1;5;9;13];[2;6;10;14];[3;7;11;15];[4;8;12;16]].
Proof. reflexivity. Qed.

(** ** More on the scan *)

Lemma mergeScan_nonempty (l : list Z) :
  l <> [] -> forall idx, fst (fst (mergeScan idx l)) <> [].
Proof.
  destruct l as [|a [|b tl]]; intros Hne idx; [contradiction|discriminate|].
  rewrite mergeScan_pair. destruct (a =? b).
  - destruct (mergeScan (S idx) tl) as [[res ms] g]. discriminate.
  - destruct (mergeScan (S idx) (b :: tl)) as [[res ms] g]. discriminate.
Qed.

(** On positive entries every merge gains something. *)
Lemma mergeScan_gain (l : list Z) :
  Forall (fun v => 0 < v) l ->
  forall idx, 0 <= snd (mergeScan idx l)
              /\ (snd (mergeScan idx l) = 0 -> snd (fst (mergeScan idx l)) = []).
Proof.
  induction l as [| a | a b tl IH1 IH2] using list_pair_ind; intros Hl idx;
    try (cbn; split; [lia|reflexivity]).
  rewrite mergeScan_pair.
  inversion Hl as [|? ? Ha Hl']; subst. inversion Hl' as [|? ? Hb Htl]; subst.
  destruct (a =? b).
  - specialize (IH1 Htl (S idx)).
    destruct (mergeScan (S idx) tl) as [[res ms] g]. cbn [fst snd] in *.
    split; [lia|]. intro H. lia.
  - specialize (IH2 Hl' (S idx)).
    destruct (mergeScan (S idx) (b :: tl)) as [[res ms] g]. cbn [fst snd] in *.
    exact IH2.
Qed.

Lemma noAdjacentEqual_pair (a b : Z) (tl : list Z) :
  noAdjacentEqual (a :: b :: tl)
  = negb ((a =? b) && negb (a =? 0)) && noAdjacentEqual (b :: tl).
Proof. reflexivity. Qed.

(** A scan without a merge ran over a line without equal neighbours. *)
Lemma mergeScan_no_merge_adjacent (l : list Z) :
  Forall (fun v => v <> 0) l ->
  forall idx, snd (fst (mergeScan idx l)) = [] -> noAdjacentEqual l = true.
Proof.
  induction l as [| a | a b tl IH1 IH2] using list_pair_ind; intros Hl idx H;
    try reflexivity.
  rewrite mergeScan_pair in H. inversion Hl as [|? ? Ha Hl']; subst.
  rewrite noAdjacentEqual_pair. destruct (a =? b).
  - destruct (mergeScan (S idx) tl) as [[res ms] g]. discriminate.
  - specialize (IH2 Hl' (S idx)).
    destruct (mergeScan (S idx) (b :: tl)) as [[res ms] g]. cbn [fst snd] in *.
    rewrite (IH2 H). reflexivity.
Qed.

Lemma compact_positive (l : list Z) :
  Forall (fun v => 0 <= v) l -> Forall (fun v => 0 < v) (compact l).
Proof.
  intro H. apply Forall_forall. intros v Hv. apply filter_In in Hv as [Hin Hnz].
  rewrite Forall_forall in H. specialize (H v Hin). cbv beta in H.
  destruct (Z.eqb_spec v 0); [discriminate|lia].
Qed.

(** ** Lines of four, case by case *)

Ltac zero_cases a b c d :=
  destruct (Z.eqb_spec a 0) as [?Ez|?En]; destruct (Z.eqb_spec b 0) as [?Ez|?En];
  destruct (Z.eqb_spec c 0) as [?Ez|?En]; destruct (Z.eqb_spec d 0) as [?Ez|?En];
  subst.

Ltac eval_filter :=
  cbn [filter];
  repeat match goal with
         | En : ?x <> 0 |- context [?x =? 0] =>
             rewrite (proj2 (Z.eqb_neq x 0) En)
         end;
  cbn [negb Z.eqb].

Ltac eval_scan :=
  repeat (cbn [mergeScan fst snd length repeat app SIZE Nat.sub rev];
          match goal with
          | |- context [?x =? ?y] => destruct (Z.eqb_spec x y)
          end);
  cbn [mergeScan fst snd length repeat app SIZE Nat.sub rev].

Ltac eval_lines :=
  unfold lineOut, lineGain, lineMerged, slideReversed;
  rewrite ?slideCombineRow_scan; unfold compactAndMerge, compact;
  cbn [rev app]; eval_filter; eval_scan.

Ltac list_neq :=
  let E := fresh "E" in
  intro E; first [ exfalso; lia | injection E; intros; subst; lia ].

(** A line with a hole and a tile slides one way or the other. *)
Lemma line_with_hole_slides (a b c d : Z) :
  a = 0 \/ b = 0 \/ c = 0 \/ d = 0 ->
  a <> 0 \/ b <> 0 \/ c <> 0 \/ d <> 0 ->
  lineOut slideCombineRow [a; b; c; d] <> [a; b; c; d]
  \/ lineOut slideReversed [a; b; c; d] <> [a; b; c; d].
Proof.
  intros Hz Hnz. zero_cases a b c d; try (exfalso; lia).
  all: eval_lines.
  all: first [ left; list_neq | right; list_neq ].
Qed.

(** A line with two equal neighbouring tiles changes when slid. *)
Lemma line_with_pair_slides (a b c d : Z) :
  (a = b /\ a <> 0) \/ (b = c /\ b <> 0) \/ (c = d /\ c <> 0) ->
  lineOut slideCombineRow [a; b; c; d] <> [a; b; c; d].
Proof.
  intros Hp. zero_cases a b c d; try (exfalso; lia).
  all: eval_lines.
  all: list_neq.
Qed.

(** A full line without equal neighbours stays as it is, both ways. *)
Lemma line_stuck (a b c d : Z) :
  a <> 0 -> b <> 0 -> c <> 0 -> d <> 0 -> a <> b -> b <> c -> c <> d ->
  slideCombineRow [a; b; c; d] = ([a; b; c; d], [], 0)
  /\ slideReversed [a; b; c; d] = ([a; b; c; d], [], 0).
Proof.
  intros. split; unfold slideReversed;
    rewrite ?slideCombineRow_scan; unfold compactAndMerge, compact;
    cbn [rev app]; eval_filter; eval_scan; try reflexivity; exfalso; lia.
Qed.

(** ** The merge map as a set of keys *)

Lemma markMerged_In (m : list (nat * nat)) (k k' : nat * nat) :
  In k' (markMerged m k) <-> In k' m \/ k' = k.
Proof.
  unfold markMerged.
  destruct (existsb _ m) eqn:He.
  - apply existsb_exists in He as (k0 & Hin & Heq).
    apply andb_prop in Heq as [H1 H2]. apply Nat.eqb_eq in H1, H2.
    assert (k0 = k) by (destruct k0, k; cbn in *; congruence). subst k0.
    split; [auto|]. intros [H | ->]; assumption.
  - rewrite in_app_iff. cbn. split; intros [H|H]; auto.
    + destruct H as [<-|[]]. auto.
Qed.

Lemma fold_markMerged_In (f : nat -> nat * nat) (ms : list nat) :
  forall (m : list (nat * nat)) (k : nat * nat),
    In k (fold_left (fun m i => markMerged m (f i)) ms m)
    <-> In k m \/ exists i, In i ms /\ k = f i.
Proof.
  induction ms as [|i ms IH]; intros m k; cbn [fold_left].
  - split; [auto|]. intros [H|(i & [] & _)]. exact H.
  - rewrite IH, markMerged_In. split.
    + intros [[H | ->] | (j & Hj & ->)]; eauto.
      * right. exists i. split; [left; reflexivity|reflexivity].
      * right. exists j. split; [right; exact Hj|reflexivity].
    + intros [H|(j & [<- | Hj] & ->)]; eauto.
Qed.

(** ** Rows compared cell by cell *)

Lemma rowsDiffer4 (a b c d x y z w : Z) :
  rowsDiffer [a; b; c; d] [x; y; z; w]
  = negb ((a =? x) && (b =? y) && (c =? z) && (d =? w)).
Proof.
  destruct (rowsDiffer _ _) eqn:Hd.
  - destruct (Z.eqb_spec a x); [|reflexivity].
    destruct (Z.eqb_spec b y); [|reflexivity].
    destruct (Z.eqb_spec c z); [|reflexivity].
    destruct (Z.eqb_spec d w); [|reflexivity].
    subst. assert (H : rowsDiffer [x; y; z; w] [x; y; z; w] = false)
      by (apply rowsDiffer_false; reflexivity).
    congruence.
  - apply rowsDiffer_false in Hd. injection Hd as -> -> -> ->.
    rewrite !Z.eqb_refl. reflexivity.
Qed.

Lemma rowsDiffer_true (a b : list Z) : rowsDiffer a b = true <-> a <> b.
Proof.
  rewrite <- not_false_iff_true, rowsDiffer_false. reflexivity.
Qed.

Lemma rowsDiffer_rev (a b : list Z) :
  rowsDiffer a (rev b) = rowsDiffer (rev a) b.
Proof.
  destruct (rowsDiffer (rev a) b) eqn:H.
  - apply rowsDiffer_true. apply rowsDiffer_true in H. intro E. apply H.
    rewrite E. apply rev_involutive.
  - apply rowsDiffer_false. apply rowsDiffer_false in H. rewrite <- H.
    symmetry. apply rev_involutive.
Qed.

(** ** A whole loop over the rows *)

(** The loop over the rows transforms each row on its own. *)
Lemma rowFold_char (op : LineOp) (mark : nat -> nat -> nat * nat)
    (g : Grid) (mm : list (nat * nat)) :
  length g = SIZE ->
  let '(g', mm', moved', total') :=
    fold_left (rowStep op mark) (seq 0 SIZE) (g, mm, false, 0) in
  g' = map (lineOut op) g
  /\ moved' = existsb (fun row => rowsDiffer row (lineOut op row)) g
  /\ total' = sumList (map (lineGain op) g)
  /\ forall k, In k mm'
               <-> In k mm
                   \/ exists r i, (r < SIZE)%nat
                                  /\ In i (lineMerged op (nth r g [])) /\ k = mark r i.
Proof.
  intro Hlen. line4 g Hlen.
  unfold lineOut, lineGain, lineMerged.
  cbn [seq SIZE fold_left]. unfold rowStep. cbn [nth map existsb].
  destruct (op x) as [[o0 m0] g0] eqn:E0.
  cbn [assign length Nat.ltb Nat.leb firstn skipn app nth].
  destruct (op x0) as [[o1 m1] g1] eqn:E1.
  cbn [assign length Nat.ltb Nat.leb firstn skipn app nth].
  destruct (op x1) as [[o2 m2] g2] eqn:E2.
  cbn [assign length Nat.ltb Nat.leb firstn skipn app nth].
  destruct (op x2) as [[o3 m3] g3] eqn:E3.
  cbn [assign length Nat.ltb Nat.leb firstn skipn app nth fst snd].
  split; [reflexivity|]. split.
  { destruct (rowsDiffer x o0), (rowsDiffer x0 o1), (rowsDiffer x1 o2),
      (rowsDiffer x2 o3); reflexivity. }
  split; [unfold sumList; cbn; lia|].
  intro k. rewrite !fold_markMerged_In. split.
  - intros [[[[H|(i & Hi & ->)]|(i & Hi & ->)]|(i & Hi & ->)]|(i & Hi & ->)];
      [left; exact H| | | |]; right.
    + exists 0%nat, i. unfold SIZE. cbn. rewrite E0. splits; auto; lia.
    + exists 1%nat, i. unfold SIZE. cbn. rewrite E1. splits; auto; lia.
    + exists 2%nat, i. unfold SIZE. cbn. rewrite E2. splits; auto; lia.
    + exists 3%nat, i. unfold SIZE. cbn. rewrite E3. splits; auto; lia.
  - intros [H|(r & i & Hr & Hi & ->)]; [tauto|].
    index4 r Hr; cbn [nth] in Hi; rewrite ?E0, ?E1, ?E2, ?E3 in Hi;
      cbn [fst snd] in Hi; eauto 10.
Qed.

(** ** Mirror and transpose *)

Lemma mirror_involutive (g : Grid) : mirror (mirror g) = g.
Proof.
  unfold mirror. rewrite map_map. rewrite <- (map_id g) at 2.
  apply map_ext. intro row. apply rev_involutive.
Qed.

Lemma mirror_ok (g : Grid) : grid_ok g = true -> grid_ok (mirror g) = true.
Proof. intro Hg. grid_cells Hg. reflexivity. Qed.

Lemma transpose_involutive (g : Grid) :
  grid_ok g = true -> transpose (transpose g) = g.
Proof. intro Hg. grid_cells Hg. reflexivity. Qed.

Lemma transpose_ok (g : Grid) : grid_ok g = true -> grid_ok (transpose g) = true.
Proof. intro Hg. grid_cells Hg. reflexivity. Qed.

Lemma transpose_cell (g : Grid) (r c : nat) :
  (r < SIZE)%nat -> (c < SIZE)%nat -> cell (transpose g) r c = cell g c r.
Proof.
  intros Hr Hc. index4 r Hr; index4 c Hc; reflexivity.
Qed.

Lemma mirror_cell (g : Grid) (r c : nat) :
  grid_ok g = true -> (r < SIZE)%nat -> (c < SIZE)%nat ->
  cell (mirror g) r c = cell g r (SIZE - 1 - c).
Proof.
  intros Hg Hr Hc. grid_cells Hg. index4 r Hr; index4 c Hc; reflexivity.
Qed.

(** ** The loop over the columns is the loop over the rows, transposed *)

Lemma colStep_sim (op : LineOp) (mark : nat -> nat -> nat * nat)
    (h : Grid) (mm : list (nat * nat)) (mv : bool) (t : Z) (i : nat) :
  lineOK op -> grid_ok h = true -> (i < SIZE)%nat ->
  colStep op mark (transpose h, mm, mv, t) i
  = (let '(h', mm', mv', t') := rowStep op mark (h, mm, mv, t) i in
     (transpose h', mm', mv', t')).
Proof.
  intros Hop Hh Hi. grid_cells Hh.
  index4 i Hi; unfold colStep, rowStep, transpose, column, cell;
    cbn [map seq nth SIZE].
  all: line_facts op Hop; pose proof Hlen as Hlen'; line4 out Hlen'.
  all: rewrite rowsDiffer4.
  all: unfold writeColumn, setCell, cell;
    cbn [assign length Nat.ltb Nat.leb firstn skipn app fold_left seq SIZE nth map].
  all: repeat match goal with
              | |- context [?u =? ?v] => destruct (u =? v)
              end; reflexivity.
Qed.

Lemma colFold_sim (op : LineOp) (mark : nat -> nat -> nat * nat) (Hop : lineOK op)
    (idxs : list nat) :
  Forall (fun i => (i < SIZE)%nat) idxs ->
  forall (h : Grid) (mm : list (nat * nat)) (mv : bool) (t : Z),
    grid_ok h = true ->
    fold_left (colStep op mark) idxs (transpose h, mm, mv, t)
    = (let '(h', mm', mv', t') := fold_left (rowStep op mark) idxs (h, mm, mv, t) in
       (transpose h', mm', mv', t')).
Proof.
  induction 1 as [|i idxs Hi _ IH]; intros h mm mv t Hh.
  - reflexivity.
  - cbn [fold_left]. rewrite (colStep_sim op mark h mm mv t i Hop Hh Hi).
    pose proof (rowStep_OK op mark Hop h mm mv t i Hh Hi) as Hok.
    destruct (rowStep op mark (h, mm, mv, t) i) as [[[h1 mm1] mv1] t1].
    destruct Hok as (Hh1 & _). apply IH. exact Hh1.
Qed.

(** ** The four core moves through their lines *)

Lemma fold_left_ext {A B} (f g : A -> B -> A) (l : list B) :
  (forall a b, f a b = g a b) -> forall a, fold_left f l a = fold_left g l a.
Proof.
  intro H. induction l as [|b l IH]; intro a; [reflexivity|].
  cbn. rewrite H. apply IH.
Qed.

Lemma moveCore_ext (step1 step2 : Acc -> nat -> Acc) (s : State) :
  (forall a i, step1 a i = step2 a i) -> moveCore step1 s = moveCore step2 s.
Proof.
  intro H. unfold moveCore. rewrite (fold_left_ext step1 step2 _ H). reflexivity.
Qed.

Lemma existsb_rowsDiffer (f : list Z -> list Z) (g : Grid) :
  existsb (fun row => rowsDiffer row (f row)) g = true <-> map f g <> g.
Proof.
  induction g as [|row g IH]; cbn [existsb map].
  - split; [discriminate|]. intro H. contradiction.
  - rewrite orb_true_iff, IH, rowsDiffer_true. split.
    + intros [H|H] E; injection E as E1 E2; [apply H; symmetry|apply H]; assumption.
    + intro H. destruct (list_eq_dec Z.eq_dec row (f row)) as [E|E]; [|left; exact E].
      right. intro E2. apply H. rewrite <- E at 1. rewrite E2. reflexivity.
Qed.

(** A move along the rows. *)
Lemma moveCore_rows (op : LineOp) (mark : nat -> nat -> nat * nat) (s : State) :
  length (grid s) = SIZE ->
  fst (moveCore (rowStep op mark) s)
  = existsb (fun row => rowsDiffer row (lineOut op row)) (grid s)
  /\ grid (snd (moveCore (rowStep op mark) s)) = map (lineOut op) (grid s)
  /\ score (snd (moveCore (rowStep op mark) s))
     = (if 0 <? sumList (map (lineGain op) (grid s))
        then score s + sumList (map (lineGain op) (grid s)) else score s)
  /\ (forall k, In k (mergedMap (snd (moveCore (rowStep op mark) s)))
                <-> exists r i, (r < SIZE)%nat
                                /\ In i (lineMerged op (nth r (grid s) []))
                                /\ k = mark r i).
Proof.
  intro Hlen. unfold moveCore.
  pose proof (rowFold_char op mark (grid s) [] Hlen) as H.
  destruct (fold_left (rowStep op mark) (seq 0 SIZE) (grid s, [], false, 0))
    as [[[g mm] moved] total].
  destruct H as (-> & -> & -> & Hmm). cbn [fst snd].
  assert (Hk : forall k, In k mm
                         <-> exists r i, (r < SIZE)%nat
                                         /\ In i (lineMerged op (nth r (grid s) []))
                                         /\ k = mark r i).
  { intro k. rewrite Hmm. split; [intros [[]|H]; exact H|auto]. }
  destruct (0 <? sumList (map (lineGain op) (grid s))).
  - destruct (bumpScore_frame (sumList (map (lineGain op) (grid s)))
                (set_mergedMap mm (set_grid (map (lineOut op) (grid s)) s)))
      as (-> & -> & _ & _ & _ & -> & _).
    splits; auto.
  - splits; auto.
Qed.

(** A move along the columns is the move along the rows of the
    transposed board, transposed back. *)
Lemma moveCore_cols (op : LineOp) (mark : nat -> nat -> nat * nat) (s : State) :
  lineOK op -> grid_ok (grid s) = true ->
  fst (moveCore (colStep op mark) s)
  = fst (moveCore (rowStep op mark) (set_grid (transpose (grid s)) s))
  /\ grid (snd (moveCore (colStep op mark) s))
     = transpose (grid (snd (moveCore (rowStep op mark)
                                      (set_grid (transpose (grid s)) s))))
  /\ score (snd (moveCore (colStep op mark) s))
     = score (snd (moveCore (rowStep op mark) (set_grid (transpose (grid s)) s)))
  /\ mergedMap (snd (moveCore (colStep op mark) s))
     = mergedMap (snd (moveCore (rowStep op mark)
                                (set_grid (transpose (grid s)) s))).
Proof.
  intros Hop Hg. unfold moveCore. fields.
  rewrite <- (transpose_involutive (grid s) Hg) at 1 3 5 7.
  rewrite (colFold_sim op mark Hop (seq 0 SIZE) loop_indices
             (transpose (grid s)) [] false 0 (transpose_ok _ Hg)).
  destruct (fold_left (rowStep op mark) (seq 0 SIZE) (transpose (grid s), [], false, 0))
    as [[[g mm] moved] total].
  cbn [fst snd]. destruct (0 <? total).
  - destruct (bumpScore_frame total (set_mergedMap mm (set_grid (transpose g) s)))
      as (-> & -> & _ & _ & _ & -> & _).
    destruct (bumpScore_frame total
                (set_mergedMap mm (set_grid g (set_grid (transpose (grid s)) s))))
      as (-> & -> & _ & _ & _ & -> & _).
    splits; reflexivity.
  - splits; reflexivity.
Qed.

Lemma moveLeftCore_rows (s : State) :
  moveLeftCore s = moveCore (rowStep slideCombineRow (fun r ci => (r, ci))) s.
Proof. apply moveCore_ext, leftStep_shape. Qed.

Lemma moveRightCore_rows (s : State) :
  moveRightCore s
  = moveCore (rowStep slideReversed (fun r idx => (r, (SIZE - 1 - idx)%nat))) s.
Proof. apply moveCore_ext, rightStep_shape. Qed.

Lemma moveUpCore_cols (s : State) :
  moveUpCore s = moveCore (colStep slideCombineRow (fun c ridx => (ridx, c))) s.
Proof. apply moveCore_ext, upStep_shape. Qed.

Lemma moveDownCore_cols (s : State) :
  moveDownCore s
  = moveCore (colStep slideReversed (fun c idx => ((SIZE - 1 - idx)%nat, c))) s.
Proof. apply moveCore_ext, downStep_shape. Qed.

Lemma slideReversed_parts (row : list Z) :
  lineOut slideReversed row = rev (lineOut slideCombineRow (rev row))
  /\ lineMerged slideReversed row = lineMerged slideCombineRow (rev row)
  /\ lineGain slideReversed row = lineGain slideCombineRow (rev row).
Proof.
  unfold lineOut, lineMerged, lineGain, slideReversed.
  destruct (slideCombineRow (rev row)) as [[out ms] g]. splits; reflexivity.
Qed.

Lemma tileValue_nonneg (v : Z) : tileValue v -> 0 <= v.
Proof.
  intros [-> | (k & Hk & ->)]; [lia|]. apply Z.pow_nonneg. lia.
Qed.

Lemma slide_gain_nonneg (row : list Z) :
  Forall (fun v => 0 <= v) row ->
  0 <= lineGain slideCombineRow row
  /\ (lineGain slideCombineRow row = 0 -> lineMerged slideCombineRow row = []).
Proof.
  intro H. unfold lineGain, lineMerged. rewrite slideCombineRow_scan.
  unfold compactAndMerge.
  pose proof (mergeScan_gain (compact row) (compact_positive row H) 0) as Hg.
  destruct (mergeScan 0 (compact row)) as [[res ms] g]. exact Hg.
Qed.

Lemma merged_in_line (row : list Z) (i : nat) :
  length row = SIZE -> In i (lineMerged slideCombineRow row) -> (i < SIZE)%nat.
Proof.
  intros Hlen Hi. destruct (slideCombineRow_gained row) as [Hidx _].
  pose proof (slideCombineRow_lineOK row Hlen) as Hok.
  unfold lineMerged in Hi.
  destruct (slideCombineRow row) as [[out ms] g]. cbn [fst snd] in *.
  destruct Hok as (Hout & _). rewrite Hout in Hidx.
  rewrite Forall_forall in Hidx. exact (Hidx i Hi).
Qed.

Lemma sumList_nonneg (l : list Z) : Forall (fun v => 0 <= v) l -> 0 <= sumList l.
Proof.
  induction 1 as [|v l Hv _ IH]; unfold sumList in *; cbn; lia.
Qed.

Lemma tilesOnly_rows (g : Grid) (row : list Z) :
  tilesOnly g -> In row g -> Forall (fun v => 0 <= v) row.
Proof.
  unfold tilesOnly. intros Ht Hin. apply Forall_forall. intros v Hv.
  apply tileValue_nonneg. rewrite Forall_forall in Ht. apply Ht.
  apply in_concat. exists row. auto.
Qed.

Lemma gains_nonneg (g : Grid) :
  (forall row, In row g -> Forall (fun v => 0 <= v) row) ->
  0 <= sumList (map (lineGain slideCombineRow) g).
Proof.
  intro H. apply sumList_nonneg. apply Forall_forall. intros v Hv.
  apply in_map_iff in Hv as (row & <- & Hrow). apply slide_gain_nonneg, H, Hrow.
Qed.

Lemma score_after (T sc : Z) : 0 <= T -> (if 0 <? T then sc + T else sc) = sc + T.
Proof. intro H. destruct (Z.ltb_spec 0 T); lia. Qed.

(** ** The moves, line by line *)

(** X1. [moveLeftCore] slides every row on its own: the new grid is
    [slideCombineRow] applied to each row, [moved] is raised exactly when
    the grid has changed, on a board of tile values the score grows by
    the sum of what the rows gained, and the merge map holds exactly the
    positions [(r, c)] with [c] a merged index of row [r]. *)
Theorem moveLeftCore_by_rows (s : State) :
  grid_ok (grid s) = true -> tilesOnly (grid s) ->
  grid (snd (moveLeftCore s)) = map (lineOut slideCombineRow) (grid s)
  /\ (fst (moveLeftCore s) = true <-> grid (snd (moveLeftCore s)) <> grid s)
  /\ score (snd (moveLeftCore s))
     = score s + sumList (map (lineGain slideCombineRow) (grid s))
  /\ (forall r c,
         In (r, c) (mergedMap (snd (moveLeftCore s)))
         <-> (r < SIZE)%nat
             /\ In c (lineMerged slideCombineRow (nth r (grid s) []))).
Proof.
  intros Hg Ht. destruct (grid_ok_rows _ Hg) as [Hlen _].
  rewrite moveLeftCore_rows.
  destruct (moveCore_rows slideCombineRow (fun r ci => (r, ci)) s Hlen)
    as (Hm & Hgr & Hsc & Hmm).
  splits.
  - exact Hgr.
  - rewrite Hm, Hgr. apply existsb_rowsDiffer.
  - rewrite Hsc. apply score_after, gains_nonneg.
    intros row Hrow. exact (tilesOnly_rows _ _ Ht Hrow).
  - intros r c. rewrite Hmm. split.
    + intros (r' & i & Hr & Hi & E). injection E as -> ->. auto.
    + intros [Hr Hc]. exists r, c. auto.
Qed.

Lemma moveLeftCore_by_rows_witness :
  grid_ok (grid pairBoard) = true /\ tilesOnly (grid pairBoard)
  /\ grid (snd (moveLeftCore pairBoard))
     = map (lineOut slideCombineRow) (grid pairBoard).
Proof.
  assert (Ht : tilesOnly (grid pairBoard)).
  { unfold tilesOnly. cbn [grid pairBoard boardOf concat app].
    repeat (apply Forall_cons;
            [first [left; reflexivity | apply tileValue_2 | apply tileValue_4]|]).
    apply Forall_nil. }
  split; [reflexivity|]. split; [exact Ht|].
  exact (proj1 (moveLeftCore_by_rows pairBoard eq_refl Ht)).
Defined.

Lemma existsb_mirror (g : Grid) :
  existsb (fun row => rowsDiffer row (lineOut slideReversed row)) g
  = existsb (fun row => rowsDiffer row (lineOut slideCombineRow row)) (mirror g).
Proof.
  induction g as [|row g IH]; [reflexivity|].
  cbn [mirror map existsb]. fold (mirror g). rewrite IH.
  destruct (slideReversed_parts row) as (-> & _). rewrite rowsDiffer_rev.
  reflexivity.
Qed.

(** X2. [moveRightCore] is [moveLeftCore] seen in a mirror: on the board
    with every row reversed, [moveLeftCore] raises the same [moved],
    gains the same score and produces the mirrored grid, and a position
    [(r, c)] is in the merge map of the one exactly when
    [(r, SIZE - 1 - c)] is in the merge map of the other. *)
Theorem moveRightCore_mirrors_left (s : State) :
  grid_ok (grid s) = true ->
  fst (moveRightCore s) = fst (moveLeftCore (set_grid (mirror (grid s)) s))
  /\ grid (snd (moveRightCore s))
     = mirror (grid (snd (moveLeftCore (set_grid (mirror (grid s)) s))))
  /\ score (snd (moveRightCore s))
     = score (snd (moveLeftCore (set_grid (mirror (grid s)) s)))
  /\ (forall r c,
         (c < SIZE)%nat ->
         (In (r, c) (mergedMap (snd (moveRightCore s)))
          <-> In (r, (SIZE - 1 - c)%nat)
                 (mergedMap (snd (moveLeftCore (set_grid (mirror (grid s)) s)))))).
Proof.
  intro Hg. destruct (grid_ok_rows _ Hg) as [Hlen Hrows].
  rewrite moveRightCore_rows, moveLeftCore_rows.
  destruct (moveCore_rows slideReversed (fun r idx => (r, (SIZE - 1 - idx)%nat)) s Hlen)
    as (Hm & Hgr & Hsc & Hmm).
  assert (Hlen' : length (grid (set_grid (mirror (grid s)) s)) = SIZE)
    by (fields; unfold mirror; rewrite length_map; exact Hlen).
  destruct (moveCore_rows slideCombineRow (fun r ci => (r, ci))
              (set_grid (mirror (grid s)) s) Hlen')
    as (Hm' & Hgr' & Hsc' & Hmm').
  fields.
  assert (Hgain : map (lineGain slideReversed) (grid s)
                  = map (lineGain slideCombineRow) (mirror (grid s))).
  { unfold mirror. rewrite map_map. apply map_ext. intro row.
    apply slideReversed_parts. }
  assert (Hnth : forall r, nth r (mirror (grid s)) [] = rev (nth r (grid s) []))
    by (intro r; unfold mirror; exact (map_nth (@rev Z) (grid s) [] r)).
  splits.
  - rewrite Hm, Hm'. apply existsb_mirror.
  - rewrite Hgr, Hgr'. unfold mirror. rewrite !map_map. apply map_ext.
    intro row. apply slideReversed_parts.
  - rewrite Hsc, Hsc', Hgain. reflexivity.
  - intros r c Hc. rewrite Hmm, Hmm'. split.
    + intros (r' & i & Hr & Hi & E). injection E as -> ->.
      destruct (slideReversed_parts (nth r' (grid s) [])) as (_ & Hms & _).
      rewrite Hms in Hi.
      assert (Hi4 : (i < SIZE)%nat).
      { apply (merged_in_line (rev (nth r' (grid s) []))); [|exact Hi].
        rewrite length_rev. apply Hrows, nth_In. lia. }
      exists r', i. rewrite Hnth. splits; auto. f_equal. unfold SIZE in *.
      do 4 (destruct i as [|i]; [reflexivity|]). lia.
    + intros (r' & i & Hr & Hi & E). injection E as E1 E2. subst r' i.
      rewrite Hnth in Hi.
      assert (Hi4 : (SIZE - 1 - c < SIZE)%nat) by (unfold SIZE; lia).
      exists r, (SIZE - 1 - c)%nat.
      destruct (slideReversed_parts (nth r (grid s) [])) as (_ & -> & _).
      splits; auto. f_equal. unfold SIZE in *.
      do 4 (destruct c as [|c]; [reflexivity|]). lia.
Qed.

Lemma moveRightCore_mirrors_left_witness :
  grid_ok (grid pairBoard) = true
  /\ grid (snd (moveRightCore pairBoard))
     = mirror (grid (snd (moveLeftCore (set_grid (mirror (grid pairBoard)) pairBoard)))).
Proof.
  split; [reflexivity|].
  exact (proj1 (proj2 (moveRightCore_mirrors_left pairBoard eq_refl))).
Defined.

(** A move along the columns against the move along the rows of the
    transposed board, when the two mark the transposed positions. *)
Lemma cols_vs_rows (op : LineOp) (markC markR : nat -> nat -> nat * nat) (s : State) :
  lineOK op -> grid_ok (grid s) = true ->
  (forall j i, markC j i = (snd (markR j i), fst (markR j i))) ->
  fst (moveCore (colStep op markC) s)
  = fst (moveCore (rowStep op markR) (set_grid (transpose (grid s)) s))
  /\ grid (snd (moveCore (colStep op markC) s))
     = transpose (grid (snd (moveCore (rowStep op markR)
                                      (set_grid (transpose (grid s)) s))))
  /\ score (snd (moveCore (colStep op markC) s))
     = score (snd (moveCore (rowStep op markR) (set_grid (transpose (grid s)) s)))
  /\ (forall r c,
         In (r, c) (mergedMap (snd (moveCore (colStep op markC) s)))
         <-> In (c, r) (mergedMap (snd (moveCore (rowStep op markR)
                                                 (set_grid (transpose (grid s)) s))))).
Proof.
  intros Hop Hg Hmark.
  destruct (moveCore_cols op markC s Hop Hg) as (-> & -> & -> & ->).
  assert (Hlen : length (grid (set_grid (transpose (grid s)) s)) = SIZE)
    by (fields; unfold transpose; rewrite length_map, length_seq; reflexivity).
  destruct (moveCore_rows op markC _ Hlen) as (-> & -> & -> & HmC).
  destruct (moveCore_rows op markR _ Hlen) as (-> & -> & -> & HmR).
  splits; try reflexivity.
  intros r c. rewrite HmC, HmR. split.
  - intros (j & i & Hj & Hi & E). exists j, i. splits; auto.
    rewrite Hmark in E. injection E as -> ->. symmetry. apply surjective_pairing.
  - intros (j & i & Hj & Hi & E). exists j, i. splits; auto.
    rewrite Hmark, <- E. reflexivity.
Qed.

(** X3. [moveUpCore] is [moveLeftCore] on the transposed board: the same
    [moved], the same score, the transposed grid, and [(r, c)] is in its
    merge map exactly when [(c, r)] is in the other's. *)
Theorem moveUpCore_transposes_left (s : State) :
  grid_ok (grid s) = true ->
  fst (moveUpCore s) = fst (moveLeftCore (set_grid (transpose (grid s)) s))
  /\ grid (snd (moveUpCore s))
     = transpose (grid (snd (moveLeftCore (set_grid (transpose (grid s)) s))))
  /\ score (snd (moveUpCore s))
     = score (snd (moveLeftCore (set_grid (transpose (grid s)) s)))
  /\ (forall r c,
         In (r, c) (mergedMap (snd (moveUpCore s)))
         <-> In (c, r)
                (mergedMap (snd (moveLeftCore (set_grid (transpose (grid s)) s))))).
Proof.
  intro Hg. rewrite moveUpCore_cols, moveLeftCore_rows.
  apply cols_vs_rows; [exact slideCombineRow_lineOK|exact Hg|reflexivity].
Qed.

Lemma moveUpCore_transposes_left_witness :
  grid_ok (grid pairBoard) = true
  /\ fst (moveUpCore pairBoard)
     = fst (moveLeftCore (set_grid (transpose (grid pairBoard)) pairBoard)).
Proof.
  split; [reflexivity|].
  exact (proj1 (moveUpCore_transposes_left pairBoard eq_refl)).
Defined.

(** X4. [moveDownCore] is [moveRightCore] on the transposed board, in
    the same sense. *)
Theorem moveDownCore_transposes_right (s : State) :
  grid_ok (grid s) = true ->
  fst (moveDownCore s) = fst (moveRightCore (set_grid (transpose (grid s)) s))
  /\ grid (snd (moveDownCore s))
     = transpose (grid (snd (moveRightCore (set_grid (transpose (grid s)) s))))
  /\ score (snd (moveDownCore s))
     = score (snd (moveRightCore (set_grid (transpose (grid s)) s)))
  /\ (forall r c,
         In (r, c) (mergedMap (snd (moveDownCore s)))
         <-> In (c, r)
                (mergedMap (snd (moveRightCore (set_grid (transpose (grid s)) s))))).
Proof.
  intro Hg. rewrite moveDownCore_cols, moveRightCore_rows.
  apply cols_vs_rows; [exact slideReversed_lineOK|exact Hg|reflexivity].
Qed.

Lemma moveDownCore_transposes_right_witness :
  grid_ok (grid pairBoard) = true
  /\ fst (moveDownCore pairBoard)
     = fst (moveRightCore (set_grid (transpose (grid pairBoard)) pairBoard)).
Proof.
  split; [reflexivity|].
  exact (proj1 (moveDownCore_transposes_right pairBoard eq_refl)).
Defined.

(** ** [moved] and the board *)

Lemma lineOut_length (op : LineOp) (l : list Z) :
  lineOK op -> length l = SIZE -> length (lineOut op l) = SIZE.
Proof.
  intros Hop Hl. specialize (Hop l Hl). unfold lineOut.
  destruct (op l) as [[out ms] g]. apply Hop.
Qed.

Lemma map_lineOut_ok (op : LineOp) (g : Grid) :
  lineOK op -> grid_ok g = true -> grid_ok (map (lineOut op) g) = true.
Proof.
  intros Hop Hg. destruct (grid_ok_rows g Hg) as [Hlen Hrows].
  unfold grid_ok. rewrite length_map, Hlen, Nat.eqb_refl. cbn [andb].
  apply forallb_forall. intros row Hrow. apply in_map_iff in Hrow as (l & <- & Hl).
  apply Nat.eqb_eq, lineOut_length; [exact Hop|apply Hrows, Hl].
Qed.

Lemma rows_moved_iff (op : LineOp) (mark : nat -> nat -> nat * nat) (s : State) :
  length (grid s) = SIZE ->
  fst (moveCore (rowStep op mark) s) = true
  <-> grid (snd (moveCore (rowStep op mark) s)) <> grid s.
Proof.
  intro Hlen. destruct (moveCore_rows op mark s Hlen) as (-> & -> & _).
  apply existsb_rowsDiffer.
Qed.

Lemma cols_moved_iff (op : LineOp) (mark : nat -> nat -> nat * nat) (s : State) :
  lineOK op -> grid_ok (grid s) = true ->
  fst (moveCore (colStep op mark) s) = true
  <-> grid (snd (moveCore (colStep op mark) s)) <> grid s.
Proof.
  intros Hop Hg.
  destruct (moveCore_cols op mark s Hop Hg) as (-> & -> & _).
  assert (Hlen : length (grid (set_grid (transpose (grid s)) s)) = SIZE)
    by (fields; unfold transpose; rewrite length_map, length_seq; reflexivity).
  rewrite (rows_moved_iff op mark _ Hlen).
  destruct (moveCore_rows op mark _ Hlen) as (_ & Hgr & _). rewrite Hgr. fields.
  pose proof (map_lineOut_ok op _ Hop (transpose_ok _ Hg)) as Hok.
  split; intros H E; apply H.
  - transitivity (transpose (transpose (map (lineOut op) (transpose (grid s)))));
      [symmetry; apply transpose_involutive, Hok|rewrite E; reflexivity].
  - rewrite E. apply transpose_involutive, Hg.
Qed.

(** X5. In each of the four core moves the returned [moved] is [true]
    exactly when the grid the move leaves differs from the grid it
    found. *)
Theorem moved_iff_grid_changed (s : State) :
  grid_ok (grid s) = true ->
  (fst (moveLeftCore s) = true <-> grid (snd (moveLeftCore s)) <> grid s)
  /\ (fst (moveRightCore s) = true <-> grid (snd (moveRightCore s)) <> grid s)
  /\ (fst (moveUpCore s) = true <-> grid (snd (moveUpCore s)) <> grid s)
  /\ (fst (moveDownCore s) = true <-> grid (snd (moveDownCore s)) <> grid s).
Proof.
  intro Hg. destruct (grid_ok_rows _ Hg) as [Hlen _].
  rewrite moveLeftCore_rows, moveRightCore_rows, moveUpCore_cols, moveDownCore_cols.
  splits.
  - apply rows_moved_iff, Hlen.
  - apply rows_moved_iff, Hlen.
  - apply cols_moved_iff; [exact slideCombineRow_lineOK|exact Hg].
  - apply cols_moved_iff; [exact slideReversed_lineOK|exact Hg].
Qed.

Lemma moved_iff_grid_changed_witness :
  grid_ok (grid pairBoard) = true
  /\ (fst (moveUpCore pairBoard) = true
      <-> grid (snd (moveUpCore pairBoard)) <> grid pairBoard).
Proof.
  split; [reflexivity|].
  exact (proj1 (proj2 (proj2 (moved_iff_grid_changed pairBoard eq_refl)))).
Defined.

(** ** Boards without a move *)

Ltac stuck_facts H :=
  unfold hasMoves, cell in H;
  cbn [existsb seq SIZE nth Nat.ltb Nat.leb Nat.sub Nat.add andb orb] in H;
  repeat rewrite orb_false_iff in H;
  decompose [and] H; clear H;
  repeat match goal with
         | E : (_ =? _) = false |- _ => apply Z.eqb_neq in E
         end.

Ltac row_stuck :=
  repeat match goal with
         | |- context [lineOut ?op [?a; ?b; ?c; ?d]] =>
             let E := fresh "E" in
             assert (E : lineOut op [a; b; c; d] = [a; b; c; d])
               by (unfold lineOut;
                   first [ rewrite (proj1 (line_stuck a b c d
                             ltac:(assumption) ltac:(assumption) ltac:(assumption)
                             ltac:(assumption) ltac:(assumption) ltac:(assumption)
                             ltac:(assumption)))
                         | rewrite (proj2 (line_stuck a b c d
                             ltac:(assumption) ltac:(assumption) ltac:(assumption)
                             ltac:(assumption) ltac:(assumption) ltac:(assumption)
                             ltac:(assumption))) ];
                   reflexivity);
             rewrite E; clear E
         end.

Lemma rowsDiffer_same (a : list Z) : rowsDiffer a a = false.
Proof. apply rowsDiffer_false. reflexivity. Qed.

Lemma stuck_rows (op : LineOp) (g : Grid) :
  op = slideCombineRow \/ op = slideReversed ->
  grid_ok g = true -> hasMoves g = false ->
  existsb (fun row => rowsDiffer row (lineOut op row)) g = false
  /\ existsb (fun row => rowsDiffer row (lineOut op row)) (transpose g) = false.
Proof.
  intros Hop Hg H. grid_cells Hg. stuck_facts H.
  unfold transpose, column, cell. cbn [map seq SIZE nth existsb].
  destruct Hop as [-> | ->]; row_stuck; rewrite !rowsDiffer_same; split; reflexivity.
Qed.

(** A board without a move, under the four core moves. *)
Lemma stuck_board_moves (s : State) :
  grid_ok (grid s) = true -> hasMoves (grid s) = false ->
  fst (moveLeftCore s) = false /\ fst (moveRightCore s) = false
  /\ fst (moveUpCore s) = false /\ fst (moveDownCore s) = false
  /\ (forall direction, changed direction s = false).
Proof.
  intros Hg Hno. destruct (grid_ok_rows _ Hg) as [Hlen _].
  assert (HL : fst (moveLeftCore s) = false).
  { rewrite moveLeftCore_rows.
    destruct (moveCore_rows slideCombineRow (fun r ci => (r, ci)) s Hlen) as (-> & _).
    apply (stuck_rows slideCombineRow); auto. }
  assert (HR : fst (moveRightCore s) = false).
  { rewrite moveRightCore_rows.
    destruct (moveCore_rows slideReversed
                (fun r idx => (r, (SIZE - 1 - idx)%nat)) s Hlen) as (-> & _).
    apply (stuck_rows slideReversed); auto. }
  assert (Hlen' : length (grid (set_grid (transpose (grid s)) s)) = SIZE)
    by (fields; unfold transpose; rewrite length_map, length_seq; reflexivity).
  assert (HU : fst (moveUpCore s) = false).
  { rewrite moveUpCore_cols.
    destruct (moveCore_cols slideCombineRow (fun c ridx => (ridx, c)) s
                slideCombineRow_lineOK Hg) as (-> & _).
    destruct (moveCore_rows slideCombineRow (fun c ridx => (ridx, c)) _ Hlen')
      as (-> & _).
    fields. apply (stuck_rows slideCombineRow); auto. }
  assert (HD : fst (moveDownCore s) = false).
  { rewrite moveDownCore_cols.
    destruct (moveCore_cols slideReversed
                (fun c idx => ((SIZE - 1 - idx)%nat, c)) s
                slideReversed_lineOK Hg) as (-> & _).
    destruct (moveCore_rows slideReversed
                (fun c idx => ((SIZE - 1 - idx)%nat, c)) _ Hlen') as (-> & _).
    fields. apply (stuck_rows slideReversed); auto. }
  splits; auto.
  intro direction. unfold changed.
  destruct (gameOver s || gameWon s); [reflexivity|].
  destruct (dispatch_cases direction s) as [(_ & step & Hin & ->)|(_ & ->)];
    [|reflexivity].
  cbn [In] in Hin. destruct Hin as [<-|[<-|[<-|[<-|[]]]]]; assumption.
Qed.

(** X6. On a board where [hasMoves] answers [false], none of the four
    core moves changes anything: each returns [moved = false], and so
    [handleMove] finds nothing changed in any direction. *)
Theorem no_moves_nothing_moves (s : State) :
  grid_ok (grid s) = true -> hasMoves (grid s) = false ->
  fst (moveLeftCore s) = false /\ fst (moveRightCore s) = false
  /\ fst (moveUpCore s) = false /\ fst (moveDownCore s) = false
  /\ (forall direction, changed direction s = false).
Proof. apply stuck_board_moves. Qed.

Lemma no_moves_nothing_moves_witness :
  grid_ok (grid stuckBoard) = true /\ hasMoves (grid stuckBoard) = false
  /\ fst (moveLeftCore stuckBoard) = false.
Proof.
  split; [reflexivity|]. split; [reflexivity|].
  exact (proj1 (no_moves_nothing_moves stuckBoard eq_refl eq_refl)).
Defined.

(** ** Boards with a move *)

Lemma hole_line_slides (l : list Z) :
  length l = SIZE -> In 0 l -> (exists v, In v l /\ v <> 0) ->
  lineOut slideCombineRow l <> l \/ lineOut slideReversed l <> l.
Proof.
  intros Hl Hz (v & Hv & Hnz). line4 l Hl. cbn [In] in *.
  apply line_with_hole_slides; [intuition auto|].
  destruct Hv as [<-|[<-|[<-|[<-|[]]]]]; auto.
Qed.

Lemma pair_line_slides (l : list Z) (c : nat) :
  length l = SIZE -> (c < SIZE - 1)%nat ->
  nth c l 0 = nth (c + 1) l 0 -> nth c l 0 <> 0 ->
  lineOut slideCombineRow l <> l.
Proof.
  intros Hl Hc Heq Hnz. line4 l Hl. unfold SIZE in Hc.
  apply line_with_pair_slides.
  destruct c as [|[|[|c]]]; cbn [nth Nat.add] in *; [auto|auto|auto|lia].
Qed.

Lemma row_differs (op : LineOp) (g : Grid) (r : nat) :
  (r < length g)%nat -> lineOut op (nth r g []) <> nth r g [] ->
  existsb (fun row => rowsDiffer row (lineOut op row)) g = true.
Proof.
  intros Hr Hne. apply existsb_exists. exists (nth r g []). split.
  - apply nth_In, Hr.
  - apply rowsDiffer_true. intro E. apply Hne. symmetry. exact E.
Qed.

Lemma transpose_nth (g : Grid) (c : nat) :
  (c < SIZE)%nat -> nth c (transpose g) [] = column g c.
Proof. intro Hc. index4 c Hc; reflexivity. Qed.

Lemma column_nth (g : Grid) (r c : nat) :
  (r < SIZE)%nat -> nth r (column g c) 0 = cell g r c.
Proof. intro Hr. index4 r Hr; reflexivity. Qed.

Lemma column_length (g : Grid) (c : nat) : length (column g c) = SIZE.
Proof. unfold column. rewrite length_map, length_seq. reflexivity. Qed.

Lemma core_flags (s : State) :
  grid_ok (grid s) = true ->
  fst (moveLeftCore s)
  = existsb (fun row => rowsDiffer row (lineOut slideCombineRow row)) (grid s)
  /\ fst (moveRightCore s)
     = existsb (fun row => rowsDiffer row (lineOut slideReversed row)) (grid s)
  /\ fst (moveUpCore s)
     = existsb (fun row => rowsDiffer row (lineOut slideCombineRow row))
               (transpose (grid s))
  /\ fst (moveDownCore s)
     = existsb (fun row => rowsDiffer row (lineOut slideReversed row))
               (transpose (grid s)).
Proof.
  intro Hg. destruct (grid_ok_rows _ Hg) as [Hlen _].
  assert (Hlen' : length (grid (set_grid (transpose (grid s)) s)) = SIZE)
    by (fields; unfold transpose; rewrite length_map, length_seq; reflexivity).
  rewrite moveLeftCore_rows, moveRightCore_rows, moveUpCore_cols, moveDownCore_cols.
  splits.
  - apply moveCore_rows, Hlen.
  - apply moveCore_rows, Hlen.
  - destruct (moveCore_cols slideCombineRow (fun c ridx => (ridx, c)) s
                slideCombineRow_lineOK Hg) as (-> & _).
    destruct (moveCore_rows slideCombineRow (fun c ridx => (ridx, c)) _ Hlen')
      as (-> & _). reflexivity.
  - destruct (moveCore_cols slideReversed
                (fun c idx => ((SIZE - 1 - idx)%nat, c)) s
                slideReversed_lineOK Hg) as (-> & _).
    destruct (moveCore_rows slideReversed
                (fun c idx => ((SIZE - 1 - idx)%nat, c)) _ Hlen') as (-> & _).
    reflexivity.
Qed.

Lemma changed_live (s : State) :
  gameOver s || gameWon s = false ->
  changed "left" s = fst (moveLeftCore s)
  /\ changed "right" s = fst (moveRightCore s)
  /\ changed "up" s = fst (moveUpCore s)
  /\ changed "down" s = fst (moveDownCore s).
Proof. intro H. unfold changed. rewrite H. splits; reflexivity. Qed.

(** A board with a tile and a move, under the four core moves. *)
Lemma open_board_moves (s : State) :
  grid_ok (grid s) = true -> hasMoves (grid s) = true ->
  (exists r c, (r < SIZE)%nat /\ (c < SIZE)%nat /\ cell (grid s) r c <> 0) ->
  (fst (moveLeftCore s) = true \/ fst (moveRightCore s) = true
   \/ fst (moveUpCore s) = true \/ fst (moveDownCore s) = true)
  /\ (gameOver s || gameWon s = false ->
      exists direction, validDirection direction = true
                        /\ changed direction s = true).
Proof.
  intros Hg Hmoves (r' & c' & Hr' & Hc' & Htile).
  destruct (grid_ok_rows _ Hg) as [Hlen Hrows].
  destruct (core_flags s Hg) as (FL & FR & FU & FD).
  assert (Hrow : forall r, (r < SIZE)%nat -> length (nth r (grid s) []) = SIZE)
    by (intros r Hr; apply Hrows, nth_In; lia).
  assert (HlenT : length (transpose (grid s)) = SIZE)
    by (unfold transpose; rewrite length_map, length_seq; reflexivity).
  assert (Hhole : forall r c, (r < SIZE)%nat -> (c < SIZE)%nat ->
                              cell (grid s) r c = 0 ->
                              fst (moveLeftCore s) = true \/ fst (moveRightCore s) = true
                              \/ fst (moveUpCore s) = true
                              \/ fst (moveDownCore s) = true).
  { intros r c Hr Hc Hz.
    destruct (Z.eq_dec (cell (grid s) r c') 0) as [Hz'|Hnz'].
    - assert (H : lineOut slideCombineRow (column (grid s) c') <> column (grid s) c'
                  \/ lineOut slideReversed (column (grid s) c') <> column (grid s) c').
      { apply hole_line_slides.
        - apply column_length.
        - rewrite <- Hz'. rewrite <- (column_nth (grid s) r c' Hr).
          apply nth_In. rewrite column_length. exact Hr.
        - exists (cell (grid s) r' c'). split; [|exact Htile].
          rewrite <- (column_nth (grid s) r' c' Hr').
          apply nth_In. rewrite column_length. exact Hr'. }
      rewrite <- (transpose_nth (grid s) c' Hc') in H.
      destruct H as [H|H]; [right; right; left; rewrite FU
                           |right; right; right; rewrite FD];
        apply (row_differs _ _ c'); auto; lia.
    - assert (H : lineOut slideCombineRow (nth r (grid s) []) <> nth r (grid s) []
                  \/ lineOut slideReversed (nth r (grid s) []) <> nth r (grid s) []).
      { apply hole_line_slides.
        - apply Hrow, Hr.
        - rewrite <- Hz. apply nth_In. rewrite Hrow; assumption.
        - exists (cell (grid s) r c'). split; [|exact Hnz'].
          apply nth_In. rewrite Hrow; assumption. }
      destruct H as [H|H]; [left; rewrite FL|right; left; rewrite FR];
        apply (row_differs _ _ r); auto; lia. }
  assert (Hany : fst (moveLeftCore s) = true \/ fst (moveRightCore s) = true
                 \/ fst (moveUpCore s) = true \/ fst (moveDownCore s) = true).
  { apply hasMoves_true in Hmoves
      as (r & c & Hr & Hc & [Hz|[[Hc1 Heq]|[Hr1 Heq]]]).
    - exact (Hhole r c Hr Hc Hz).
    - destruct (Z.eq_dec (cell (grid s) r c) 0) as [Hz|Hnz];
        [exact (Hhole r c Hr Hc Hz)|].
      left. rewrite FL. apply (row_differs _ _ r); [lia|].
      apply (pair_line_slides _ c); auto.
    - destruct (Z.eq_dec (cell (grid s) r c) 0) as [Hz|Hnz];
        [exact (Hhole r c Hr Hc Hz)|].
      right. right. left. rewrite FU. apply (row_differs _ _ c); [lia|].
      rewrite (transpose_nth _ _ Hc). apply (pair_line_slides _ r).
      + apply column_length.
      + exact Hr1.
      + rewrite !column_nth by (unfold SIZE in *; lia). exact Heq.
      + rewrite column_nth by exact Hr. exact Hnz. }
  split; [exact Hany|].
  intro Hlive. destruct (changed_live s Hlive) as (CL & CR & CU & CD).
  destruct Hany as [H|[H|[H|H]]];
    [exists "left"%string|exists "right"%string|exists "up"%string
     |exists "down"%string]; (split; [reflexivity|congruence]).
Qed.

(** X7. On a board that holds a tile and where [hasMoves] answers
    [true], at least one of the four core moves returns [moved = true]:
    in a live game some direction changes the board. *)
Theorem has_moves_something_moves (s : State) :
  grid_ok (grid s) = true -> hasMoves (grid s) = true ->
  (exists r c, (r < SIZE)%nat /\ (c < SIZE)%nat /\ cell (grid s) r c <> 0) ->
  (fst (moveLeftCore s) = true \/ fst (moveRightCore s) = true
   \/ fst (moveUpCore s) = true \/ fst (moveDownCore s) = true)
  /\ (gameOver s || gameWon s = false ->
      exists direction, validDirection direction = true
                        /\ changed direction s = true).
Proof. apply open_board_moves. Qed.

Lemma has_moves_something_moves_witness :
  grid_ok (grid pairBoard) = true /\ hasMoves (grid pairBoard) = true
  /\ (fst (moveLeftCore pairBoard) = true \/ fst (moveRightCore pairBoard) = true
      \/ fst (moveUpCore pairBoard) = true \/ fst (moveDownCore pairBoard) = true).
Proof.
  split; [reflexivity|]. split; [reflexivity|].
  refine (proj1 (has_moves_something_moves pairBoard eq_refl eq_refl _)).
  exists 0%nat, 0%nat. unfold SIZE. cbn. repeat split; try lia.
Defined.

(** ** The board as one list of cells *)

Lemma concat_setCell (g : Grid) (r c : nat) (v : Z) :
  grid_ok g = true -> (r < SIZE)%nat -> (c < SIZE)%nat ->
  concat (setCell r c v g) = assign (SIZE * r + c) v (concat g).
Proof.
  intros Hg Hr Hc. grid_cells Hg. index4 r Hr; index4 c Hc; reflexivity.
Qed.

Lemma cell_concat (g : Grid) (r c : nat) :
  grid_ok g = true -> (r < SIZE)%nat -> (c < SIZE)%nat ->
  cell g r c = nth (SIZE * r + c) (concat g) 0.
Proof.
  intros Hg Hr Hc. grid_cells Hg. index4 r Hr; index4 c Hc; reflexivity.
Qed.

Lemma concat_length (g : Grid) :
  grid_ok g = true -> length (concat g) = (SIZE * SIZE)%nat.
Proof. intro Hg. grid_cells Hg. reflexivity. Qed.

Lemma nth_split (l : list Z) :
  forall i, (i < length l)%nat -> l = firstn i l ++ nth i l 0 :: skipn (S i) l.
Proof.
  induction l as [|a l IH]; intros i Hi; [cbn in Hi; lia|].
  destruct i as [|i]; [reflexivity|].
  cbn [firstn nth skipn app]. f_equal. apply IH. cbn in Hi. lia.
Qed.

Lemma assign_split (l : list Z) (i : nat) (v : Z) :
  (i < length l)%nat -> assign i v l = firstn i l ++ v :: skipn (S i) l.
Proof.
  intro Hi. unfold assign. destruct (Nat.ltb_spec i (length l)); [reflexivity|lia].
Qed.

(** Writing a tile over an empty place adds one tile. *)
Lemma compact_assign (l : list Z) (i : nat) (v : Z) :
  (i < length l)%nat -> nth i l 0 = 0 -> v <> 0 ->
  length (compact (assign i v l)) = S (length (compact l)).
Proof.
  intros Hi Hz Hv. rewrite (assign_split l i v Hi).
  rewrite (nth_split l i Hi) at 3. rewrite Hz.
  unfold compact. rewrite !filter_app. cbn [filter].
  destruct (Z.eqb_spec v 0); [contradiction|].
  cbn [negb Z.eqb]. rewrite !length_app. cbn [length]. lia.
Qed.

Lemma In_assign (l : list Z) (i : nat) (v x : Z) :
  In x (assign i v l) -> x = v \/ In x l.
Proof.
  unfold assign. destruct (Nat.ltb_spec i (length l)) as [Hi|Hi]; [|auto].
  intro H. apply in_app_or in H as [H|[<-|H]].
  - right. rewrite <- (firstn_skipn i l). apply in_or_app. left. exact H.
  - left. reflexivity.
  - right. rewrite <- (firstn_skipn (S i) l). apply in_or_app. right. exact H.
Qed.

Lemma has2048_In (g : Grid) : has2048 g = true <-> In 2048 (concat g).
Proof.
  unfold has2048. rewrite existsb_exists, in_concat. split.
  - intros (row & Hrow & H). apply existsb_exists in H as (v & Hv & E).
    apply Z.eqb_eq in E. subst v. exists row. auto.
  - intros (row & Hrow & Hv). exists row. split; [exact Hrow|].
    apply existsb_exists. exists 2048. split; [exact Hv|reflexivity].
Qed.

Lemma hasEmpty_hasMoves (g : Grid) :
  grid_ok g = true -> hasEmpty g -> hasMoves g = true.
Proof.
  intros Hg He. apply (hasEmpty_cells g Hg) in He.
  destruct (emptyCells g) as [|p l] eqn:E; [contradiction|].
  assert (Hin : In p (emptyCells g)) by (rewrite E; left; reflexivity).
  apply emptyCells_In in Hin as (Hr & Hc & Hz).
  apply hasMoves_true. exists (pos_r p), (pos_c p). auto.
Qed.

Lemma few_tiles_hasEmpty (g : Grid) :
  (countTiles g < length (concat g))%nat -> hasEmpty g.
Proof.
  unfold countTiles, hasEmpty, compact. generalize (concat g) as l.
  induction l as [|a l IH]; cbn [filter length]; [lia|].
  destruct (Z.eqb_spec a 0) as [->|Hne]; cbn [negb length]; intro H.
  - left. reflexivity.
  - right. apply IH. lia.
Qed.

(** A spawn on a board with an empty cell: one more tile, 2 or 4, and
    every cell is an old cell or the new tile. *)
Lemma addRandomTile_count (rnd : Rand) (s : State) :
  valid_rand rnd -> grid_ok (grid s) = true -> hasEmpty (grid s) ->
  grid_ok (grid (snd (addRandomTile rnd s))) = true
  /\ fst (addRandomTile rnd s) = lastAddedPos (snd (addRandomTile rnd s))
  /\ fst (addRandomTile rnd s) <> None
  /\ countTiles (grid (snd (addRandomTile rnd s))) = S (countTiles (grid s))
  /\ (forall x, In x (concat (grid (snd (addRandomTile rnd s)))) ->
                x = 2 \/ x = 4 \/ In x (concat (grid s))).
Proof.
  intros Hrnd Hg He.
  destruct (addRandomTile_cases rnd s Hrnd) as [[E _]|(pos & _ & Hin & ->)].
  { apply (hasEmpty_cells _ Hg) in He. contradiction. }
  apply emptyCells_In in Hin as (Hr & Hc & Hz). fields.
  destruct (setCell_empty (grid s) _ _ (randomValue (rand_value rnd)) Hg Hr Hc Hz)
    as (Hg' & _).
  assert (Hk : (SIZE * pos_r pos + pos_c pos < length (concat (grid s)))%nat)
    by (rewrite (concat_length _ Hg); unfold SIZE in *; lia).
  rewrite (concat_setCell _ _ _ _ Hg Hr Hc). unfold countTiles.
  rewrite (concat_setCell _ _ _ _ Hg Hr Hc).
  splits.
  - exact Hg'.
  - reflexivity.
  - discriminate.
  - apply compact_assign; [exact Hk| |].
    + rewrite <- (cell_concat _ _ _ Hg Hr Hc). exact Hz.
    + destruct (randomValue_cases (rand_value rnd)) as [[_ ->]|[_ ->]]; discriminate.
  - intros x Hx. apply In_assign in Hx as [->|Hx]; [|auto].
    destruct (randomValue_cases (rand_value rnd)) as [[_ ->]|[_ ->]]; auto.
Qed.

Lemma addRandomTile_frame (rnd : Rand) (s : State) :
  score (snd (addRandomTile rnd s)) = score s
  /\ lastGrid (snd (addRandomTile rnd s)) = lastGrid s
  /\ lastScore (snd (addRandomTile rnd s)) = lastScore s
  /\ mergedMap (snd (addRandomTile rnd s)) = mergedMap s
  /\ gameOver (snd (addRandomTile rnd s)) = gameOver s
  /\ gameWon (snd (addRandomTile rnd s)) = gameWon s
  /\ bestScore (snd (addRandomTile rnd s)) = bestScore s
  /\ message (snd (addRandomTile rnd s)) = message s.
Proof.
  unfold addRandomTile.
  destruct (emptyCells (grid s)); [|destruct (nth_error _ _)];
    splits; reflexivity.
Qed.

Lemma updateScoreDisplay_best (s : State) :
  bestScore (updateScoreDisplay s) = Z.max (bestScore s) (score s).
Proof.
  unfold updateScoreDisplay. destruct (Z.ltb_spec (bestScore s) (score s));
    fields; lia.
Qed.

(** What [initGame] leaves behind. *)
Lemma initGame_state (rnd1 rnd2 : Rand) (s : State) :
  valid_rand rnd1 -> valid_rand rnd2 ->
  grid_ok (grid (initGame rnd1 rnd2 s)) = true
  /\ countTiles (grid (initGame rnd1 rnd2 s)) = 2%nat
  /\ (forall x, In x (concat (grid (initGame rnd1 rnd2 s))) ->
                x = 0 \/ x = 2 \/ x = 4)
  /\ score (initGame rnd1 rnd2 s) = 0
  /\ lastScore (initGame rnd1 rnd2 s) = 0
  /\ lastGrid (initGame rnd1 rnd2 s) = None
  /\ lastAddedPos (initGame rnd1 rnd2 s) <> None
  /\ mergedMap (initGame rnd1 rnd2 s) = []
  /\ gameOver (initGame rnd1 rnd2 s) = false
  /\ gameWon (initGame rnd1 rnd2 s) = false
  /\ message (initGame rnd1 rnd2 s) = MsgEmpty
  /\ bestScore (initGame rnd1 rnd2 s) = Z.max (bestScore s) 0
  /\ hasMoves (grid (initGame rnd1 rnd2 s)) = true
  /\ has2048 (grid (initGame rnd1 rnd2 s)) = false.
Proof.
  intros H1 H2. unfold initGame, render.
  set (s0 := mkState (repeat (repeat 0 SIZE) SIZE) 0 None 0 None [] false false
                     (bestScore s) MsgEmpty).
  assert (He0 : hasEmpty (grid s0)) by (left; reflexivity).
  destruct (addRandomTile_count rnd1 s0 H1 eq_refl He0)
    as (Hg1 & _ & _ & Hc1 & Hin1).
  destruct (addRandomTile_frame rnd1 s0) as (A1 & A2 & A3 & A4 & A5 & A6 & A7 & A8).
  set (s1 := snd (addRandomTile rnd1 s0)) in *.
  assert (He1 : hasEmpty (grid s1)).
  { apply few_tiles_hasEmpty. rewrite Hc1, (concat_length _ Hg1). cbn. lia. }
  destruct (addRandomTile_count rnd2 s1 H2 Hg1 He1)
    as (Hg2 & Hpos & Hsome & Hc2 & Hin2).
  destruct (addRandomTile_frame rnd2 s1) as (B1 & B2 & B3 & B4 & B5 & B6 & B7 & B8).
  set (s2 := snd (addRandomTile rnd2 s1)) in *.
  assert (He2 : hasEmpty (grid s2)).
  { apply few_tiles_hasEmpty. rewrite Hc2, Hc1, (concat_length _ Hg2). cbn. lia. }
  assert (Hcells : forall x, In x (concat (grid s2)) -> x = 0 \/ x = 2 \/ x = 4).
  { intros x Hx. destruct (Hin2 x Hx) as [->|[->|Hx1]]; auto.
    destruct (Hin1 x Hx1) as [->|[->|Hx0]]; auto.
    left. apply in_concat in Hx0 as (row & Hrow & Hx0).
    apply repeat_spec in Hrow. subst row. apply repeat_spec in Hx0. exact Hx0. }
  destruct (updateScoreDisplay_frame (updateScoreDisplay s2))
    as (E1 & E2 & E3 & E4 & E5 & E6 & E7 & E8 & E9).
  destruct (updateScoreDisplay_frame s2)
    as (F1 & F2 & F3 & F4 & F5 & F6 & F7 & F8 & F9).
  rewrite E1, E2, E3, E4, E5, E6, E7, E8, E9, F1, F2, F3, F4, F5, F6, F7, F8, F9.
  rewrite !updateScoreDisplay_best, F2.
  rewrite B1, B2, B3, B4, B5, B6, B7, B8, A1, A2, A3, A4, A5, A6, A7, A8.
  splits; try reflexivity.
  - exact Hg2.
  - rewrite Hc2, Hc1. reflexivity.
  - exact Hcells.
  - rewrite <- Hpos. exact Hsome.
  - cbn [bestScore score s0]. lia.
  - apply hasEmpty_hasMoves; assumption.
  - apply not_true_iff_false. intro H. apply has2048_In in H.
    destruct (Hcells _ H) as [E|[E|E]]; discriminate.
Qed.



(** ** The flags and the board *)

(** The state a changed move hands to the terminal check. *)
Lemma handleMove_changed_shape (s : State) (direction : string) (rnd : Rand) :
  changed direction s = true ->
  exists s1 t,
    dispatch direction s = (true, s1)
    /\ handleMove direction rnd s = checkGameState t
    /\ gameOver t = false /\ gameWon t = false
    /\ lastGrid t = Some (grid s) /\ lastScore t = score s
    /\ score t = score s1
    /\ bestScore t = Z.max (bestScore s1) (score s1)
    /\ grid t = grid (snd (addRandomTile rnd
                             (set_undo (Some (copyGrid (grid s))) (score s) s1))).
Proof.
  intro Hch.
  destruct (handleMove_changed s direction rnd Hch) as (Ho & Hw & s1 & Hd & ->).
  exists s1. eexists. split; [exact Hd|]. split; [reflexivity|].
  destruct (dispatch_flags s direction) as [Do Dw]. rewrite Hd in Do, Dw.
  cbn [snd] in Do, Dw. unfold render.
  set (s2 := set_undo (Some (copyGrid (grid s))) (score s) s1).
  destruct (addRandomTile_frame rnd s2) as (A1 & A2 & A3 & A4 & A5 & A6 & A7 & A8).
  destruct (updateScoreDisplay_frame (snd (addRandomTile rnd s2)))
    as (F1 & F2 & F3 & F4 & F5 & F6 & F7 & F8 & F9).
  rewrite updateScoreDisplay_best, F1, F2, F3, F4, F7, F8, A1, A2, A3, A5, A6, A7.
  unfold s2. fields. rewrite copyGrid_id. splits; congruence.
Qed.

Lemma checkGameState_flagsMatch (t : State) (g : Grid) :
  gameOver t = false -> gameWon t = false -> lastGrid t = Some g ->
  has2048 g = false -> hasMoves g = true ->
  flagsMatch (checkGameState t).
Proof.
  intros Ho Hw Hl H1 H2. unfold flagsMatch, checkGameState. rewrite Hw.
  cbn [negb]. rewrite andb_true_r.
  destruct (has2048 (grid t)) eqn:E48; fields.
  - rewrite E48, Ho, Hl. splits; try reflexivity.
    intros lg E. injection E as <-. auto.
  - destruct (hasMoves (grid t)) eqn:Em; cbn [negb]; fields;
      rewrite E48, Em, ?Ho, ?Hw, Hl;
      splits; try reflexivity; intros lg E; injection E as <-; auto.
Qed.

Lemma flagsMatch_live (s : State) :
  flagsMatch s -> gameOver s || gameWon s = false ->
  has2048 (grid s) = false /\ hasMoves (grid s) = true.
Proof.
  intros (Hw & Ho & _) Hlive. apply orb_false_iff in Hlive as [Eo Ew].
  rewrite Ew in Hw. rewrite Eo, <- Hw in Ho. cbn [negb andb] in Ho.
  split; [congruence|].
  destruct (hasMoves (grid s)) eqn:E; [reflexivity|]. discriminate.
Qed.

Lemma handleMove_flagsMatch (s : State) (direction : string) (rnd : Rand) :
  grid_ok (grid s) = true -> flagsMatch s ->
  flagsMatch (handleMove direction rnd s).
Proof.
  intros Hg Hf. destruct (gameOver s || gameWon s) eqn:Hterm.
  { rewrite handleMove_terminal by exact Hterm. exact Hf. }
  destruct (flagsMatch_live s Hf Hterm) as [H48 Hm].
  destruct (changed direction s) eqn:Hch.
  - destruct (handleMove_changed_shape s direction rnd Hch)
      as (s1 & t & _ & -> & Ho & Hw & Hl & _).
    exact (checkGameState_flagsMatch t (grid s) Ho Hw Hl H48 Hm).
  - rewrite (handleMove_unchanged s direction rnd Hg Hterm Hch). exact Hf.
Qed.

Lemma undoMove_flagsMatch (s : State) : flagsMatch s -> flagsMatch (undoMove s).
Proof.
  intros (Hw & Ho & Hl). unfold undoMove, render.
  destruct (lastGrid s) as [lg|] eqn:E; [|unfold flagsMatch; rewrite E; auto].
  destruct (Hl lg eq_refl) as [H48 Hm].
  match goal with
  | |- flagsMatch (updateScoreDisplay (updateScoreDisplay ?t)) =>
      destruct (updateScoreDisplay_frame (updateScoreDisplay t))
        as (E1 & _ & E2 & _ & _ & _ & E3 & E4 & _);
      destruct (updateScoreDisplay_frame t)
        as (F1 & _ & F2 & _ & _ & _ & F3 & F4 & _)
  end.
  unfold flagsMatch. rewrite E1, E2, E3, E4, F1, F2, F3, F4. fields.
  rewrite copyGrid_id, H48, Hm. splits; try reflexivity. discriminate.
Qed.

Lemma initGame_flagsMatch (rnd1 rnd2 : Rand) (s : State) :
  valid_rand rnd1 -> valid_rand rnd2 -> flagsMatch (initGame rnd1 rnd2 s).
Proof.
  intros H1 H2.
  destruct (initGame_state rnd1 rnd2 s H1 H2)
    as (_ & _ & _ & _ & _ & Hl & _ & _ & Ho & Hw & _ & _ & Hm & H48).
  unfold flagsMatch. rewrite Hl, Ho, Hw, Hm, H48. splits; try reflexivity.
  discriminate.
Qed.

Lemma reachable_flagsMatch (s : State) : reachable s -> flagsMatch s.
Proof.
  induction 1 as [best r1 r2 H1 H2|s r1 r2 Hs IH H1 H2|s d rnd Hs IH Hrnd
                  |s Hs IH|s Hs IH].
  - apply initGame_flagsMatch; assumption.
  - apply initGame_flagsMatch; assumption.
  - apply handleMove_flagsMatch; [exact (proj1 (reachable_Inv s Hs))|exact IH].
  - apply undoMove_flagsMatch, IH.
  - exact IH.
Qed.

(** X9. In every reachable state the two flags say what the board
    shows: [gameWon] is up exactly when some cell holds 2048, and
    [gameOver] exactly when no cell holds 2048 and [hasMoves] fails.  A
    held snapshot is the board of a live game: it has a move and no
    2048. *)
Theorem flags_follow_board (s : State) :
  reachable s ->
  gameWon s = has2048 (grid s)
  /\ gameOver s = negb (has2048 (grid s)) && negb (hasMoves (grid s))
  /\ (forall lg, lastGrid s = Some lg -> has2048 lg = false /\ hasMoves lg = true).
Proof. intro H. exact (reachable_flagsMatch s H). Qed.

Lemma firstGame_reachable : reachable firstGame.
Proof. apply reach_load; exact valid_rnd0. Qed.

Lemma flags_follow_board_witness :
  reachable firstGame /\ gameWon firstGame = has2048 (grid firstGame).
Proof.
  split; [exact firstGame_reachable|].
  exact (proj1 (flags_follow_board firstGame firstGame_reachable)).
Defined.

(** ** Scores *)

Lemma moveCore_score (step : Acc -> nat -> Acc) (s : State) :
  score s <= score (snd (moveCore step s))
  /\ bestScore s <= bestScore (snd (moveCore step s))
  /\ (score s <= bestScore s ->
      score (snd (moveCore step s)) <= bestScore (snd (moveCore step s))).
Proof.
  unfold moveCore.
  destruct (fold_left step (seq 0 SIZE) (grid s, [], false, 0))
    as [[[g mm] moved] total].
  cbn [snd]. destruct (Z.ltb_spec 0 total) as [Hpos|Hle].
  - unfold bumpScore. rewrite updateScoreDisplay_best.
    destruct (updateScoreDisplay_frame
                (set_score (score (set_mergedMap mm (set_grid g s)) + total)
                           (set_mergedMap mm (set_grid g s))))
      as (_ & -> & _).
    fields. lia.
  - fields. lia.
Qed.

Lemma dispatch_score (direction : string) (s : State) :
  score s <= score (snd (dispatch direction s))
  /\ bestScore s <= bestScore (snd (dispatch direction s))
  /\ (score s <= bestScore s ->
      score (snd (dispatch direction s)) <= bestScore (snd (dispatch direction s))).
Proof.
  destruct (dispatch_cases direction s) as [(_ & step & _ & ->)|(_ & ->)];
    [apply moveCore_score|cbn [snd]; lia].
Qed.

(** What a move does to the three scores. *)
Lemma handleMove_scores (s : State) (direction : string) (rnd : Rand) :
  grid_ok (grid s) = true -> scoreOrder s ->
  scoreOrder (handleMove direction rnd s)
  /\ score s <= score (handleMove direction rnd s)
  /\ bestScore s <= bestScore (handleMove direction rnd s).
Proof.
  intros Hg (H0 & H1 & H2). destruct (gameOver s || gameWon s) eqn:Hterm.
  { rewrite handleMove_terminal by exact Hterm. unfold scoreOrder. lia. }
  destruct (changed direction s) eqn:Hch.
  - destruct (handleMove_changed_shape s direction rnd Hch)
      as (s1 & t & Hd & -> & _ & _ & _ & Hls & Hsc & Hbest & _).
    destruct (checkGameState_frame t) as (_ & C1 & _ & C2 & _ & _ & C3).
    destruct (dispatch_score direction s) as (D1 & D2 & D3).
    rewrite Hd in D1, D2, D3. cbn [snd] in D1, D2, D3.
    unfold scoreOrder. rewrite C1, C2, C3, Hls, Hsc, Hbest. lia.
  - rewrite (handleMove_unchanged s direction rnd Hg Hterm Hch).
    unfold scoreOrder. fields. lia.
Qed.

Lemma undoMove_scores (s : State) :
  scoreOrder s ->
  scoreOrder (undoMove s) /\ bestScore s <= bestScore (undoMove s).
Proof.
  intros (H0 & H1 & H2). unfold undoMove, render.
  destruct (lastGrid s) as [lg|]; [|unfold scoreOrder; lia].
  unfold scoreOrder.
  match goal with
  | |- context [updateScoreDisplay (updateScoreDisplay ?t)] =>
      destruct (updateScoreDisplay_frame (updateScoreDisplay t))
        as (_ & E1 & _ & E2 & _);
      destruct (updateScoreDisplay_frame t) as (_ & F1 & _ & F2 & _)
  end.
  rewrite !updateScoreDisplay_best, E1, E2, F1, F2. fields. lia.
Qed.

Lemma initGame_scores (rnd1 rnd2 : Rand) (s : State) :
  valid_rand rnd1 -> valid_rand rnd2 ->
  scoreOrder (initGame rnd1 rnd2 s)
  /\ bestScore s <= bestScore (initGame rnd1 rnd2 s).
Proof.
  intros H1 H2.
  destruct (initGame_state rnd1 rnd2 s H1 H2)
    as (_ & _ & _ & Hsc & Hls & _ & _ & _ & _ & _ & _ & Hb & _).
  unfold scoreOrder. rewrite Hsc, Hls, Hb. lia.
Qed.

Lemma reachable_scoreOrder (s : State) : reachable s -> scoreOrder s.
Proof.
  induction 1 as [best r1 r2 H1 H2|s r1 r2 Hs IH H1 H2|s d rnd Hs IH Hrnd
                  |s Hs IH|s Hs IH].
  - apply initGame_scores; assumption.
  - apply initGame_scores; assumption.
  - apply handleMove_scores; [exact (proj1 (reachable_Inv s Hs))|exact IH].
  - apply undoMove_scores, IH.
  - exact IH.
Qed.

(** X10. In every reachable state the snapshot score is between 0 and
    the score, and the score is at most the best score.  From there no
    move lowers the score, and neither a move, an undo nor a restart
    lowers the best score. *)
Theorem scores_in_order (s : State) :
  reachable s ->
  0 <= lastScore s /\ lastScore s <= score s /\ score s <= bestScore s
  /\ (forall direction rnd,
         score s <= score (handleMove direction rnd s)
         /\ bestScore s <= bestScore (handleMove direction rnd s))
  /\ bestScore s <= bestScore (undoMove s)
  /\ score (undoMove s) <= score s
  /\ (forall rnd1 rnd2, valid_rand rnd1 -> valid_rand rnd2 ->
                        bestScore s <= bestScore (initGame rnd1 rnd2 s)).
Proof.
  intro Hs. pose proof (reachable_scoreOrder s Hs) as Ho.
  pose proof (proj1 (reachable_Inv s Hs)) as Hg.
  destruct Ho as (H0 & H1 & H2). splits; try assumption.
  - intros direction rnd.
    apply (handleMove_scores s direction rnd Hg). unfold scoreOrder. lia.
  - apply undoMove_scores. unfold scoreOrder. lia.
  - unfold undoMove, render. destruct (lastGrid s) as [lg|]; [|lia].
    match goal with
    | |- context [updateScoreDisplay (updateScoreDisplay ?t)] =>
        destruct (updateScoreDisplay_frame (updateScoreDisplay t))
          as (_ & E1 & _);
        destruct (updateScoreDisplay_frame t) as (_ & F1 & _)
    end.
    rewrite E1, F1. fields. exact H1.
  - intros rnd1 rnd2 R1 R2. apply initGame_scores; assumption.
Qed.

Lemma scores_in_order_witness :
  reachable firstGame /\ score firstGame <= bestScore firstGame.
Proof.
  split; [exact firstGame_reachable|].
  exact (proj1 (proj2 (proj2 (scores_in_order firstGame firstGame_reachable)))).
Defined.

(** ** The board is never empty *)

Lemma initGame_sum (rnd1 rnd2 : Rand) (s : State) :
  valid_rand rnd1 -> valid_rand rnd2 ->
  4 <= gridSum (grid (initGame rnd1 rnd2 s)) <= 8.
Proof.
  intros H1 H2. unfold initGame, render.
  set (s0 := mkState (repeat (repeat 0 SIZE) SIZE) 0 None 0 None [] false false
                     (bestScore s) MsgEmpty).
  assert (He0 : hasEmpty (grid s0)) by (left; reflexivity).
  destruct (addRandomTile_count rnd1 s0 H1 eq_refl He0) as (Hg1 & _ & _ & Hc1 & _).
  pose proof (addRandomTile_OK rnd1 s0 H1 eq_refl) as Ha. cbv zeta in Ha.
  destruct Ha as (_ & Hs1 & _ & Hv1 & _). specialize (Hv1 He0).
  set (s1 := snd (addRandomTile rnd1 s0)) in *.
  assert (He1 : hasEmpty (grid s1)).
  { apply few_tiles_hasEmpty. rewrite Hc1, (concat_length _ Hg1). cbn. lia. }
  pose proof (addRandomTile_OK rnd2 s1 H2 Hg1) as Hb. cbv zeta in Hb.
  destruct Hb as (_ & Hs2 & _ & Hv2 & _). specialize (Hv2 He1).
  set (s2 := snd (addRandomTile rnd2 s1)) in *.
  destruct (updateScoreDisplay_frame (updateScoreDisplay s2)) as (E1 & _).
  destruct (updateScoreDisplay_frame s2) as (F1 & _).
  rewrite E1, F1, Hs2, Hs1.
  assert (Hz : gridSum (grid s0) = 0) by reflexivity.
  lia.
Qed.

Lemma handleMove_tilesSum (s : State) (direction : string) (rnd : Rand) :
  valid_rand rnd -> grid_ok (grid s) = true -> tilesSum s ->
  tilesSum (handleMove direction rnd s).
Proof.
  intros Hrnd Hg (Hsum & Hsnap). destruct (gameOver s || gameWon s) eqn:Hterm.
  { rewrite handleMove_terminal by exact Hterm. split; assumption. }
  destruct (changed direction s) eqn:Hch.
  - destruct (handleMove_changed_shape s direction rnd Hch)
      as (s1 & t & Hd & -> & _ & _ & Hl & _ & _ & _ & Hgr).
    pose proof (dispatch_OK direction s Hg) as Hcore. rewrite Hd in Hcore.
    destruct Hcore as (Hg1 & Hsum1 & _ & _ & _ & _ & _ & _ & _ & Hempty).
    set (s2 := set_undo (Some (copyGrid (grid s))) (score s) s1) in *.
    pose proof (addRandomTile_OK rnd s2 Hrnd Hg1) as Ha. cbv zeta in Ha.
    destruct Ha as (_ & Hs3 & _ & Hv & _). specialize (Hv (Hempty eq_refl)).
    destruct (checkGameState_frame t) as (C1 & _ & C2 & _).
    unfold tilesSum. rewrite C1, C2, Hgr, Hl, Hs3.
    unfold s2 at 1. fields. split; [lia|].
    intros lg E. injection E as <-. exact Hsum.
  - rewrite (handleMove_unchanged s direction rnd Hg Hterm Hch).
    split; assumption.
Qed.

Lemma undoMove_tilesSum (s : State) : tilesSum s -> tilesSum (undoMove s).
Proof.
  intros (Hsum & Hsnap). unfold undoMove, render.
  destruct (lastGrid s) as [lg|] eqn:E; [|unfold tilesSum; rewrite E; auto].
  match goal with
  | |- tilesSum (updateScoreDisplay (updateScoreDisplay ?t)) =>
      destruct (updateScoreDisplay_frame (updateScoreDisplay t))
        as (E1 & _ & E2 & _);
      destruct (updateScoreDisplay_frame t) as (F1 & _ & F2 & _)
  end.
  unfold tilesSum. rewrite E1, E2, F1, F2. fields. rewrite copyGrid_id.
  split; [apply Hsnap; reflexivity|discriminate].
Qed.

Lemma reachable_tilesSum (s : State) : reachable s -> tilesSum s.
Proof.
  induction 1 as [best r1 r2 H1 H2|s r1 r2 Hs IH H1 H2|s d rnd Hs IH Hrnd
                  |s Hs IH|s Hs IH].
  - split; [apply initGame_sum; assumption|].
    destruct (initGame_state r1 r2 (initialState best) H1 H2)
      as (_ & _ & _ & _ & _ & -> & _). discriminate.
  - split; [apply initGame_sum; assumption|].
    destruct (initGame_state r1 r2 s H1 H2) as (_ & _ & _ & _ & _ & -> & _).
    discriminate.
  - apply handleMove_tilesSum;
      [exact Hrnd|exact (proj1 (reachable_Inv s Hs))|exact IH].
  - apply undoMove_tilesSum, IH.
  - exact IH.
Qed.

Lemma sumList_tile (l : list Z) :
  sumList l <> 0 -> exists i, (i < length l)%nat /\ nth i l 0 <> 0.
Proof.
  induction l as [|a l IH]; intro H; [exfalso; apply H; reflexivity|].
  destruct (Z.eq_dec a 0) as [->|Ha].
  - destruct IH as (i & Hi & Hn); [exact H|].
    exists (S i). cbn. split; [lia|exact Hn].
  - exists 0%nat. cbn. split; [lia|exact Ha].
Qed.

Lemma board_has_tile (g : Grid) :
  grid_ok g = true -> 0 < gridSum g ->
  exists r c, (r < SIZE)%nat /\ (c < SIZE)%nat /\ cell g r c <> 0.
Proof.
  intros Hg Hsum. unfold gridSum in Hsum.
  destruct (sumList_tile (concat g)) as (i & Hi & Hn); [lia|].
  rewrite (concat_length g Hg) in Hi. unfold SIZE in *.
  exists (i / 4)%nat, (i mod 4)%nat.
  assert (Hdiv : (i / 4 < 4)%nat) by (apply Nat.Div0.div_lt_upper_bound; lia).
  assert (Hmod : (i mod 4 < 4)%nat) by (apply Nat.mod_upper_bound; lia).
  split; [exact Hdiv|]. split; [exact Hmod|].
  rewrite (cell_concat g _ _ Hg) by (unfold SIZE; assumption).
  unfold SIZE. rewrite <- (Nat.div_mod_eq i 4). exact Hn.
Qed.

(** X11. A game in play is never stuck, and a game that is over is: in
    every reachable state with both flags down some direction makes
    [handleMove] change the board, and in every reachable state with
    [gameOver] up each of the four core moves would return
    [moved = false]. *)
Theorem live_game_can_move (s : State) :
  reachable s ->
  (gameOver s || gameWon s = false ->
   exists direction, validDirection direction = true
                     /\ changed direction s = true)
  /\ (gameOver s = true ->
      fst (moveLeftCore s) = false /\ fst (moveRightCore s) = false
      /\ fst (moveUpCore s) = false /\ fst (moveDownCore s) = false).
Proof.
  intro Hs. pose proof (proj1 (reachable_Inv s Hs)) as Hg.
  pose proof (reachable_flagsMatch s Hs) as Hf.
  destruct (reachable_tilesSum s Hs) as [Hsum _].
  split.
  - intro Hlive. destruct (flagsMatch_live s Hf Hlive) as [_ Hm].
    apply (open_board_moves s Hg Hm); [|exact Hlive].
    apply board_has_tile; [exact Hg|lia].
  - intro Hover. destruct Hf as (_ & Ho & _). rewrite Hover in Ho.
    symmetry in Ho. apply andb_prop in Ho as [_ Hm].
    apply negb_true_iff in Hm.
    destruct (stuck_board_moves s Hg Hm) as (L & R & U & D & _). auto.
Qed.

Lemma live_game_can_move_witness :
  reachable firstGame
  /\ exists direction, validDirection direction = true
                       /\ changed direction firstGame = true.
Proof.
  split; [exact firstGame_reachable|].
  exact (proj1 (live_game_can_move firstGame firstGame_reachable) eq_refl).
Defined.

(** ** A line of any length *)

(** X14. Whatever the length of the line, [slideCombineRow] keeps the
    sum of its entries, returns the tiles first and the zeros after them
    (padded to [SIZE]), and removes one tile per recorded merge.
    Without a merge the tiles are the tiles of the input in their order
    and nothing is gained; on a line without negative entries the gain
    is never negative and is zero only without a merge. *)
Theorem slideCombineRow_any_line (row : list Z) :
  sumList (lineOut slideCombineRow row) = sumList row
  /\ lineOut slideCombineRow row
     = compact (lineOut slideCombineRow row)
       ++ repeat 0 (SIZE - length (compact (lineOut slideCombineRow row)))
  /\ (length (compact (lineOut slideCombineRow row))
      + length (lineMerged slideCombineRow row)
      = length (compact row))%nat
  /\ (lineMerged slideCombineRow row = [] ->
      compact (lineOut slideCombineRow row) = compact row
      /\ lineGain slideCombineRow row = 0)
  /\ (Forall (fun v => 0 <= v) row ->
      0 <= lineGain slideCombineRow row
      /\ (lineGain slideCombineRow row = 0 -> lineMerged slideCombineRow row = [])).
Proof.
  destruct (slideCombineRow_parts row) as (res & ms & g & Hscan & Hs & Hnz & Hlen).
  pose proof (slide_gain_nonneg row) as Hgain.
  unfold lineOut, lineMerged, lineGain in *. rewrite Hs in *. cbn [fst snd] in *.
  rewrite (compact_app_zeros res _ Hnz).
  splits.
  - rewrite sumList_app, sumList_zeros, Z.add_0_r.
    pose proof (mergeScan_sum (compact row) 0) as H. rewrite Hscan in H.
    cbn [fst] in H. rewrite H. apply compact_sum.
  - reflexivity.
  - exact Hlen.
  - intros ->. pose proof (mergeScan_no_merge (compact row) 0) as H.
    rewrite Hscan in H. specialize (H eq_refl). split; congruence.
  - exact Hgain.
Qed.

(** ** Tiles stop at 2048 *)

Lemma mergeScan_Forall2 (P Q : Z -> Prop) (l : list Z) :
  (forall v, P v -> Q v) -> (forall v, P v -> Q (v * 2)) ->
  Forall P l -> forall idx, Forall Q (fst (fst (mergeScan idx l))).
Proof.
  intros Hpq Hdbl.
  induction l as [| a | a b tl IH1 IH2] using list_pair_ind; intros Hl idx.
  - constructor.
  - inversion Hl; subst. cbn. auto.
  - rewrite mergeScan_pair.
    inversion Hl as [|? ? Ha Hl']; subst. inversion Hl' as [|? ? Hb Htl]; subst.
    destruct (a =? b).
    + specialize (IH1 Htl (S idx)).
      destruct (mergeScan (S idx) tl) as [[res ms] g]. cbn in *. auto.
    + specialize (IH2 Hl' (S idx)).
      destruct (mergeScan (S idx) (b :: tl)) as [[res ms] g]. cbn in *. auto.
Qed.

Lemma lineOut_cap (op : LineOp) (row : list Z) :
  op = slideCombineRow \/ op = slideReversed ->
  Forall (fun v => v <= 1024) row -> Forall (fun v => v <= 2048) (lineOut op row).
Proof.
  assert (Hslide : forall l, Forall (fun v => v <= 1024) l ->
                             Forall (fun v => v <= 2048) (lineOut slideCombineRow l)).
  { intros l Hl.
    destruct (slideCombineRow_parts l) as (res & ms & g & Hscan & Hs & _).
    unfold lineOut. rewrite Hs. cbn [fst]. apply Forall_app. split.
    - pose proof (mergeScan_Forall2 (fun v => v <= 1024) (fun v => v <= 2048)
                    (compact l) ltac:(cbv beta; intros; lia)
                    ltac:(cbv beta; intros; lia)
                    (compact_Forall _ _ Hl) 0) as H.
      rewrite Hscan in H. exact H.
    - apply Forall_forall. intros v Hv. apply repeat_spec in Hv. lia. }
  intros [-> | ->] Hrow; [apply Hslide, Hrow|].
  destruct (slideReversed_parts row) as (-> & _).
  apply Forall_rev, Hslide, Forall_rev, Hrow.
Qed.

Lemma Forall_concat (P : Z -> Prop) (g : Grid) :
  Forall P (concat g) <-> forall row, In row g -> Forall P row.
Proof.
  rewrite Forall_forall. split.
  - intros H row Hrow. apply Forall_forall. intros v Hv. apply H.
    apply in_concat. exists row. auto.
  - intros H v Hv. apply in_concat in Hv as (row & Hrow & Hv).
    specialize (H row Hrow). rewrite Forall_forall in H. auto.
Qed.

Lemma Forall_transpose (P : Z -> Prop) (g : Grid) :
  grid_ok g = true -> Forall P (concat g) -> Forall P (concat (transpose g)).
Proof.
  intros Hg H. grid_cells Hg. cbn in *.
  repeat rewrite Forall_cons_iff in *. decompose [and] H.
  repeat (split; [assumption|]). assumption.
Qed.

Lemma map_lineOut_cap (op : LineOp) (g : Grid) :
  op = slideCombineRow \/ op = slideReversed ->
  Forall (fun v => v <= 1024) (concat g) ->
  Forall (fun v => v <= 2048) (concat (map (lineOut op) g)).
Proof.
  intros Hop H. apply Forall_concat. intros row Hrow.
  apply in_map_iff in Hrow as (l & <- & Hl). apply lineOut_cap; [exact Hop|].
  rewrite Forall_concat in H. exact (H l Hl).
Qed.

(** A core move of a board of tiles up to 1024 leaves tiles up to 2048. *)
Lemma dispatch_cap (direction : string) (s : State) :
  grid_ok (grid s) = true ->
  Forall (fun v => v <= 1024) (concat (grid s)) ->
  Forall (fun v => v <= 2048) (concat (grid (snd (dispatch direction s)))).
Proof.
  intros Hg Hcap. destruct (grid_ok_rows _ Hg) as [Hlen _].
  assert (Hlen' : length (grid (set_grid (transpose (grid s)) s)) = SIZE)
    by (fields; unfold transpose; rewrite length_map, length_seq; reflexivity).
  assert (Hrow : forall op mark, op = slideCombineRow \/ op = slideReversed ->
             Forall (fun v => v <= 2048)
                    (concat (grid (snd (moveCore (rowStep op mark) s))))).
  { intros op mark Hop. destruct (moveCore_rows op mark s Hlen) as (_ & -> & _).
    apply map_lineOut_cap; assumption. }
  assert (Hcol : forall op mark, op = slideCombineRow \/ op = slideReversed ->
             Forall (fun v => v <= 2048)
                    (concat (grid (snd (moveCore (colStep op mark) s))))).
  { intros op mark Hop.
    assert (Hok : lineOK op)
      by (destruct Hop as [-> | ->];
          [exact slideCombineRow_lineOK|exact slideReversed_lineOK]).
    destruct (moveCore_cols op mark s Hok Hg) as (_ & -> & _).
    destruct (moveCore_rows op mark _ Hlen') as (_ & -> & _). fields.
    apply Forall_transpose.
    - apply map_lineOut_ok; [exact Hok|apply transpose_ok, Hg].
    - apply map_lineOut_cap; [exact Hop|]. apply Forall_transpose; assumption. }
  destruct (dispatch_cases direction s) as [(_ & step & Hin & ->)|(_ & ->)].
  - cbn [In] in Hin. destruct Hin as [<-|[<-|[<-|[<-|[]]]]].
    + change (moveCore leftStep s) with (moveLeftCore s).
      rewrite moveLeftCore_rows. apply Hrow. auto.
    + change (moveCore rightStep s) with (moveRightCore s).
      rewrite moveRightCore_rows. apply Hrow. auto.
    + change (moveCore upStep s) with (moveUpCore s).
      rewrite moveUpCore_cols. apply Hcol. auto.
    + change (moveCore downStep s) with (moveDownCore s).
      rewrite moveDownCore_cols. apply Hcol. auto.
  - cbn [snd]. eapply Forall_impl; [|exact Hcap]. cbv beta. intros. lia.
Qed.

Lemma tile_below_2048 (v : Z) : tileValue v -> v <= 2048 -> v <> 2048 -> v <= 1024.
Proof.
  intros [-> | (k & Hk & ->)] Hle Hne; [lia|].
  assert (Hk11 : k <= 11).
  { destruct (Z.le_gt_cases k 11) as [H|H]; [exact H|]. exfalso.
    assert (2 ^ 12 <= 2 ^ k) by (apply Z.pow_le_mono_r; lia).
    change (2 ^ 12) with 4096 in *. lia. }
  assert (k <> 11) by (intros ->; apply Hne; reflexivity).
  change 1024 with (2 ^ 10). apply Z.pow_le_mono_r; lia.
Qed.

Lemma addRandomTile_cells (rnd : Rand) (s : State) :
  valid_rand rnd -> grid_ok (grid s) = true ->
  forall x, In x (concat (grid (snd (addRandomTile rnd s)))) ->
            x = 2 \/ x = 4 \/ In x (concat (grid s)).
Proof.
  intros Hrnd Hg x.
  destruct (addRandomTile_cases rnd s Hrnd) as [[_ ->]|(pos & _ & Hin & ->)];
    fields; [auto|].
  apply emptyCells_In in Hin as (Hr & Hc & _).
  rewrite (concat_setCell _ _ _ _ Hg Hr Hc). intro Hx.
  apply In_assign in Hx as [->|Hx]; [|auto].
  destruct (randomValue_cases (rand_value rnd)) as [[_ ->]|[_ ->]]; auto.
Qed.

Lemma live_cap (s : State) :
  Inv s -> flagsMatch s -> capped s -> gameOver s || gameWon s = false ->
  Forall (fun v => v <= 1024) (concat (grid s)).
Proof.
  intros (_ & Ht & _) Hf (Hcap & _) Hlive.
  destruct (flagsMatch_live s Hf Hlive) as [H48 _].
  apply Forall_forall. intros v Hv.
  unfold tilesOnly in Ht. rewrite Forall_forall in Ht, Hcap.
  apply tile_below_2048; [apply Ht, Hv|apply Hcap, Hv|].
  intros ->. apply has2048_In in Hv. congruence.
Qed.

Lemma handleMove_capped (s : State) (direction : string) (rnd : Rand) :
  valid_rand rnd -> Inv s -> flagsMatch s -> capped s ->
  capped (handleMove direction rnd s).
Proof.
  intros Hrnd HI Hf Hc. pose proof (proj1 HI) as Hg.
  destruct (gameOver s || gameWon s) eqn:Hterm.
  { rewrite handleMove_terminal by exact Hterm. exact Hc. }
  pose proof (live_cap s HI Hf Hc Hterm) as Hlive.
  destruct (changed direction s) eqn:Hch.
  - destruct (handleMove_changed_shape s direction rnd Hch)
      as (s1 & t & Hd & -> & _ & _ & Hl & _ & _ & _ & Hgr).
    pose proof (dispatch_cap direction s Hg Hlive) as Hcap1.
    pose proof (dispatch_OK direction s Hg) as Hcore.
    rewrite Hd in Hcap1, Hcore. cbn [snd] in Hcap1.
    destruct Hcore as (Hg1 & _).
    destruct (checkGameState_frame t) as (C1 & _ & C2 & _).
    unfold capped. rewrite C1, C2, Hgr, Hl. split.
    + apply Forall_forall. intros x Hx.
      apply (addRandomTile_cells rnd _ Hrnd) in Hx; [|fields; exact Hg1].
      fields. destruct Hx as [->|[->|Hx]]; [lia|lia|].
      rewrite Forall_forall in Hcap1. exact (Hcap1 x Hx).
    + intros lg E. injection E as <-. exact Hlive.
  - rewrite (handleMove_unchanged s direction rnd Hg Hterm Hch). exact Hc.
Qed.

Lemma undoMove_capped (s : State) : capped s -> capped (undoMove s).
Proof.
  intros (Hcap & Hsnap). unfold undoMove, render.
  destruct (lastGrid s) as [lg|] eqn:E; [|unfold capped; rewrite E; auto].
  match goal with
  | |- capped (updateScoreDisplay (updateScoreDisplay ?t)) =>
      destruct (updateScoreDisplay_frame (updateScoreDisplay t))
        as (E1 & _ & E2 & _);
      destruct (updateScoreDisplay_frame t) as (F1 & _ & F2 & _)
  end.
  unfold capped. rewrite E1, E2, F1, F2. fields. rewrite copyGrid_id. split.
  - eapply Forall_impl; [|exact (Hsnap lg eq_refl)]. cbv beta. intros. lia.
  - discriminate.
Qed.

Lemma initGame_capped (rnd1 rnd2 : Rand) (s : State) :
  valid_rand rnd1 -> valid_rand rnd2 -> capped (initGame rnd1 rnd2 s).
Proof.
  intros H1 H2.
  destruct (initGame_state rnd1 rnd2 s H1 H2) as (_ & _ & Hcells & _ & _ & Hl & _).
  unfold capped. rewrite Hl. split; [|discriminate].
  apply Forall_forall. intros x Hx. destruct (Hcells x Hx) as [-> | [-> | ->]]; lia.
Qed.

Lemma reachable_capped (s : State) : reachable s -> capped s.
Proof.
  induction 1 as [best r1 r2 H1 H2|s r1 r2 Hs IH H1 H2|s d rnd Hs IH Hrnd
                  |s Hs IH|s Hs IH].
  - apply initGame_capped; assumption.
  - apply initGame_capped; assumption.
  - apply handleMove_capped;
      [exact Hrnd|exact (reachable_Inv s Hs)|exact (reachable_flagsMatch s Hs)
       |exact IH].
  - apply undoMove_capped, IH.
  - exact IH.
Qed.

(** X15. No reachable board holds a tile above 2048, because the game
    stops taking moves once a 2048 tile is there: every cell of a
    reachable board is at most 2048, every cell of a board in play and
    of a held snapshot is at most 1024. *)
Theorem tiles_stop_at_2048 (s : State) :
  reachable s ->
  (forall r c, (r < SIZE)%nat -> (c < SIZE)%nat -> cell (grid s) r c <= 2048)
  /\ (gameOver s || gameWon s = false ->
      forall r c, (r < SIZE)%nat -> (c < SIZE)%nat -> cell (grid s) r c <= 1024)
  /\ (forall lg, lastGrid s = Some lg ->
                 forall r c, (r < SIZE)%nat -> (c < SIZE)%nat -> cell lg r c <= 1024).
Proof.
  intro Hs. pose proof (reachable_Inv s Hs) as HI.
  pose proof (reachable_flagsMatch s Hs) as Hf.
  pose proof (reachable_capped s Hs) as Hc.
  assert (Hcell : forall (g : Grid) (b : Z),
             grid_ok g = true -> Forall (fun v => v <= b) (concat g) ->
             forall r c, (r < SIZE)%nat -> (c < SIZE)%nat -> cell g r c <= b).
  { intros g b Hg Hall r c Hr Hc'. rewrite (cell_concat g r c Hg Hr Hc').
    rewrite Forall_forall in Hall. apply Hall, nth_In.
    rewrite (concat_length g Hg). unfold SIZE in *. lia. }
  destruct HI as (Hg & Ht & Hl & Hrest). destruct Hc as (Hcap & Hsnap).
  splits.
  - apply Hcell; assumption.
  - intro Hlive. apply Hcell; [exact Hg|].
    apply live_cap; [unfold Inv; auto|exact Hf|split; assumption|exact Hlive].
  - intros lg E. apply Hcell; [apply (Hl lg E)|apply Hsnap, E].
Qed.

Lemma tiles_stop_at_2048_witness :
  reachable firstGame /\ cell (grid firstGame) 0 0 <= 2048.
Proof.
  split; [exact firstGame_reachable|].
  refine (proj1 (tiles_stop_at_2048 firstGame firstGame_reachable) 0%nat 0%nat _ _);
    unfold SIZE; lia.
Defined.

(** ** Rows compared through [JSON.stringify] *)

(** X16. Two rows of integers print to the same JSON text exactly when
    they are equal, so the comparison of [moveLeftCore] and
    [moveRightCore] finds a difference exactly when the row has
    changed. *)
Theorem stringify_compares_rows (a b : list Z) :
  (JSON_stringify a = JSON_stringify b <-> a = b)
  /\ (rowsDiffer a b = true <-> a <> b)
  /\ (rowsDiffer a b = false <-> a = b).
Proof.
  splits.
  - split; [apply JSON_stringify_inj|intros ->; reflexivity].
  - apply rowsDiffer_true.
  - apply rowsDiffer_false.
Qed.

Example stringify_sample :
  JSON_stringify [2; 0; 16; 1024] = "[2,0,16,1024]"%string.
Proof. reflexivity. Qed.


(** ** Keys and swipes: properties *)




Example swipe_right :
  game (handleTouchEnd 140 110 rnd0 swipePage) = handleMove "right" rnd0 pairBoard.
Proof. reflexivity. Qed.

Example swipe_short :
  handleTouchEnd 130 110 rnd0 swipePage = swipePage.
Proof. reflexivity. Qed.

Example swipe_tie_is_vertical :
  game (handleTouchEnd 140 60 rnd0 swipePage) = handleMove "up" rnd0 pairBoard.
Proof. reflexivity. Qed.

